(** * G1EvacuationFailureObjsInHR: the segmented log of evacuation failures

    A shallow embedding of
    [src/hotspot/share/gc/g1/g1EvacuationFailureObjsInHR.hpp]:
    the nested classes [Node] and [Array] (a segmented append-only log
    whose cursor packs a segment index and a slot index into one 64-bit
    word) and the address/offset conversions of the enclosing tracker.

    Machine integers are [Z] with their wrap-around written out, the C heap
    holding the segments is a finite map from pointers to buffers, and every
    way the C++ can go wrong (a failed assert, a null dereference, an access
    past a table or buffer) is an explicit [fault]. [add], which is written
    for concurrent callers, is modelled twice: as the function one thread
    runs, and as the sequence of its accesses to the shared log, taken by
    any number of threads in any interleaving. *)

From Stdlib Require Import ZArith Lia Bool List Sorted Permutation.
From stdpp Require Import base option list gmap.

Local Open Scope Z_scope.

(** ** Outcomes of running C++ code *)

Inductive fault : Type :=
| AssertionFailed         (* a HotSpot [assert] fired; debug builds only *)
| NullDereference         (* a member of a NULL [Node*] was read *)
| TableOutOfBounds (i : Z)  (* [_nodes[i]] with [i] outside the table *)
| BufferOutOfBounds (j : Z) (* [_oop_offsets[j]] with [j] outside the buffer *)
| UninitialisedRead       (* a slot of a fresh buffer read before written *)
| InvalidFree             (* [free_node] of a pointer that is not live *)
| SpinsForever            (* the publication poll of [add] never exits *)
| RetriesExhausted.       (* the reservation loop of [add] ran out of fuel *)

Inductive outcome (A : Type) : Type :=
| Ok (a : A)
| Fault (f : fault).
Arguments Ok {A} a.
Arguments Fault {A} f.

Definition bind {A B : Type} (c : outcome A) (k : A -> outcome B) : outcome B :=
  match c with
  | Ok a => k a
  | Fault f => Fault f
  end.

Notation "'let!' x ':=' c 'in' k" := (bind c (fun x => k))
  (at level 10, x pattern, c at level 100, k at level 200).

(** A [for] loop whose index runs over [idx], threading the loop state and
    stopping at the first fault. *)
Fixpoint for_each {S : Type} (idx : list Z) (body : Z -> S -> outcome S)
    (s : S) : outcome S :=
  match idx with
  | [] => Ok s
  | i :: rest => let! s' := body i s in for_each rest body s'
  end.

(** [for (uint32_t i = 0; i < n; i++)] *)
Definition for_below {S : Type} (n : Z) (body : Z -> S -> outcome S) (s : S)
    : outcome S :=
  for_each (seqZ 0 n) body s.

(** [for (uint32_t i = 0; i <= hi; i++)]: the index [hi] itself is visited.
    (With [hi = 2^32 - 1] the C++ loop would never end; every table has
    fewer than [2^32] entries, so the body faults first.) *)
Definition for_upto {S : Type} (hi : Z) (body : Z -> S -> outcome S) (s : S)
    : outcome S :=
  for_each (seqZ 0 (hi + 1)) body s.

(** The results of [f] on the items of a list, up to the first fault. *)
Fixpoint map_outcome {A B : Type} (f : A -> outcome B) (l : list A)
    : outcome (list B) :=
  match l with
  | [] => Ok []
  | x :: rest =>
      let! y := f x in
      let! ys := map_outcome f rest in
      Ok (y :: ys)
  end.

(** ** Machine integers *)

Definition uint64 (z : Z) : Z := z mod 2 ^ 64.
Definition uint32 (z : Z) : Z := z mod 2 ^ 32.
(** conversion of a [uint64_t] to [int64_t] (two's complement) *)
Definition int64 (z : Z) : Z := (z + 2 ^ 63) mod 2 ^ 64 - 2 ^ 63.

(** C heap pointers; [NULL] is [None] in an [option ptr]. *)
Abbreviation ptr := positive.

Section Log.

(** [ASSERT]: the build flag of debug builds. HotSpot's [assert] and
    [DEBUG_ONLY] expand to nothing without it ([iterate_elements] declares
    [total] under [DEBUG_ONLY] and asserts on it). *)
Variable ASSERT : bool.

(** The template parameters of [Node<LEN, Elem>] and [Array<NODE_SIZE, Elem>]. *)
Variable LENGTH : Z.
Variable Elem : Type.

Definition assert (cond : bool) : outcome unit :=
  if ASSERT && negb cond then Fault AssertionFailed else Ok tt.

(** *** class Node *)

(** A [Node] and the buffer [_oop_offsets] it owns are allocated together by
    [create_node] and released together by [free_node]: one heap cell.
    [AllocateHeap] does not initialise the buffer: a slot is [None] until
    it is written. *)
Record Node : Type := mkNode { _oop_offsets : list (option Elem) }.

Definition Node_new : Node := mkNode (replicate (Z.to_nat LENGTH) None).

(** [Elem& operator[](size_t idx)], used as an rvalue *)
Definition Node_get (node : Node) (idx : Z) : outcome Elem :=
  match _oop_offsets node !! Z.to_nat idx with
  | Some (Some e) => Ok e
  | Some None => Fault UninitialisedRead
  | None => Fault (BufferOutOfBounds idx)
  end.

(** [Elem& operator[](size_t idx)], assigned to *)
Definition Node_set (node : Node) (idx : Z) (e : Elem) : outcome Node :=
  if (Z.to_nat idx <? length (_oop_offsets node))%nat
  then Ok (mkNode (<[Z.to_nat idx := Some e]> (_oop_offsets node)))
  else Fault (BufferOutOfBounds idx).

(** *** class Array *)

Definition TMP : Z := uint64 (Z.shiftl 1 32).
Definition LOW_MASK : Z := uint64 (TMP - 1).
Definition HIGH_MASK : Z := uint64 (Z.shiftl LOW_MASK 32).

(** The object together with the heap cells it owns. *)
Record Array : Type := mkArray {
  _max_nodes_length : Z;           (* const uint32_t *)
  _cur_pos : Z;                    (* volatile uint64_t *)
  _nodes : list (option ptr);      (* NODE_XXX* volatile *, one entry per segment *)
  _elements_num : Z;               (* volatile uint *)
  c_heap : gmap ptr Node           (* the live nodes *)
}.

Definition set_cur_pos (v : Z) (a : Array) : Array :=
  mkArray (_max_nodes_length a) v (_nodes a) (_elements_num a) (c_heap a).
Definition set_nodes (t : list (option ptr)) (a : Array) : Array :=
  mkArray (_max_nodes_length a) (_cur_pos a) t (_elements_num a) (c_heap a).
Definition set_elements_num (v : Z) (a : Array) : Array :=
  mkArray (_max_nodes_length a) (_cur_pos a) (_nodes a) v (c_heap a).
Definition set_c_heap (h : gmap ptr Node) (a : Array) : Array :=
  mkArray (_max_nodes_length a) (_cur_pos a) (_nodes a) (_elements_num a) h.

Definition low (n : Z) : Z := Z.land n LOW_MASK.
Definition high (n : Z) : Z := Z.land n HIGH_MASK.

Definition elem_index (n : Z) : outcome Z :=
  let! _ := assert (low n <? LENGTH) in
  Ok (uint32 (low n)).

Definition node_index (n : Z) : Z := uint32 (Z.shiftr (high n) 32).

Definition next (n : Z) : outcome Z :=
  let lo := low n in
  let hi := high n in
  let! _ := assert ((lo <? LENGTH) && (LENGTH <=? LOW_MASK)) in
  let! _ := assert (hi <? HIGH_MASK) in
  let '(lo, hi) :=
    if lo + 1 =? LENGTH
    then (0, uint64 (hi + Z.shiftl 1 32))
    else (uint64 (lo + 1), hi) in
  let! _ := assert (hi <=? HIGH_MASK) in
  Ok (Z.lor hi lo).

(** [_nodes[i]] read, plainly or through [Atomic::load] *)
Definition load_node (i : Z) (a : Array) : outcome (option ptr) :=
  match _nodes a !! Z.to_nat i with
  | Some p => Ok p
  | None => Fault (TableOutOfBounds i)
  end.

(** [Atomic::store(&_nodes[i], p)] *)
Definition store_node (i : Z) (p : option ptr) (a : Array) : outcome Array :=
  if (Z.to_nat i <? length (_nodes a))%nat
  then Ok (set_nodes (<[Z.to_nat i := p]> (_nodes a)) a)
  else Fault (TableOutOfBounds i).

(** [node->...]: the cell a node pointer refers to *)
Definition deref (p : option ptr) (a : Array) : outcome Node :=
  match p with
  | None => Fault NullDereference
  | Some q =>
      match c_heap a !! q with
      | Some node => Ok node
      | None => Fault InvalidFree
      end
  end.

(** [Node::create_node()]: a cell at an address that is not in use. *)
Definition create_node (a : Array) : ptr * Array :=
  let p := fresh (dom (c_heap a)) in
  (p, set_c_heap (<[p := Node_new]> (c_heap a)) a).

(** [Node::free_node(node)]: reads [node->_oop_offsets] before anything
    else, so a NULL argument is a null dereference. *)
Definition free_node (p : option ptr) (a : Array) : outcome Array :=
  let! _ := deref p a in
  match p with
  | Some q => Ok (set_c_heap (delete q (c_heap a)) a)
  | None => Fault NullDereference
  end.

(** [Array(uint32_t max_nodes_length)] *)
Definition Array_new (max_nodes_length : Z) : Array :=
  mkArray max_nodes_length 0
          (replicate (Z.to_nat max_nodes_length) None) 0 ∅.

Definition objs_num (a : Array) : Z := _elements_num a.

(** [Atomic::cmpxchg(&_cur_pos, pos, next_pos)]: the value found, and the
    cursor replaced when that value is [pos]. *)
Definition cmpxchg_cur_pos (pos next_pos : Z) (a : Array) : Z * Array :=
  let res := _cur_pos a in
  (res, if res =? pos then set_cur_pos next_pos a else a).

(** The body of [add] once the reservation [pos] is won. No other thread
    runs, so the poll [while (load(&_nodes[hi]) == NULL);] exits at once
    on a published segment and never on an unpublished one. *)
Definition add_reserved (pos : Z) (elem : Elem) (a : Array) : outcome Array :=
  let hi := node_index pos in
  let! lo := elem_index pos in
  let! a :=
    if lo =? 0
    then (let '(p, a') := create_node a in store_node hi (Some p) a')
    else Ok a in
  let! node := load_node hi a in
  match node with
  | None => Fault SpinsForever
  | Some q =>
      let! cell := deref node a in
      let! cell' := Node_set cell lo elem in
      let a := set_c_heap (<[q := cell']> (c_heap a)) a in
      Ok (set_elements_num (uint32 (_elements_num a + 1)) a)
  end.

(** [add]: the reservation loop, [fuel] attempts long. *)
Fixpoint add_loop (fuel : nat) (elem : Elem) (a : Array) : outcome Array :=
  match fuel with
  | O => Fault RetriesExhausted
  | S fuel' =>
      let pos := _cur_pos a in
      let! next_pos := next pos in
      let '(res, a) := cmpxchg_cur_pos pos next_pos a in
      if res =? pos
      then add_reserved pos elem a
      else add_loop fuel' elem a
  end.

(** Run by one thread the exchange succeeds at the first attempt (see
    [add_loop_first_attempt]). *)
Definition add (elem : Elem) (a : Array) : outcome Array :=
  add_loop 1 elem a.

(** [iterate_elements(v)]: the visitor is a state [V] and its [visit]
    member; the loop state is the visitor and the debug counter [total]. *)
Definition iterate_elements {V : Type} (visit : Elem -> V -> V) (v : V)
    (a : Array) : outcome V :=
  let pos := int64 (_cur_pos a) in
  let hi := node_index (uint64 pos) in
  let! lo := elem_index (uint64 pos) in
  let! visited :=
    for_upto hi (fun i '(v, total) =>
      let limit := if i =? hi then lo else LENGTH in
      let! node := load_node i a in
      for_below limit (fun j '(v, total) =>
        let! cell := deref node a in
        let! e := Node_get cell j in
        Ok (visit e v, uint32 (total + 1))) (v, total)) (v, 0) in
  let '(v, total) := visited in
  let! _ := assert (total =? _elements_num a) in
  Ok v.

(** [iterate_nodes(v)]: the visitor receives each table entry (NULL or
    not) and the number of slots in use. *)
Definition iterate_nodes {V : Type} (visit : option ptr -> Z -> V -> V) (v : V)
    (a : Array) : outcome V :=
  let pos := int64 (_cur_pos a) in
  let hi := node_index (uint64 pos) in
  let! lo := elem_index (uint64 pos) in
  for_upto hi (fun i v =>
    let! node := load_node i a in
    let limit := if i =? hi then lo else LENGTH in
    Ok (visit node limit v)) v.

Definition reset (a : Array) : outcome Array :=
  let pos := int64 (_cur_pos a) in
  let! a :=
    for_upto (node_index (uint64 pos)) (fun hi a =>
      let! node := load_node hi a in
      let! a := free_node node a in
      store_node hi None a) a in
  Ok (set_cur_pos 0 (set_elements_num 0 a)).

(** [~Array()]: [reset()], then the table itself is released; what is left
    is the heap. *)
Definition Array_delete (a : Array) : outcome (gmap ptr Node) :=
  let! a := reset a in
  Ok (c_heap a).

End Log.

Arguments mkNode {Elem} _.
Arguments _oop_offsets {Elem} _.
Arguments mkArray {Elem} _ _ _ _ _.
Arguments _max_nodes_length {Elem} _.
Arguments _cur_pos {Elem} _.
Arguments _nodes {Elem} _.
Arguments _elements_num {Elem} _.
Arguments c_heap {Elem} _.
Arguments Array_new {Elem} _.
Arguments objs_num {Elem} _.
Arguments reset {Elem} _.
Arguments add ASSERT LENGTH {Elem} _ _.
Arguments add_loop ASSERT LENGTH {Elem} _ _ _.
Arguments add_reserved ASSERT LENGTH {Elem} _ _ _.
Arguments iterate_elements ASSERT LENGTH {Elem V} _ _ _.
Arguments iterate_nodes ASSERT LENGTH {Elem V} _ _ _.

(** The cursor holding segment [hi] and slot [lo]. *)
Definition pack (hi lo : Z) : Z := 2 ^ 32 * hi + lo.

(** A cursor that passes the asserts of [next]: a [uint64_t] whose slot is
    inside a segment and whose segment index can still grow. *)
Definition valid_cursor (LENGTH : Z) (n : Z) : Prop :=
  0 <= n < 2 ^ 64 /\ low n < LENGTH /\ node_index n < 2 ^ 32 - 1.

(** [next] applied [k] times: the cursor after [k] reservations. *)
Fixpoint next_times (ASSERT : bool) (LENGTH : Z) (k : nat) (n : Z) : outcome Z :=
  match k with
  | O => Ok n
  | S k' => let! n' := next ASSERT LENGTH n in next_times ASSERT LENGTH k' n'
  end.

(** The operations of the log's public interface, as commands. The visitor
    of the two traversals records what it is shown. *)
Inductive operation (Elem : Type) : Type :=
| OpAdd (elem : Elem)
| OpObjsNum
| OpIterateElements
| OpIterateNodes
| OpReset.
Arguments OpAdd {Elem} _.
Arguments OpObjsNum {Elem}.
Arguments OpIterateElements {Elem}.
Arguments OpIterateNodes {Elem}.
Arguments OpReset {Elem}.

Definition run_operation (ASSERT : bool) (LENGTH : Z) {Elem : Type}
    (op : operation Elem) (a : Array Elem) : outcome (Array Elem) :=
  match op with
  | OpAdd elem => add ASSERT LENGTH elem a
  | OpObjsNum => let _ := objs_num a in Ok a
  | OpIterateElements =>
      let! _ := iterate_elements ASSERT LENGTH (fun e v => v ++ [e]) [] a in
      Ok a
  | OpIterateNodes =>
      let! _ := iterate_nodes ASSERT LENGTH
                  (fun node limit v => v ++ [(node, limit)]) [] a in
      Ok a
  | OpReset => reset a
  end.

(** [add] called once per element of [es], in order, by one thread. *)
Fixpoint add_all (ASSERT : bool) (LENGTH : Z) {Elem : Type}
    (es : list Elem) (a : Array Elem) : outcome (Array Elem) :=
  match es with
  | [] => Ok a
  | e :: rest =>
      let! a' := add ASSERT LENGTH e a in add_all ASSERT LENGTH rest a'
  end.

(** What a traversal shows to a visitor that writes everything down. *)
Definition replay (ASSERT : bool) (LENGTH : Z) {Elem : Type}
    (a : Array Elem) : outcome (list Elem) :=
  iterate_elements ASSERT LENGTH (fun e v => v ++ [e]) [] a.

(** The slots [0 .. limit - 1] of the segment [node], read one by one with
    [node->operator[](j)] as the inner loop of [iterate_elements] reads
    them. With [limit] 0 nothing is read, whatever [node] is. *)
Definition read_node {Elem : Type} (node : option ptr) (limit : Z)
    (a : Array Elem) : outcome (list Elem) :=
  for_below limit (fun j v =>
    let! cell := deref Elem node a in
    let! e := Node_get Elem cell j in
    Ok (v ++ [e])) [].

(** A visitor for [iterate_nodes] that appends to what it has the slots in
    use of each node it is shown; it keeps the first fault it runs into. *)
Definition copy_node {Elem : Type} (a : Array Elem) (node : option ptr)
    (limit : Z) (acc : outcome (list Elem)) : outcome (list Elem) :=
  let! v := acc in
  let! es := read_node node limit a in
  Ok (v ++ es).

(** A sequence of operations, run in order by one thread. *)
Fixpoint run_operations (ASSERT : bool) (LENGTH : Z) {Elem : Type}
    (ops : list (operation Elem)) (a : Array Elem) : outcome (Array Elem) :=
  match ops with
  | [] => Ok a
  | op :: rest =>
      let! a' := run_operation ASSERT LENGTH op a in
      run_operations ASSERT LENGTH rest a'
  end.

(** The states a log of [max_nodes_length] segments can be in: those that
    its operations lead to from the constructor. *)
Definition reachable (ASSERT : bool) (LENGTH : Z) {Elem : Type}
    (max_nodes_length : Z) (a : Array Elem) : Prop :=
  exists ops, run_operations ASSERT LENGTH ops (Array_new max_nodes_length) = Ok a.

Definition Zlen {A : Type} (l : list A) : Z := Z.of_nat (length l).

(** The number of segments that [m] elements occupy. *)
Definition segments_for (LENGTH m : Z) : Z := (m + LENGTH - 1) / LENGTH.

(** The segments [ps], in table order, hold the elements [es]: element [k]
    sits in slot [k mod LENGTH] of segment [k / LENGTH], the slots past the
    last element are not yet written, and nothing else is on the heap. *)
Record segments_inv (LENGTH : Z) {Elem : Type} (max_nodes_length : Z)
    (es : list Elem) (ps : list ptr) (a : Array Elem) : Prop := mkSegmentsInv {
  inv_table_len : length (_nodes a) = Z.to_nat max_nodes_length;
  inv_table : forall i : nat,
    (i < Z.to_nat max_nodes_length)%nat -> _nodes a !! i = Some (ps !! i);
  inv_nodup : NoDup ps;
  inv_dom : forall p, is_Some (c_heap a !! p) -> p ∈ ps;
  inv_cells : forall (i : nat) p, ps !! i = Some p ->
    exists node, c_heap a !! p = Some node /\
      length (_oop_offsets node) = Z.to_nat LENGTH /\
      forall j : nat, (j < Z.to_nat LENGTH)%nat ->
        _oop_offsets node !! j = Some (es !! (i * Z.to_nat LENGTH + j)%nat)
}.

(** The representation invariant of a log that holds the elements [es]. *)
Record log_inv (LENGTH : Z) {Elem : Type} (max_nodes_length : Z)
    (es : list Elem) (ps : list ptr) (a : Array Elem) : Prop := mkLogInv {
  inv_max : _max_nodes_length a = max_nodes_length;
  inv_cur : _cur_pos a = pack (Zlen es / LENGTH) (Zlen es mod LENGTH);
  inv_num : _elements_num a = Zlen es mod 2 ^ 32;
  inv_ps_len : Zlen ps = segments_for LENGTH (Zlen es);
  inv_segments : segments_inv LENGTH max_nodes_length es ps a
}.

(** The loop invariant of [reset], started on [a0] with segments [ps]: at
    index [k] the segments before [k] are released and their entries NULL. *)
Record reset_inv {Elem : Type} (max_nodes_length : Z) (ps : list ptr)
    (a0 : Array Elem) (k : Z) (a : Array Elem) : Prop := mkResetInv {
  rinv_max : _max_nodes_length a = _max_nodes_length a0;
  rinv_cur : _cur_pos a = _cur_pos a0;
  rinv_num : _elements_num a = _elements_num a0;
  rinv_table_len : length (_nodes a) = Z.to_nat max_nodes_length;
  rinv_table : forall i : nat, (i < Z.to_nat max_nodes_length)%nat ->
    _nodes a !! i = Some (if (i <? Z.to_nat k)%nat then None else ps !! i);
  rinv_heap : forall p, is_Some (c_heap a !! p) <-> p ∈ drop (Z.to_nat k) ps
}.

(** The log [a] holds exactly the elements [es], element [k] in slot
    [k mod LENGTH] of segment [k / LENGTH]: the count is their number
    (modulo [2^32], the counter being a [uint]), the cursor is just past the
    last of them, and [iterate_elements] shows them to a visitor one by one
    in this order, each once. *)
Definition log_holds (ASSERT : bool) (LENGTH : Z) {Elem : Type}
    (a : Array Elem) (es : list Elem) : Prop :=
  objs_num a = Zlen es mod 2 ^ 32 /\
  node_index (_cur_pos a) = Zlen es / LENGTH /\
  elem_index ASSERT LENGTH (_cur_pos a) = Ok (Zlen es mod LENGTH) /\
  (forall k, 0 <= k < Zlen es ->
     exists e p node,
       es !! Z.to_nat k = Some e /\
       _nodes a !! Z.to_nat (k / LENGTH) = Some (Some p) /\
       c_heap a !! p = Some node /\
       _oop_offsets node !! Z.to_nat (k mod LENGTH) = Some (Some e)) /\
  replay ASSERT LENGTH a = Ok es /\
  (forall (V : Type) (visit : Elem -> V -> V) (v : V),
     iterate_elements ASSERT LENGTH visit v a =
     Ok (fold_left (fun v e => visit e v) es v)).

(** The first [n] entries of the segment table are non-NULL, the others
    NULL. *)
Definition table_holds {Elem : Type} (a : Array Elem) (n : Z) : Prop :=
  forall i, 0 <= i < _max_nodes_length a ->
    if i <? n
    then exists p, _nodes a !! Z.to_nat i = Some (Some p)
    else _nodes a !! Z.to_nat i = Some None.

(** ** Threads

    [add] is written for many threads at once. A thread inside [add] is at
    one of its accesses to the shared log; what it does between two of them
    touches its own locals only and is run together with the access that
    follows. *)

Inductive add_pc : Type :=
| AtLoad                            (* pos = Atomic::load(&_cur_pos) *)
| AtCmpxchg (pos : Z)               (* next(pos); Atomic::cmpxchg(&_cur_pos, ..) *)
| AtCreate (hi lo : Z)              (* lo == 0: create_node(), Atomic::store(&_nodes[hi], ..) *)
| AtPoll (hi lo : Z)                (* node = Atomic::load(&_nodes[hi]), while NULL *)
| AtWrite (hi lo : Z) (node : ptr)  (* node->operator[](lo) = elem *)
| AtInc (hi lo : Z).                (* Atomic::inc(&_elements_num); break *)

(** A thread: where it is, and the elements it has still to [add], the one
    it is adding first. *)
Record thread (Elem : Type) : Type := mkThread {
  pc : add_pc;
  todo : list Elem
}.
Arguments mkThread {Elem} _ _.
Arguments pc {Elem} _.
Arguments todo {Elem} _.

(** One access of a thread to the shared log. A thread with nothing left
    to add does nothing. *)
Definition thread_step (ASSERT : bool) (LENGTH : Z) {Elem : Type}
    (th : thread Elem) (a : Array Elem) : outcome (thread Elem * Array Elem) :=
  match todo th with
  | [] => Ok (th, a)
  | elem :: rest =>
      match pc th with
      | AtLoad =>
          Ok (mkThread (AtCmpxchg (_cur_pos a)) (todo th), a)
      | AtCmpxchg pos =>
          let! next_pos := next ASSERT LENGTH pos in
          let '(res, a) := cmpxchg_cur_pos Elem pos next_pos a in
          if res =? pos
          then
            let hi := node_index pos in
            let! lo := elem_index ASSERT LENGTH pos in
            Ok (mkThread (if lo =? 0 then AtCreate hi lo else AtPoll hi lo)
                         (todo th), a)
          else Ok (mkThread AtLoad (todo th), a)
      | AtCreate hi lo =>
          let '(p, a) := create_node LENGTH Elem a in
          let! a := store_node Elem hi (Some p) a in
          Ok (mkThread (AtPoll hi lo) (todo th), a)
      | AtPoll hi lo =>
          let! node := load_node Elem hi a in
          match node with
          | None => Ok (th, a)
          | Some q => Ok (mkThread (AtWrite hi lo q) (todo th), a)
          end
      | AtWrite hi lo q =>
          let! cell := deref Elem (Some q) a in
          let! cell' := Node_set Elem cell lo elem in
          Ok (mkThread (AtInc hi lo) (todo th),
              set_c_heap Elem (<[q := cell']> (c_heap a)) a)
      | AtInc hi lo =>
          Ok (mkThread AtLoad rest,
              set_elements_num Elem (uint32 (_elements_num a + 1)) a)
      end
  end.

(** The threads and the log they share. *)
Record config (Elem : Type) : Type := mkConfig {
  threads : list (thread Elem);
  shared : Array Elem
}.
Arguments mkConfig {Elem} _ _.
Arguments threads {Elem} _.
Arguments shared {Elem} _.

(** The scheduler lets thread [tid] make its next access. *)
Definition schedule_step (ASSERT : bool) (LENGTH : Z) {Elem : Type}
    (tid : nat) (c : config Elem) : outcome (config Elem) :=
  match threads c !! tid with
  | None => Ok c
  | Some th =>
      let! r := thread_step ASSERT LENGTH th (shared c) in
      Ok (mkConfig (<[tid := fst r]> (threads c)) (snd r))
  end.

(** An interleaving: the threads in the order in which they take steps. *)
Fixpoint run_schedule (ASSERT : bool) (LENGTH : Z) {Elem : Type}
    (s : list nat) (c : config Elem) : outcome (config Elem) :=
  match s with
  | [] => Ok c
  | tid :: rest =>
      let! c' := schedule_step ASSERT LENGTH tid c in
      run_schedule ASSERT LENGTH rest c'
  end.

(** One thread per list of elements, all about to start, on a new log. *)
Definition start {Elem : Type} (max_nodes_length : Z)
    (todos : list (list Elem)) : config Elem :=
  mkConfig (map (mkThread AtLoad) todos) (Array_new max_nodes_length).

(** Every thread has completed all its [add]s. *)
Definition quiescent {Elem : Type} (c : config Elem) : Prop :=
  forall tid th, threads c !! tid = Some th -> todo th = [].

(** *** The reservations of a concurrent run

    Reservation [r] is the [r]-th exchange of the cursor that succeeded; it
    belongs to the thread that made it until that thread has counted its
    element. *)
Inductive stage : Type :=
| Unpublished   (* slot 0 reserved, the segment not yet stored in the table *)
| Reserved      (* the slot is reserved, the element not yet written *)
| Written.      (* the element is written, not yet counted *)

Inductive fate : Type :=
| InFlight (tid : nat) (st : stage)
| Completed.

Record entry (Elem : Type) : Type := mkEntry {
  e_elem : Elem;
  e_fate : fate
}.
Arguments mkEntry {Elem} _ _.
Arguments e_elem {Elem} _.
Arguments e_fate {Elem} _.

Definition is_written (f : fate) : bool :=
  match f with
  | InFlight _ Written | Completed => true
  | InFlight _ _ => false
  end.

Definition is_published (f : fate) : bool :=
  match f with
  | InFlight _ Unpublished => false
  | _ => true
  end.

Definition is_completed (f : fate) : bool :=
  match f with
  | Completed => true
  | InFlight _ _ => false
  end.

(** What slot [r] of the log holds. *)
Definition slot_view {Elem : Type} (log : list (entry Elem)) (r : nat)
    : option Elem :=
  match log !! r with
  | Some en => if is_written (e_fate en) then Some (e_elem en) else None
  | None => None
  end.

(** Segment [i] is in the table. *)
Definition seg_published (LENGTH : Z) {Elem : Type} (log : list (entry Elem))
    (i : nat) : bool :=
  match log !! (i * Z.to_nat LENGTH)%nat with
  | Some en => is_published (e_fate en)
  | None => false
  end.

(** The reservation a thread holds, as its locals [hi] and [lo] have it. *)
Definition claim_of {Elem : Type} (th : thread Elem) : option (Z * Z * stage) :=
  match todo th with
  | [] => None
  | _ :: _ =>
      match pc th with
      | AtLoad | AtCmpxchg _ => None
      | AtCreate hi lo => Some (hi, lo, Unpublished)
      | AtPoll hi lo | AtWrite hi lo _ => Some (hi, lo, Reserved)
      | AtInc hi lo => Some (hi, lo, Written)
      end
  end.

(** The elements of a thread that have no reservation yet. *)
Definition pending {Elem : Type} (th : thread Elem) : list Elem :=
  match claim_of th with
  | Some _ => tail (todo th)
  | None => todo th
  end.

(** The thread a reservation belongs to while it is in flight. *)
Definition inflight_tid {Elem : Type} (en : entry Elem) : option nat :=
  match e_fate en with
  | InFlight tid _ => Some tid
  | Completed => None
  end.

(** The threads that hold a reservation: past the exchange they won, and
    before the increment of the counter is done. *)
Definition in_flight {Elem : Type} (c : config Elem) : list nat :=
  filter (fun tid => is_Some (threads c !! tid ≫= claim_of))
         (seq 0 (length (threads c))).

(** The invariant of a concurrent run that adds the elements [all]: [log]
    lists the reservations made so far. *)
Record conc_inv (LENGTH : Z) {Elem : Type} (max_nodes_length : Z)
    (all : list Elem) (log : list (entry Elem)) (c : config Elem) : Prop :=
  mkConcInv {
  ci_max : _max_nodes_length (shared c) = max_nodes_length;
  ci_cur : _cur_pos (shared c) = pack (Zlen log / LENGTH) (Zlen log mod LENGTH);
  ci_num : _elements_num (shared c) =
           Zlen (filter (fun en => is_completed (e_fate en) = true) log) mod 2 ^ 32;
  ci_perm : Permutation (map e_elem log ++ concat (map pending (threads c))) all;
  ci_table_len : length (_nodes (shared c)) = Z.to_nat max_nodes_length;
  ci_table : forall i : nat, (i < Z.to_nat max_nodes_length)%nat ->
    if seg_published LENGTH log i
    then exists p, _nodes (shared c) !! i = Some (Some p)
    else _nodes (shared c) !! i = Some None;
  ci_inj : forall (i i' : nat) p,
    _nodes (shared c) !! i = Some (Some p) ->
    _nodes (shared c) !! i' = Some (Some p) -> i = i';
  ci_dom : forall p, is_Some (c_heap (shared c) !! p) ->
    exists i : nat, _nodes (shared c) !! i = Some (Some p);
  ci_cells : forall (i : nat) p, _nodes (shared c) !! i = Some (Some p) ->
    exists node, c_heap (shared c) !! p = Some node /\
      length (_oop_offsets node) = Z.to_nat LENGTH /\
      forall j : nat, (j < Z.to_nat LENGTH)%nat ->
        _oop_offsets node !! j = Some (slot_view log (i * Z.to_nat LENGTH + j)%nat);
  ci_written : forall (r : nat) en, log !! r = Some en ->
    is_written (e_fate en) = true ->
    seg_published LENGTH log (r / Z.to_nat LENGTH)%nat = true;
  ci_slot0 : forall (r : nat) en tid, log !! r = Some en ->
    e_fate en = InFlight tid Unpublished -> (r mod Z.to_nat LENGTH = 0)%nat;
  ci_owner : forall (r : nat) en tid st, log !! r = Some en ->
    e_fate en = InFlight tid st ->
    exists th, threads c !! tid = Some th /\
      claim_of th = Some (Z.of_nat r / LENGTH, Z.of_nat r mod LENGTH, st) /\
      head (todo th) = Some (e_elem en);
  ci_claim : forall tid th hi lo st, threads c !! tid = Some th ->
    claim_of th = Some (hi, lo, st) ->
    exists (r : nat) en, hi = Z.of_nat r / LENGTH /\ lo = Z.of_nat r mod LENGTH /\
      log !! r = Some en /\ e_fate en = InFlight tid st /\
      head (todo th) = Some (e_elem en);
  ci_stale : forall tid th pos, threads c !! tid = Some th ->
    pc th = AtCmpxchg pos -> todo th <> [] ->
    exists r : Z, 0 <= r <= Zlen log /\ pos = pack (r / LENGTH) (r mod LENGTH);
  ci_node : forall tid th hi lo q, threads c !! tid = Some th ->
    pc th = AtWrite hi lo q -> todo th <> [] ->
    _nodes (shared c) !! Z.to_nat hi = Some (Some q)
}.

(** ** The tracker: addresses and offsets *)

Section Tracker.

Variable ASSERT : bool.

(** [typedef uint32_t Elem] *)
Abbreviation Offset := Z.

Definition NODE_LENGTH : Z := 256.

(** A [HeapWord*] is the byte address it holds; a heap word is 8 bytes. *)
Definition HeapWordSize : Z := 8.

Record G1EvacuationFailureObjsInHR : Type := mkTracker {
  offset_mask : Z;               (* const uint64_t *)
  _region_idx : Z;               (* const uint *)
  _bottom : Z;                   (* const HeapWord* *)
  _nodes_array : Array Offset;   (* Array<NODE_LENGTH, Elem> *)
  _offset_array : list Offset;   (* Elem*, filled by the replay *)
  _objs_num : Z                  (* uint *)
}.

Definition set_nodes_array (a : Array Offset) (t : G1EvacuationFailureObjsInHR)
    : G1EvacuationFailureObjsInHR :=
  mkTracker (offset_mask t) (_region_idx t) (_bottom t) a
            (_offset_array t) (_objs_num t).

(** Modelled from the spec: [pointer_delta] is declared outside this header;
    the spec has it compute "the word-distance from the region's base
    address". The byte distance is taken as C++ takes it on [uintptr_t]. *)
Definition pointer_delta (left right : Z) : Z :=
  uint64 (left - right) / HeapWordSize.

(** [oop(_bottom + offset)]: pointer arithmetic on [HeapWord*] *)
Definition cast_from_offset (offset : Offset) (t : G1EvacuationFailureObjsInHR)
    : Z :=
  uint64 (_bottom t + offset * HeapWordSize).

Definition cast_from_oop_addr (obj : Z) (t : G1EvacuationFailureObjsInHR)
    : outcome Offset :=
  let o := obj in
  let offset := pointer_delta o (_bottom t) in
  let! _ := assert ASSERT (offset_mask t >=? offset) in
  Ok (uint32 (Z.land offset (offset_mask t))).

(** Modelled from the spec: the constructor is defined outside this header.
    The spec has the tracker "sized implicitly by the region's geometry
    (which bounds the offset bit-width and the maximum segment count)" and
    calls [offset_mask] "an immutable offset bit-width mask": the mask of
    the [offset_bits] low bits. *)
Definition Tracker_new (offset_bits max_segments region_idx bottom : Z)
    : G1EvacuationFailureObjsInHR :=
  mkTracker (Z.ones offset_bits) region_idx bottom (Array_new max_segments) [] 0.

(** Modelled from the spec: [record] is defined outside this header. The
    spec: it "computes the word-distance from the region's base address,
    asserts it fits the configured bit-width [...] and inserts it via the
    underlying log's add". *)
Definition record (obj : Z) (t : G1EvacuationFailureObjsInHR)
    : outcome G1EvacuationFailureObjsInHR :=
  let! offset := cast_from_oop_addr obj t in
  let! a := add ASSERT NODE_LENGTH offset (_nodes_array t) in
  Ok (set_nodes_array a t).

Fixpoint record_all (objs : list Z) (t : G1EvacuationFailureObjsInHR)
    : outcome G1EvacuationFailureObjsInHR :=
  match objs with
  | [] => Ok t
  | obj :: rest => let! t' := record obj t in record_all rest t'
  end.

(** Modelled from the spec: [record] is "concurrent, multi-writer (mirrors
    [add]'s contract)". A thread inside [record] computes the offset of its
    object from the tracker's immutable fields, which touches nothing
    shared, and is then inside [add] with that offset. The worker threads,
    one per list of objects, are the threads of [add] on the tracker's log,
    each with the offsets of its objects. *)
Definition start_recording (objss : list (list Z))
    (t : G1EvacuationFailureObjsInHR) : outcome (config Offset) :=
  let! todos :=
    map_outcome (map_outcome (fun obj => cast_from_oop_addr obj t)) objss in
  Ok (mkConfig (map (mkThread AtLoad) todos) (_nodes_array t)).

(** Modelled from the spec: the normalisation of the recorded offsets "into
    ascending address order with no duplicate entries" is defined outside
    this header and the spec leaves the algorithm open. Here: insertion
    into an ascending list, an offset already present being dropped. *)
Fixpoint insert_offset (x : Offset) (l : list Offset) : list Offset :=
  match l with
  | [] => [x]
  | y :: rest =>
      if x <? y then x :: y :: rest
      else if x =? y then y :: rest
      else y :: insert_offset x rest
  end.

Definition normalize (l : list Offset) : list Offset :=
  fold_right insert_offset [] l.

(** Modelled from the spec: [iterate] is defined outside this header. The
    spec: it "normalizes the recorded offsets [...], then, for each
    normalized offset, reconstructs the corresponding object address and
    invokes the supplied visitor". The closure is a state [V] and its
    [do_object] member. The release of the storage that the spec allows
    after the replay is not part of this contract and is left out. *)
Definition iterate {V : Type} (do_object : Z -> V -> V) (v : V)
    (t : G1EvacuationFailureObjsInHR) : outcome V :=
  let! offsets := replay ASSERT NODE_LENGTH (_nodes_array t) in
  Ok (fold_left (fun v offset => do_object (cast_from_offset offset t) v)
                (normalize offsets) v).

(** An object of the tracker's region: a word-aligned address at or above
    the base whose word-distance from the base fits the mask. *)
Definition in_region (obj : Z) (t : G1EvacuationFailureObjsInHR) : Prop :=
  _bottom t <= obj < 2 ^ 64 /\
  (obj - _bottom t) mod HeapWordSize = 0 /\
  (obj - _bottom t) / HeapWordSize <= offset_mask t.

(** The word-distance of [obj] from the base. *)
Definition offset_of (obj : Z) (t : G1EvacuationFailureObjsInHR) : Offset :=
  (obj - _bottom t) / HeapWordSize.

(** The closure that writes down the objects it is given. *)
Definition visited_objects (t : G1EvacuationFailureObjsInHR)
    : outcome (list Z) :=
  iterate (fun obj v => v ++ [obj]) [] t.

End Tracker.

(** * Properties *)

(** ** The cursor: two 32-bit fields in one 64-bit word *)

Lemma LOW_MASK_eq : LOW_MASK = Z.ones 32.
Proof. reflexivity. Qed.

Lemma HIGH_MASK_eq : HIGH_MASK = 2 ^ 64 - 2 ^ 32.
Proof. reflexivity. Qed.

Lemma low_mod n : low n = n mod 2 ^ 32.
Proof. unfold low. rewrite LOW_MASK_eq. apply Z.land_ones. lia. Qed.

Lemma low_range n : 0 <= low n < 2 ^ 32.
Proof. rewrite low_mod. apply Z.mod_pos_bound. lia. Qed.

(** Bits that do not overlap: [|] is [+]. *)
Lemma lor_disjoint_add a b : Z.land a b = 0 -> Z.lor a b = a + b.
Proof.
  intros H. rewrite Z.add_nocarry_lxor by exact H.
  symmetry. apply Z.lxor_lor. exact H.
Qed.

Lemma land_masks_disjoint n :
  Z.land (Z.land n HIGH_MASK) (Z.land n LOW_MASK) = 0.
Proof.
  apply Z.bits_inj'. intros i Hi.
  rewrite !Z.land_spec, Z.bits_0.
  assert (Hm : Z.testbit HIGH_MASK i && Z.testbit LOW_MASK i = false).
  { rewrite <- Z.land_spec.
    replace (Z.land HIGH_MASK LOW_MASK) with 0 by reflexivity.
    apply Z.bits_0. }
  destruct (Z.testbit n i); simpl; [exact Hm | reflexivity].
Qed.

Lemma high_plus_low n : 0 <= n < 2 ^ 64 -> high n + low n = n.
Proof.
  intros Hn. unfold high, low.
  rewrite <- lor_disjoint_add by apply land_masks_disjoint.
  rewrite <- Z.land_lor_distr_r.
  replace (Z.lor HIGH_MASK LOW_MASK) with (Z.ones 64) by reflexivity.
  rewrite Z.land_ones by lia. apply Z.mod_small. exact Hn.
Qed.

Lemma high_div n : 0 <= n < 2 ^ 64 -> high n = 2 ^ 32 * (n / 2 ^ 32).
Proof.
  intros Hn. pose proof (high_plus_low n Hn) as H.
  rewrite low_mod in H.
  pose proof (Z.div_mod n (2 ^ 32)) as D. lia.
Qed.

Lemma node_index_div n : 0 <= n < 2 ^ 64 -> node_index n = n / 2 ^ 32.
Proof.
  intros Hn. unfold node_index, uint32.
  rewrite Z.shiftr_div_pow2 by lia.
  rewrite high_div by exact Hn.
  rewrite Z.mul_comm, Z.div_mul by lia.
  apply Z.mod_small. split.
  - apply Z.div_pos; lia.
  - apply Z.div_lt_upper_bound; lia.
Qed.

Lemma pack_range hi lo :
  0 <= hi < 2 ^ 32 -> 0 <= lo < 2 ^ 32 -> 0 <= pack hi lo < 2 ^ 64.
Proof. unfold pack. lia. Qed.

Lemma low_pack hi lo : 0 <= lo < 2 ^ 32 -> low (pack hi lo) = lo.
Proof.
  intros Hlo. rewrite low_mod. unfold pack.
  rewrite Z.add_comm, Z.mul_comm, Z.mod_add by lia.
  apply Z.mod_small. exact Hlo.
Qed.

Lemma node_index_pack hi lo :
  0 <= hi < 2 ^ 32 -> 0 <= lo < 2 ^ 32 -> node_index (pack hi lo) = hi.
Proof.
  intros Hhi Hlo. rewrite node_index_div by (apply pack_range; assumption).
  unfold pack. rewrite Z.add_comm, Z.mul_comm, Z.div_add by lia.
  rewrite Z.div_small by exact Hlo. lia.
Qed.

Lemma pack_unpack n :
  0 <= n < 2 ^ 64 -> n = pack (node_index n) (low n).
Proof.
  intros Hn. unfold pack. rewrite node_index_div, low_mod by exact Hn.
  apply Z.div_mod. lia.
Qed.

Lemma node_index_range n : 0 <= node_index n < 2 ^ 32.
Proof. unfold node_index, uint32. apply Z.mod_pos_bound. lia. Qed.

Lemma high_pack hi lo :
  0 <= hi < 2 ^ 32 -> 0 <= lo < 2 ^ 32 -> high (pack hi lo) = 2 ^ 32 * hi.
Proof.
  intros Hhi Hlo.
  pose proof (high_plus_low (pack hi lo) (pack_range hi lo Hhi Hlo)) as H.
  rewrite low_pack in H by exact Hlo. unfold pack in H at 2. lia.
Qed.

Lemma lor_pack hi lo :
  0 <= hi -> 0 <= lo < 2 ^ 32 -> Z.lor (2 ^ 32 * hi) lo = pack hi lo.
Proof.
  intros Hhi Hlo. unfold pack. apply lor_disjoint_add.
  apply Z.bits_inj'. intros i Hi. rewrite Z.land_spec, Z.bits_0.
  destruct (Z.lt_ge_cases i 32) as [Hlt | Hge].
  - rewrite Z.mul_comm, Z.mul_pow2_bits_low by lia. reflexivity.
  - replace (Z.testbit lo i) with false; [apply andb_false_r |].
    symmetry. destruct (Z.eq_dec lo 0) as [-> | Hne]; [apply Z.bits_0 |].
    apply Z.bits_above_log2; [lia |].
    apply Z.lt_le_trans with 32; [| exact Hge].
    apply Z.log2_lt_pow2; lia.
Qed.

Lemma int64_uint64 n : 0 <= n < 2 ^ 64 -> uint64 (int64 n) = n.
Proof.
  intros Hn. unfold uint64, int64.
  destruct (Z.lt_ge_cases n (2 ^ 63)) as [Hlt | Hge].
  - rewrite (Z.mod_small (n + 2 ^ 63)) by lia.
    replace (n + 2 ^ 63 - 2 ^ 63) with n by lia. apply Z.mod_small. lia.
  - replace (n + 2 ^ 63) with (n - 2 ^ 63 + 1 * 2 ^ 64) by lia.
    rewrite Z.mod_add by lia. rewrite (Z.mod_small (n - 2 ^ 63)) by lia.
    replace (n - 2 ^ 63 - 2 ^ 63) with (n + (-1) * 2 ^ 64) by lia.
    rewrite Z.mod_add by lia. apply Z.mod_small. lia.
Qed.

Section Cursor.

Variable ASSERT : bool.
Variable LENGTH : Z.
Hypothesis LENGTH_uint32 : 0 <= LENGTH < 2 ^ 32.

Lemma assert_true c : c = true -> assert ASSERT c = Ok tt.
Proof. intros ->. unfold assert. rewrite andb_false_r. reflexivity. Qed.

Lemma elem_index_pack hi lo :
  0 <= lo < LENGTH -> elem_index ASSERT LENGTH (pack hi lo) = Ok lo.
Proof.
  intros Hlo. unfold elem_index. rewrite low_pack by lia.
  rewrite assert_true by (apply Z.ltb_lt; lia). simpl.
  unfold uint32. rewrite Z.mod_small by lia. reflexivity.
Qed.

(** In every build, a slot index that [elem_index] returns is the low half. *)
Lemma elem_index_Ok n lo :
  elem_index ASSERT LENGTH n = Ok lo -> lo = low n.
Proof.
  unfold elem_index. destruct (assert ASSERT _); simpl; [| discriminate].
  intros [= <-]. unfold uint32. apply Z.mod_small. apply low_range.
Qed.

Lemma next_pack hi lo :
  0 <= hi < 2 ^ 32 - 1 -> 0 <= lo < LENGTH ->
  next ASSERT LENGTH (pack hi lo) =
  Ok (if lo + 1 =? LENGTH then pack (hi + 1) 0 else pack hi (lo + 1)).
Proof.
  intros Hhi Hlo. unfold next.
  rewrite low_pack, high_pack by lia.
  rewrite assert_true; [simpl |].
  2:{ apply andb_true_intro. split; [apply Z.ltb_lt; lia |].
      apply Z.leb_le. rewrite LOW_MASK_eq, Z.ones_equiv. lia. }
  rewrite assert_true by (apply Z.ltb_lt; rewrite HIGH_MASK_eq; lia). simpl.
  destruct (lo + 1 =? LENGTH) eqn:E.
  - replace (uint64 (2 ^ 32 * hi + Z.shiftl 1 32)) with (2 ^ 32 * (hi + 1)).
    2:{ unfold uint64. rewrite Z.shiftl_mul_pow2 by lia.
        rewrite Z.mod_small; lia. }
    rewrite assert_true by (apply Z.leb_le; rewrite HIGH_MASK_eq; lia). simpl.
    rewrite lor_pack by lia. reflexivity.
  - replace (uint64 (lo + 1)) with (lo + 1)
      by (unfold uint64; rewrite Z.mod_small; lia).
    rewrite assert_true by (apply Z.leb_le; rewrite HIGH_MASK_eq; lia). simpl.
    apply Z.eqb_neq in E. rewrite lor_pack by lia. reflexivity.
Qed.

End Cursor.

Section CursorSuccessor.

Variable ASSERT : bool.
Variable LENGTH : Z.
Hypothesis LENGTH_uint32 : 0 <= LENGTH < 2 ^ 32.

Lemma next_valid n :
  valid_cursor LENGTH n ->
  next ASSERT LENGTH n =
  Ok (if low n + 1 =? LENGTH then pack (node_index n + 1) 0
      else pack (node_index n) (low n + 1)).
Proof.
  intros (Hn & Hlo & Hhi).
  rewrite (pack_unpack n Hn) at 1.
  pose proof (low_range n). pose proof (node_index_range n).
  apply next_pack; lia.
Qed.

(** C4: for every cursor whose slot index is below [LENGTH] and
    whose segment index is below [2^32 - 1] (the asserts of [next]), the
    successor keeps the segment and adds one to the slot, except at slot
    [LENGTH - 1], where the slot becomes 0 and the segment index grows by
    exactly 1. *)
Theorem next_successor (n lo : Z) :
  0 <= n < 2 ^ 64 ->
  elem_index ASSERT LENGTH n = Ok lo ->
  lo < LENGTH ->
  node_index n < 2 ^ 32 - 1 ->
  exists n',
    next ASSERT LENGTH n = Ok n' /\
    (lo = LENGTH - 1 ->
       elem_index ASSERT LENGTH n' = Ok 0 /\
       node_index n' = node_index n + 1) /\
    (lo <> LENGTH - 1 ->
       elem_index ASSERT LENGTH n' = Ok (lo + 1) /\
       node_index n' = node_index n).
Proof.
  intros Hn Hidx Hlo Hhi.
  apply elem_index_Ok in Hidx. subst lo.
  pose proof (low_range n) as Hl. pose proof (node_index_range n) as Hh.
  rewrite next_valid by (repeat split; lia).
  destruct (low n + 1 =? LENGTH) eqn:E.
  - apply Z.eqb_eq in E. eexists. split; [reflexivity |]. split; [| lia].
    intros _. split.
    + apply elem_index_pack; lia.
    + apply node_index_pack; lia.
  - apply Z.eqb_neq in E. eexists. split; [reflexivity |]. split; [lia |].
    intros _. split.
    + apply elem_index_pack; lia.
    + apply node_index_pack; lia.
Qed.

(** The successor of a valid cursor is the next larger valid cursor. *)
Lemma next_increasing n :
  valid_cursor LENGTH n ->
  exists n', next ASSERT LENGTH n = Ok n' /\ n < n' < 2 ^ 64 /\
    forall m, valid_cursor LENGTH m -> n < m -> n' <= m.
Proof.
  intros Hv. pose proof Hv as (Hn & Hlo & Hhi).
  pose proof (low_range n) as Hl. pose proof (node_index_range n) as Hh.
  rewrite (next_valid n Hv). eexists. split; [reflexivity |].
  pose proof (pack_unpack n Hn) as Hp. unfold pack in *.
  destruct (low n + 1 =? LENGTH) eqn:E.
  - apply Z.eqb_eq in E. split; [lia |].
    intros m (Hm & Hmlo & Hmhi) Hlt.
    pose proof (pack_unpack m Hm) as Hq. unfold pack in Hq.
    pose proof (low_range m). pose proof (node_index_range m). lia.
  - apply Z.eqb_neq in E. split; [lia |].
    intros m (Hm & Hmlo & Hmhi) Hlt. lia.
Qed.

End CursorSuccessor.

(** C4 as stated fails at the last segment index: with [LENGTH = 256] the
    cursor of segment [2^32 - 1], slot 255 has a slot below [LENGTH], yet a
    debug build stops in [assert(hi < HIGH_MASK)] and a product build wraps
    to the cursor 0, whose segment index is 0. *)
Lemma next_at_last_segment :
  let n := 0xFFFFFFFF000000FF in
  0 <= n < 2 ^ 64 /\
  elem_index true 256 n = Ok 255 /\ elem_index false 256 n = Ok 255 /\
  node_index n = 2 ^ 32 - 1 /\
  next true 256 n = Fault AssertionFailed /\
  next false 256 n = Ok 0 /\
  node_index 0 <> node_index n + 1.
Proof. vm_compute. repeat split; congruence. Qed.

(** Witness of [next_successor]: segment 3, slot 255 of a 256-slot log. *)
Lemma next_successor_witness :
  exists n',
    next true 256 0x3000000FF = Ok n' /\
    (255 = 256 - 1 ->
       elem_index true 256 n' = Ok 0 /\ node_index n' = node_index 0x3000000FF + 1) /\
    (255 <> 256 - 1 ->
       elem_index true 256 n' = Ok (255 + 1) /\ node_index n' = node_index 0x3000000FF).
Proof.
  apply (next_successor true 256); [lia | lia | reflexivity | lia | vm_compute; reflexivity].
Defined.

(** ** Arithmetic of positions *)

Lemma succ_position_wrap L M :
  0 < L -> 0 <= M -> M mod L + 1 = L ->
  (M + 1) / L = M / L + 1 /\ (M + 1) mod L = 0.
Proof.
  intros HL HM E. pose proof (Z.div_mod M L ltac:(lia)) as D.
  assert (H : M + 1 = L * (M / L + 1) + 0) by lia.
  split.
  - symmetry. apply (Z.div_unique_pos _ _ _ 0); [lia | exact H].
  - symmetry. apply (Z.mod_unique_pos _ _ (M / L + 1)); [lia | exact H].
Qed.

Lemma succ_position_same L M :
  0 < L -> 0 <= M -> M mod L + 1 <> L ->
  (M + 1) / L = M / L /\ (M + 1) mod L = M mod L + 1.
Proof.
  intros HL HM E. pose proof (Z.div_mod M L ltac:(lia)) as D.
  pose proof (Z.mod_pos_bound M L HL) as B.
  assert (H : M + 1 = L * (M / L) + (M mod L + 1)) by lia.
  split.
  - symmetry. apply (Z.div_unique_pos _ _ _ (M mod L + 1)); [lia | exact H].
  - symmetry. apply (Z.mod_unique_pos _ _ (M / L)); [lia | exact H].
Qed.

Lemma segments_for_full L M :
  0 < L -> 0 <= M -> M mod L = 0 -> segments_for L M = M / L.
Proof.
  intros HL HM E. unfold segments_for.
  pose proof (Z.div_mod M L ltac:(lia)) as D.
  symmetry. apply (Z.div_unique_pos _ _ _ (L - 1)); lia.
Qed.

Lemma segments_for_partial L M :
  0 < L -> 0 <= M -> M mod L <> 0 -> segments_for L M = M / L + 1.
Proof.
  intros HL HM E. unfold segments_for.
  pose proof (Z.div_mod M L ltac:(lia)) as D.
  pose proof (Z.mod_pos_bound M L HL) as B.
  symmetry. apply (Z.div_unique_pos _ _ _ (M mod L - 1)); lia.
Qed.

Lemma position_bound L max M :
  0 < L -> 0 <= M -> M < max * L -> M / L < max.
Proof. intros HL HM Hlt. apply Z.div_lt_upper_bound; lia. Qed.

Lemma position_split L M :
  0 < L -> 0 <= M ->
  Z.to_nat M = (Z.to_nat (M / L) * Z.to_nat L + Z.to_nat (M mod L))%nat.
Proof.
  intros HL HM. pose proof (Z.mod_pos_bound M L HL) as B.
  assert (0 <= M / L) by (apply Z.div_pos; lia).
  rewrite <- Z2Nat.inj_mul, <- Z2Nat.inj_add by lia.
  f_equal. rewrite Z.mul_comm. apply Z.div_mod. lia.
Qed.

(** ** Loops *)

Lemma for_each_app {St : Type} (l1 l2 : list Z) (body : Z -> St -> outcome St) s :
  for_each (l1 ++ l2) body s =
  let! s' := for_each l1 body s in for_each l2 body s'.
Proof.
  revert s. induction l1 as [| i l1 IH]; intros s; simpl; [reflexivity |].
  destruct (body i s) as [s' | f]; simpl; [apply IH | reflexivity].
Qed.

(** A loop over [0 .. n-1] whose body keeps the invariant [P] runs to the
    end. *)
Lemma for_each_invariant {St : Type} (P : Z -> St -> Prop)
    (body : Z -> St -> outcome St) (n : Z) (s : St) :
  0 <= n -> P 0 s ->
  (forall i s, 0 <= i < n -> P i s ->
     exists s', body i s = Ok s' /\ P (i + 1) s') ->
  exists s', for_each (seqZ 0 n) body s = Ok s' /\ P n s'.
Proof.
  intros Hn H0 Hstep.
  assert (G : forall k m s, 0 <= m -> m + Z.of_nat k = n -> P m s ->
            exists s', for_each (seqZ m (Z.of_nat k)) body s = Ok s' /\ P n s').
  { induction k as [| k IH]; intros m s0 Hm Hk HP.
    - simpl. exists s0. split; [reflexivity |].
      replace n with m by lia. exact HP.
    - rewrite seqZ_cons by lia. simpl.
      destruct (Hstep m s0 ltac:(lia) HP) as (s1 & E1 & HP1).
      rewrite E1. simpl.
      replace (Z.pred (Z.of_nat (S k))) with (Z.of_nat k) by lia.
      apply IH; [lia | lia | exact HP1]. }
  destruct (G (Z.to_nat n) 0 s ltac:(lia) ltac:(lia) H0) as (s' & E & HP).
  rewrite Z2Nat.id in E by lia. eauto.
Qed.

(** A loop whose body keeps [P] up to index [k] and faults there, faults. *)
Lemma for_each_fault {St : Type} (P : Z -> St -> Prop)
    (body : Z -> St -> outcome St) (n k : Z) (s : St) (f : fault) :
  0 <= k < n -> P 0 s ->
  (forall i s, 0 <= i < k -> P i s ->
     exists s', body i s = Ok s' /\ P (i + 1) s') ->
  (forall s, P k s -> body k s = Fault f) ->
  for_each (seqZ 0 n) body s = Fault f.
Proof.
  intros Hk H0 Hstep Hfault.
  replace n with (k + (n - k)) by lia.
  rewrite seqZ_app by lia. rewrite for_each_app.
  destruct (for_each_invariant P body k s ltac:(lia) H0 Hstep) as (s' & E & HP).
  rewrite E. simpl. rewrite seqZ_cons by lia. simpl.
  rewrite Z.add_0_l, (Hfault s' HP). reflexivity.
Qed.

(** ** The representation invariant *)

Lemma lookup_snoc {A : Type} (l : list A) (x : A) (k : nat) :
  (l ++ [x]) !! k = if decide (k = length l) then Some x else l !! k.
Proof.
  destruct (decide (k = length l)) as [-> | Hne].
  - rewrite lookup_app_r by lia. rewrite Nat.sub_diag. reflexivity.
  - destruct (Nat.lt_ge_cases k (length l)) as [Hlt | Hge].
    + apply lookup_app_l. exact Hlt.
    + rewrite lookup_app_r by lia.
      rewrite (lookup_ge_None_2 l k) by lia.
      destruct (k - length l)%nat eqn:E; [lia | reflexivity].
Qed.

Section LogInvariant.

Variable ASSERT : bool.
Variable LENGTH : Z.
Variable Elem : Type.
Variable max : Z.
Hypothesis LENGTH_range : 0 < LENGTH < 2 ^ 32.
Hypothesis max_range : 0 <= max < 2 ^ 32.

#[local] Set Default Proof Using "LENGTH_range max_range".

Implicit Types (es : list Elem) (ps : list ptr) (a : Array Elem).

Lemma inv_new : log_inv LENGTH max (@nil Elem) [] (Array_new max).
Proof.
  split; simpl.
  - reflexivity.
  - unfold Zlen. simpl. rewrite Z.div_0_l, Z.mod_0_l by lia. reflexivity.
  - reflexivity.
  - unfold Zlen, segments_for. simpl. symmetry. apply Z.div_small. lia.
  - split; simpl.
    + apply length_replicate.
    + intros i Hi. apply lookup_replicate_2. exact Hi.
    + constructor.
    + intros p [x Hx]. rewrite lookup_empty in Hx. discriminate.
    + intros i p Hp. discriminate.
Qed.

Lemma add_loop_first_attempt fuel (e : Elem) a :
  add_loop ASSERT LENGTH (S fuel) e a = add_loop ASSERT LENGTH 1 e a.
Proof.
  simpl. destruct (next ASSERT LENGTH (_cur_pos a)); simpl; [| reflexivity].
  rewrite Z.eqb_refl. reflexivity.
Qed.

Lemma add_unfold (e : Elem) a :
  add ASSERT LENGTH e a =
  let! next_pos := next ASSERT LENGTH (_cur_pos a) in
  add_reserved ASSERT LENGTH (_cur_pos a) e (set_cur_pos Elem next_pos a).
Proof.
  unfold add. simpl.
  destruct (next ASSERT LENGTH (_cur_pos a)); simpl; [| reflexivity].
  rewrite Z.eqb_refl. reflexivity.
Qed.

(** Every segment of the table is a live cell. *)
Lemma inv_live es ps a p :
  segments_inv LENGTH max es ps a -> p ∈ ps -> is_Some (c_heap a !! p).
Proof.
  intros Hs Hp. apply list_elem_of_lookup in Hp as [i Hi].
  destruct (inv_cells _ _ _ _ _ Hs i p Hi) as (node & Hn & _). eauto.
Qed.

Lemma load_node_inv es ps a (i : Z) :
  segments_inv LENGTH max es ps a -> 0 <= i < max ->
  load_node Elem i a = Ok (ps !! Z.to_nat i).
Proof.
  intros Hs Hi. unfold load_node.
  rewrite (inv_table _ _ _ _ _ Hs) by lia. reflexivity.
Qed.

Lemma load_node_outside es ps a (i : Z) :
  segments_inv LENGTH max es ps a -> max <= i ->
  load_node Elem i a = Fault (TableOutOfBounds i).
Proof.
  intros Hs Hi. unfold load_node.
  rewrite lookup_ge_None_2; [reflexivity |].
  rewrite (inv_table_len _ _ _ _ _ Hs). lia.
Qed.

(** The first slot of a segment: the segment is created and published. *)
Lemma publish_segment es ps a (hi : Z) :
  segments_inv LENGTH max es ps a ->
  Zlen ps = hi -> Zlen es = hi * LENGTH -> hi < max ->
  exists p a',
    (let '(p, a1) := create_node LENGTH Elem a in store_node Elem hi (Some p) a1)
      = Ok a' /\
    segments_inv LENGTH max es (ps ++ [p]) a' /\
    _max_nodes_length a' = _max_nodes_length a /\
    _cur_pos a' = _cur_pos a /\
    _elements_num a' = _elements_num a /\
    _nodes a !! Z.to_nat hi = Some None /\
    _nodes a' = <[Z.to_nat hi := Some p]> (_nodes a).
Proof.
  intros Hs Hps Hes Hhi. unfold Zlen in *.
  set (p := fresh (dom (c_heap a))).
  assert (Hfresh : c_heap a !! p = None).
  { apply not_elem_of_dom. apply is_fresh. }
  assert (Hnotin : p ∉ ps).
  { intros Hin. destruct (inv_live es ps a p Hs Hin) as [x Hx]. congruence. }
  exists p. unfold create_node, store_node. fold p. simpl.
  rewrite (inv_table_len _ _ _ _ _ Hs).
  destruct (Nat.ltb_spec (Z.to_nat hi) (Z.to_nat max)) as [_ | ?]; [| lia].
  eexists. split; [reflexivity |].
  assert (Hidx : Z.to_nat hi = length ps) by lia.
  split; [| repeat split; try reflexivity].
  2:{ rewrite (inv_table _ _ _ _ _ Hs) by lia.
      rewrite Hidx, lookup_ge_None_2 by lia. reflexivity. }
  split; simpl.
  - rewrite length_insert. apply (inv_table_len _ _ _ _ _ Hs).
  - intros i Hi. rewrite lookup_snoc.
    destruct (decide (i = length ps)) as [-> | Hne].
    + rewrite Hidx. apply list_lookup_insert_eq.
      rewrite (inv_table_len _ _ _ _ _ Hs). lia.
    + rewrite list_lookup_insert_ne by lia.
      apply (inv_table _ _ _ _ _ Hs). exact Hi.
  - apply NoDup_app. split; [apply (inv_nodup _ _ _ _ _ Hs) |].
    split; [| apply NoDup_singleton].
    intros q Hq Hq'. apply list_elem_of_singleton in Hq'. subst q. auto.
  - intros q Hq. apply elem_of_app.
    destruct (decide (q = p)) as [-> | Hne].
    + right. apply list_elem_of_singleton. reflexivity.
    + left. rewrite lookup_insert_ne in Hq by auto.
      apply (inv_dom _ _ _ _ _ Hs). exact Hq.
  - intros i q Hq. rewrite lookup_snoc in Hq.
    destruct (decide (i = length ps)) as [-> | Hne].
    + injection Hq as <-. exists (Node_new LENGTH Elem).
      split; [apply lookup_insert_eq |]. simpl.
      split; [apply length_replicate |].
      intros j Hj. rewrite lookup_replicate_2 by exact Hj.
      rewrite lookup_ge_None_2; [reflexivity |].
      rewrite <- Hidx. nia.
    + assert (q <> p).
      { intros ->. apply Hnotin. apply list_elem_of_lookup. eauto. }
      rewrite lookup_insert_ne by auto.
      apply (inv_cells _ _ _ _ _ Hs). exact Hq.
Qed.

(** The reserved slot of a published segment is written. *)
Lemma write_slot es ps a (h l : nat) p (e : Elem) :
  segments_inv LENGTH max es ps a ->
  ps !! h = Some p ->
  length es = (h * Z.to_nat LENGTH + l)%nat -> (l < Z.to_nat LENGTH)%nat ->
  exists cell cell',
    deref Elem (Some p) a = Ok cell /\
    Node_set Elem cell (Z.of_nat l) e = Ok cell' /\
    segments_inv LENGTH max (es ++ [e]) ps
      (set_c_heap Elem (<[p := cell']> (c_heap a)) a).
Proof.
  intros Hs Hp Hlen Hl.
  destruct (inv_cells _ _ _ _ _ Hs h p Hp) as (cell & Hcell & Hclen & Hslots).
  exists cell. unfold deref, Node_set. rewrite Hcell, Hclen, Nat2Z.id.
  destruct (Nat.ltb_spec l (Z.to_nat LENGTH)) as [_ | ?]; [| lia].
  eexists. split; [reflexivity |]. split; [reflexivity |].
  split; simpl.
  - apply (inv_table_len _ _ _ _ _ Hs).
  - apply (inv_table _ _ _ _ _ Hs).
  - apply (inv_nodup _ _ _ _ _ Hs).
  - intros q Hq. destruct (decide (q = p)) as [-> | Hne].
    + apply list_elem_of_lookup. eauto.
    + rewrite lookup_insert_ne in Hq by auto.
      apply (inv_dom _ _ _ _ _ Hs). exact Hq.
  - intros i q Hq. destruct (decide (i = h)) as [-> | Hne].
    + assert (q = p) by congruence. subst q.
      eexists. split; [apply lookup_insert_eq |]. simpl.
      split; [rewrite length_insert; exact Hclen |].
      intros j Hj. rewrite lookup_snoc.
      destruct (decide (j = l)) as [-> | Hjl].
      * rewrite list_lookup_insert_eq by lia.
        destruct (decide _) as [_ | ?]; [reflexivity | lia].
      * rewrite list_lookup_insert_ne by auto.
        destruct (decide _) as [? | _]; [lia |]. apply Hslots. exact Hj.
    + assert (q <> p).
      { intros ->. apply Hne.
        apply (NoDup_lookup ps i h p (inv_nodup _ _ _ _ _ Hs) Hq Hp). }
      rewrite lookup_insert_ne by auto.
      destruct (inv_cells _ _ _ _ _ Hs i q Hq) as (node & Hn & Hnl & Hns).
      exists node. split; [exact Hn |]. split; [exact Hnl |].
      intros j Hj. rewrite lookup_snoc.
      destruct (decide _) as [E | _]; [| apply Hns; exact Hj].
      exfalso. rewrite Hlen in E. nia.
Qed.

(** One [add] on a log that is not full. *)
Lemma add_step es ps a (e : Elem) :
  log_inv LENGTH max es ps a -> Zlen es < max * LENGTH ->
  exists a' ps',
    add ASSERT LENGTH e a = Ok a' /\
    log_inv LENGTH max (es ++ [e]) ps' a' /\
    next ASSERT LENGTH (_cur_pos a) = Ok (_cur_pos a') /\
    _cur_pos a < _cur_pos a' /\
    (Zlen es mod LENGTH = 0 ->
       _nodes a !! Z.to_nat (Zlen es / LENGTH) = Some None /\
       exists p, _nodes a' = <[Z.to_nat (Zlen es / LENGTH) := Some p]> (_nodes a)) /\
    (Zlen es mod LENGTH <> 0 -> _nodes a' = _nodes a).
Proof.
  intros Hinv Hcap.
  pose proof (inv_segments _ _ _ _ _ Hinv) as Hs.
  set (M := Zlen es) in *.
  assert (HM : 0 <= M) by (unfold M, Zlen; lia).
  set (hi := M / LENGTH). set (lo := M mod LENGTH).
  assert (Hlo : 0 <= lo < LENGTH) by (apply Z.mod_pos_bound; lia).
  assert (Hhi : 0 <= hi < max).
  { split; [apply Z.div_pos; lia | apply position_bound; lia]. }
  assert (HM' : Zlen (es ++ [e]) = M + 1).
  { unfold M, Zlen. rewrite length_app. simpl. lia. }
  pose proof (position_split LENGTH M ltac:(lia) HM) as Hsplit.
  fold hi lo in Hsplit. unfold M, Zlen in Hsplit. rewrite Nat2Z.id in Hsplit.
  (* the reservation *)
  rewrite add_unfold. rewrite (inv_cur _ _ _ _ _ Hinv). fold M hi lo.
  rewrite (next_pack ASSERT LENGTH ltac:(lia) hi lo) by lia. simpl.
  set (next_pos := if lo + 1 =? LENGTH then pack (hi + 1) 0 else pack hi (lo + 1)).
  assert (Hnext : next_pos = pack ((M + 1) / LENGTH) ((M + 1) mod LENGTH)).
  { unfold next_pos. destruct (lo + 1 =? LENGTH) eqn:E.
    - apply Z.eqb_eq in E.
      destruct (succ_position_wrap LENGTH M ltac:(lia) HM E) as [-> ->].
      reflexivity.
    - apply Z.eqb_neq in E.
      destruct (succ_position_same LENGTH M ltac:(lia) HM E) as [-> ->].
      reflexivity. }
  assert (Hgrow : pack hi lo < next_pos).
  { unfold next_pos, pack. destruct (lo + 1 =? LENGTH) eqn:E; [| lia].
    apply Z.eqb_eq in E. lia. }
  unfold add_reserved.
  rewrite node_index_pack by lia.
  rewrite (elem_index_pack ASSERT LENGTH ltac:(lia) hi lo) by lia. cbn [bind].
  (* the segment is there once the first branch is through *)
  assert (Hpub : exists a1 ps',
    (if lo =? 0
     then (let '(p, a') := create_node LENGTH Elem (set_cur_pos Elem next_pos a) in
           store_node Elem hi (Some p) a')
     else Ok (set_cur_pos Elem next_pos a)) = Ok a1 /\
    segments_inv LENGTH max es ps' a1 /\
    _max_nodes_length a1 = max /\ _cur_pos a1 = next_pos /\
    _elements_num a1 = M mod 2 ^ 32 /\
    Zlen ps' = hi + 1 /\
    (lo = 0 -> _nodes a !! Z.to_nat hi = Some None /\
       exists p, _nodes a1 = <[Z.to_nat hi := Some p]> (_nodes a)) /\
    (lo <> 0 -> _nodes a1 = _nodes a)).
  { assert (Hs1 : segments_inv LENGTH max es ps (set_cur_pos Elem next_pos a)).
    { destruct Hs. split; assumption. }
    destruct (lo =? 0) eqn:E.
    - apply Z.eqb_eq in E.
      assert (Hlen : Zlen ps = hi).
      { rewrite (inv_ps_len _ _ _ _ _ Hinv). fold M.
        apply segments_for_full; [lia | exact HM | exact E]. }
      assert (Hfull : Zlen es = hi * LENGTH).
      { fold M. unfold hi. pose proof (Z.div_mod M LENGTH ltac:(lia)).
        fold lo in H. lia. }
      destruct (publish_segment es ps _ hi Hs1 Hlen Hfull ltac:(lia))
        as (p & a1 & E1 & Hs' & Hm & Hc & Hn & Hnull & Htab).
      exists a1, (ps ++ [p]). split; [exact E1 |]. split; [exact Hs' |].
      simpl in *. rewrite Hm, Hc, Hn.
      split; [apply (inv_max _ _ _ _ _ Hinv) |]. split; [reflexivity |].
      split; [apply (inv_num _ _ _ _ _ Hinv) |].
      split. { unfold Zlen in *. rewrite length_app. simpl. lia. }
      split; [| intros; lia]. intros _. split; [exact Hnull | eauto].
    - apply Z.eqb_neq in E.
      exists (set_cur_pos Elem next_pos a), ps. split; [reflexivity |].
      split; [exact Hs1 |]. simpl.
      split; [apply (inv_max _ _ _ _ _ Hinv) |]. split; [reflexivity |].
      split; [apply (inv_num _ _ _ _ _ Hinv) |].
      split. { rewrite (inv_ps_len _ _ _ _ _ Hinv). fold M.
               apply segments_for_partial; [lia | exact HM | exact E]. }
      split; [intros; lia | reflexivity]. }
  destruct Hpub as (a1 & ps' & -> & Hs' & Hm1 & Hc1 & Hn1 & Hlen' & Hzero & Hnonzero).
  cbn [bind].
  rewrite (load_node_inv es ps' a1 hi Hs') by lia.
  destruct (ps' !! Z.to_nat hi) as [p |] eqn:Hp.
  2:{ apply lookup_ge_None_1 in Hp. unfold Zlen in Hlen'. lia. }
  cbn [bind].
  destruct (write_slot es ps' a1 (Z.to_nat hi) (Z.to_nat lo) p e Hs' Hp
              ltac:(lia) ltac:(lia)) as (cell & cell' & Hd & Hset & Hs'').
  rewrite Hd. cbn [bind]. rewrite Z2Nat.id in Hset by lia. rewrite Hset.
  cbn [bind].
  eexists. exists ps'. split; [reflexivity |].
  split.
  { split; simpl.
    - exact Hm1.
    - rewrite HM'. rewrite Hc1. exact Hnext.
    - rewrite HM', Hn1. unfold uint32. apply Z.add_mod_idemp_l. lia.
    - rewrite HM', Hlen'. fold M in Hcap.
      destruct (Z.eq_dec (lo + 1) LENGTH) as [E | E].
      + destruct (succ_position_wrap LENGTH M ltac:(lia) HM E) as [Hd' Hm'].
        rewrite segments_for_full by lia. fold hi in Hd'. lia.
      + destruct (succ_position_same LENGTH M ltac:(lia) HM E) as [Hd' Hm'].
        rewrite segments_for_partial by (fold lo in Hm'; lia).
        fold hi in Hd'. lia.
    - destruct Hs''. split; assumption. }
  simpl. rewrite Hc1.
  split; [reflexivity |]. split; [exact Hgrow |].
  split; [exact Hzero | exact Hnonzero].
Qed.

(** On a full log the next [add] stores past the table (or, at the last
    representable segment index of a debug build, stops in [next]). *)
Lemma add_full es ps a (e : Elem) :
  log_inv LENGTH max es ps a -> Zlen es = max * LENGTH ->
  exists f, add ASSERT LENGTH e a = Fault f.
Proof.
  intros Hinv Hfull.
  pose proof (inv_segments _ _ _ _ _ Hinv) as Hs.
  rewrite add_unfold, (inv_cur _ _ _ _ _ Hinv), Hfull.
  rewrite Z.div_mul, Z.mod_mul by lia.
  destruct (next ASSERT LENGTH (pack max 0)) as [np | f]; [| eauto].
  cbn [bind]. unfold add_reserved.
  rewrite node_index_pack by lia.
  rewrite (elem_index_pack ASSERT LENGTH ltac:(lia) max 0) by lia.
  cbn [bind]. rewrite Z.eqb_refl.
  unfold create_node, store_node. cbn [_nodes set_c_heap set_cur_pos].
  rewrite (inv_table_len _ _ _ _ _ Hs), Nat.ltb_irrefl.
  cbn [bind]. eauto.
Qed.

Lemma add_all_app (es1 es2 : list Elem) a :
  add_all ASSERT LENGTH (es1 ++ es2) a =
  let! a' := add_all ASSERT LENGTH es1 a in add_all ASSERT LENGTH es2 a'.
Proof.
  revert a. induction es1 as [| e es1 IH]; intros a; simpl; [reflexivity |].
  destruct (add ASSERT LENGTH e a); simpl; [apply IH | reflexivity].
Qed.

(** A run of [add]s that fits the capacity completes. *)
Lemma add_all_inv es' : forall es ps a,
  log_inv LENGTH max es ps a -> Zlen es + Zlen es' <= max * LENGTH ->
  exists a' ps',
    add_all ASSERT LENGTH es' a = Ok a' /\ log_inv LENGTH max (es ++ es') ps' a'.
Proof.
  induction es' as [| e es' IH]; intros es ps a Hinv Hcap.
  - exists a, ps. rewrite app_nil_r. split; [reflexivity | exact Hinv].
  - unfold Zlen in Hcap. simpl in Hcap.
    destruct (add_step es ps a e Hinv ltac:(unfold Zlen; lia))
      as (a1 & ps1 & E1 & Hinv1 & _).
    simpl. rewrite E1. cbn [bind].
    destruct (IH (es ++ [e]) ps1 a1 Hinv1) as (a' & ps' & E' & Hinv').
    { unfold Zlen. rewrite length_app. simpl. lia. }
    exists a', ps'. split; [exact E' |].
    rewrite <- app_assoc in Hinv'. exact Hinv'.
Qed.

Lemma add_all_new es :
  Zlen es <= max * LENGTH ->
  exists a ps,
    add_all ASSERT LENGTH es (Array_new max) = Ok a /\ log_inv LENGTH max es ps a.
Proof.
  intros Hcap.
  apply (add_all_inv es [] [] (Array_new max) inv_new).
  unfold Zlen in *. simpl. lia.
Qed.

(** *** Traversal *)

Lemma segment_published es ps (i j : Z) :
  Zlen ps = segments_for LENGTH (Zlen es) ->
  0 <= i -> 0 <= j -> i * LENGTH + j < Zlen es ->
  exists p, ps !! Z.to_nat i = Some p.
Proof.
  intros Hlen Hi Hj Hk.
  apply lookup_lt_is_Some_2.
  assert (i + 1 <= segments_for LENGTH (Zlen es)).
  { unfold segments_for. apply Z.div_le_lower_bound; lia. }
  unfold Zlen in *. lia.
Qed.

Lemma fold_left_take_succ {V : Type} (f : V -> Elem -> V) es (k : nat) e v :
  es !! k = Some e ->
  fold_left f (take (S k) es) v = f (fold_left f (take k es) v) e.
Proof.
  intros He. rewrite (take_S_r es k e He), fold_left_app. reflexivity.
Qed.

(** The inner loop: slots [0 .. l-1] of segment [i]. *)
Lemma iterate_segment {V : Type} (visit : Elem -> V -> V) es ps a (i l : Z) (v0 : V) :
  segments_inv LENGTH max es ps a ->
  Zlen ps = segments_for LENGTH (Zlen es) ->
  0 <= i -> 0 <= l <= LENGTH -> i * LENGTH + l <= Zlen es ->
  for_below l (fun j '(v, total) =>
      let! cell := deref Elem (ps !! Z.to_nat i) a in
      let! e := Node_get Elem cell j in
      Ok (visit e v, uint32 (total + 1)))
    (fold_left (fun v e => visit e v) (take (Z.to_nat (i * LENGTH)) es) v0,
     uint32 (i * LENGTH))
  = Ok (fold_left (fun v e => visit e v) (take (Z.to_nat (i * LENGTH + l)) es) v0,
        uint32 (i * LENGTH + l)).
Proof.
  intros Hs Hlen Hi Hl Hk. unfold for_below.
  match goal with |- for_each _ ?body ?init = _ =>
    destruct (for_each_invariant
      (fun j st => st = (fold_left (fun v e => visit e v)
                           (take (Z.to_nat (i * LENGTH + j)) es) v0,
                         uint32 (i * LENGTH + j))) body l init) as (s' & E & ->)
  end.
  - lia.
  - rewrite Z.add_0_r. reflexivity.
  - intros j s Hj ->.
    destruct (segment_published es ps i j Hlen Hi ltac:(lia) ltac:(lia)) as [p Hp].
    destruct (inv_cells _ _ _ _ _ Hs _ p Hp) as (cell & Hcell & Hclen & Hslots).
    assert (He : is_Some (es !! Z.to_nat (i * LENGTH + j))).
    { apply lookup_lt_is_Some_2. unfold Zlen in Hk. lia. }
    destruct He as [e He].
    rewrite Hp. unfold deref. rewrite Hcell. cbn [bind].
    unfold Node_get. rewrite (Hslots (Z.to_nat j)) by lia.
    replace (Z.to_nat i * Z.to_nat LENGTH + Z.to_nat j)%nat
      with (Z.to_nat (i * LENGTH + j)).
    2:{ rewrite Z2Nat.inj_add, Z2Nat.inj_mul by lia. reflexivity. }
    rewrite He. cbn [bind]. eexists. split; [reflexivity |].
    f_equal.
    + replace (Z.to_nat (i * LENGTH + (j + 1)))
        with (S (Z.to_nat (i * LENGTH + j))) by lia.
      symmetry.
      apply (fold_left_take_succ (fun v e => visit e v) es _ e v0 He).
    + unfold uint32. rewrite Z.add_mod_idemp_l by lia. f_equal. lia.
  - exact E.
Qed.

(** What has been shown to the visitor when the outer loop is at segment
    [i]: the first [visited_before i] elements. *)
Lemma iterate_outer_step {V : Type} (visit : Elem -> V -> V) es ps a (i : Z) (v0 : V) :
  log_inv LENGTH max es ps a ->
  0 <= i <= Zlen es / LENGTH -> i < max ->
  let hi := Zlen es / LENGTH in
  let lo := Zlen es mod LENGTH in
  let limit := if i =? hi then lo else LENGTH in
  (let! node := load_node Elem i a in
   for_below limit (fun j '(v, total) =>
      let! cell := deref Elem node a in
      let! e := Node_get Elem cell j in
      Ok (visit e v, uint32 (total + 1)))
    (fold_left (fun v e => visit e v) (take (Z.to_nat (i * LENGTH)) es) v0,
     uint32 (i * LENGTH)))
  = Ok (fold_left (fun v e => visit e v)
          (take (Z.to_nat (i * LENGTH + limit)) es) v0,
        uint32 (i * LENGTH + limit)).
Proof.
  intros Hinv Hi Hmax hi lo limit.
  pose proof (inv_segments _ _ _ _ _ Hinv) as Hs.
  assert (HM : 0 <= Zlen es) by (unfold Zlen; lia).
  pose proof (Z.div_mod (Zlen es) LENGTH ltac:(lia)) as D.
  pose proof (Z.mod_pos_bound (Zlen es) LENGTH ltac:(lia)) as B.
  fold hi lo in D, B, Hi.
  rewrite (load_node_inv es ps a i Hs) by lia. cbn [bind].
  apply iterate_segment; try assumption; try lia.
  - apply (inv_ps_len _ _ _ _ _ Hinv).
  - unfold limit. destruct (i =? hi); lia.
  - unfold limit. destruct (i =? hi) eqn:E.
    + apply Z.eqb_eq in E. subst i. lia.
    + apply Z.eqb_neq in E. nia.
Qed.

Lemma inv_cursor_range es ps a :
  log_inv LENGTH max es ps a -> Zlen es <= max * LENGTH ->
  0 <= Zlen es / LENGTH <= max /\ 0 <= Zlen es mod LENGTH < LENGTH /\
  0 <= _cur_pos a < 2 ^ 64.
Proof.
  intros Hinv Hcap.
  assert (HM : 0 <= Zlen es) by (unfold Zlen; lia).
  assert (H1 : 0 <= Zlen es / LENGTH <= max).
  { split; [apply Z.div_pos; lia |]. apply Z.div_le_upper_bound; lia. }
  pose proof (Z.mod_pos_bound (Zlen es) LENGTH ltac:(lia)) as H2.
  split; [exact H1 |]. split; [exact H2 |].
  rewrite (inv_cur _ _ _ _ _ Hinv). apply pack_range; lia.
Qed.

(** The outer loop of [iterate_elements] up to (not including) segment [n]. *)
Lemma iterate_outer {V : Type} (visit : Elem -> V -> V) es ps a (n : Z) (v0 : V) :
  log_inv LENGTH max es ps a ->
  0 <= n <= Zlen es / LENGTH + 1 -> n <= max ->
  let hi := Zlen es / LENGTH in
  let lo := Zlen es mod LENGTH in
  for_each (seqZ 0 n) (fun i '(v, total) =>
      let limit := if i =? hi then lo else LENGTH in
      let! node := load_node Elem i a in
      for_below limit (fun j '(v, total) =>
        let! cell := deref Elem node a in
        let! e := Node_get Elem cell j in
        Ok (visit e v, uint32 (total + 1))) (v, total)) (v0, 0)
  = Ok (fold_left (fun v e => visit e v)
          (take (Z.to_nat (Z.min (n * LENGTH) (Zlen es))) es) v0,
        uint32 (Z.min (n * LENGTH) (Zlen es))).
Proof.
  intros Hinv Hn Hmax hi lo.
  assert (HM : 0 <= Zlen es) by (unfold Zlen; lia).
  pose proof (Z.div_mod (Zlen es) LENGTH ltac:(lia)) as D.
  pose proof (Z.mod_pos_bound (Zlen es) LENGTH ltac:(lia)) as B.
  fold hi lo in D, B, Hn.
  match goal with |- for_each _ ?body ?init = _ =>
    destruct (for_each_invariant
      (fun i st => st = (fold_left (fun v e => visit e v)
                           (take (Z.to_nat (Z.min (i * LENGTH) (Zlen es))) es) v0,
                         uint32 (Z.min (i * LENGTH) (Zlen es)))) body n init)
      as (s' & E & ->)
  end.
  - lia.
  - rewrite Z.min_l by lia. reflexivity.
  - intros i st Hi ->.
    rewrite (Z.min_l (i * LENGTH)) by nia.
    eexists. split.
    + apply (iterate_outer_step visit es ps a i v0 Hinv); [fold hi; lia | lia].
    + fold hi lo.
      replace (Z.min ((i + 1) * LENGTH) (Zlen es))
        with (i * LENGTH + (if i =? hi then lo else LENGTH)); [reflexivity |].
      destruct (i =? hi) eqn:Ei.
      * apply Z.eqb_eq in Ei. subst i. lia.
      * apply Z.eqb_neq in Ei. rewrite Z.min_l by nia. lia.
  - exact E.
Qed.

(** [iterate_elements] on a log that is not full shows the visitor every
    element once, in the order of insertion. *)
Lemma iterate_elements_inv {V : Type} (visit : Elem -> V -> V) es ps a (v0 : V) :
  log_inv LENGTH max es ps a -> Zlen es < max * LENGTH ->
  iterate_elements ASSERT LENGTH visit v0 a
  = Ok (fold_left (fun v e => visit e v) es v0).
Proof.
  intros Hinv Hcap.
  destruct (inv_cursor_range es ps a Hinv ltac:(lia)) as (Hhi & Hlo & Hcur).
  assert (Hlt : Zlen es / LENGTH < max).
  { apply position_bound; [lia | unfold Zlen; lia | exact Hcap]. }
  pose proof (Z.div_mod (Zlen es) LENGTH ltac:(lia)) as D.
  unfold iterate_elements.
  rewrite int64_uint64 by exact Hcur.
  rewrite (inv_cur _ _ _ _ _ Hinv).
  rewrite node_index_pack by lia.
  rewrite (elem_index_pack ASSERT LENGTH ltac:(lia)) by lia. cbn [bind].
  unfold for_upto.
  pose proof (iterate_outer visit es ps a (Zlen es / LENGTH + 1) v0 Hinv
                ltac:(lia) ltac:(lia)) as Houter.
  cbv zeta in Houter |- *. rewrite Houter. cbn [bind].
  rewrite Z.min_r by nia.
  rewrite (inv_num _ _ _ _ _ Hinv).
  unfold uint32. rewrite assert_true by apply Z.eqb_refl. cbn [bind].
  unfold Zlen. rewrite Nat2Z.id, firstn_all. reflexivity.
Qed.

(** On a full log the traversal reads the table one entry past its end. *)
Lemma iterate_elements_full {V : Type} (visit : Elem -> V -> V) es ps a (v0 : V) :
  log_inv LENGTH max es ps a -> Zlen es = max * LENGTH ->
  iterate_elements ASSERT LENGTH visit v0 a = Fault (TableOutOfBounds max).
Proof.
  intros Hinv Hfull.
  pose proof (inv_segments _ _ _ _ _ Hinv) as Hs.
  destruct (inv_cursor_range es ps a Hinv ltac:(lia)) as (Hhi & Hlo & Hcur).
  assert (Hd : Zlen es / LENGTH = max) by (rewrite Hfull; apply Z.div_mul; lia).
  assert (Hm : Zlen es mod LENGTH = 0) by (rewrite Hfull; apply Z.mod_mul; lia).
  unfold iterate_elements.
  rewrite int64_uint64 by exact Hcur.
  rewrite (inv_cur _ _ _ _ _ Hinv).
  rewrite node_index_pack by lia.
  rewrite (elem_index_pack ASSERT LENGTH ltac:(lia)) by lia. cbn [bind].
  unfold for_upto.
  replace (Zlen es / LENGTH + 1) with (max + 1) by lia.
  rewrite seqZ_app by lia. rewrite for_each_app.
  pose proof (iterate_outer visit es ps a max v0 Hinv
                ltac:(lia) ltac:(lia)) as Houter.
  cbv zeta in Houter |- *. rewrite Houter. cbn [bind].
  rewrite seqZ_cons by lia. cbn [for_each bind]. rewrite Z.add_0_l.
  rewrite (load_node_outside es ps a max Hs) by lia. reflexivity.
Qed.

(** *** Reset *)

Lemma reset_inv_start es ps a :
  segments_inv LENGTH max es ps a -> reset_inv max ps a 0 a.
Proof.
  intros Hs. split; try reflexivity.
  - apply (inv_table_len _ _ _ _ _ Hs).
  - intros i Hi. simpl. apply (inv_table _ _ _ _ _ Hs). exact Hi.
  - intros p. simpl. split.
    + apply (inv_dom _ _ _ _ _ Hs).
    + apply (inv_live es ps a p Hs).
Qed.

Lemma reset_step ps a0 (k : Z) a :
  NoDup ps -> reset_inv max ps a0 k a ->
  0 <= k < max -> k < Zlen ps ->
  exists a',
    (let! node := load_node Elem k a in
     let! a1 := free_node Elem node a in
     store_node Elem k None a1) = Ok a' /\
    reset_inv max ps a0 (k + 1) a'.
Proof.
  intros Hnd Hr Hk Hlen. unfold Zlen in Hlen.
  destruct (lookup_lt_is_Some_2 ps (Z.to_nat k) ltac:(lia)) as [p Hp].
  pose proof (drop_S ps p (Z.to_nat k) Hp) as Hdrop.
  unfold load_node. rewrite (rinv_table _ _ _ _ _ Hr) by lia.
  rewrite Nat.ltb_irrefl, Hp. cbn [bind].
  assert (Hlive : is_Some (c_heap a !! p)).
  { apply (rinv_heap _ _ _ _ _ Hr). rewrite Hdrop. apply list_elem_of_here. }
  destruct Hlive as [cell Hcell].
  unfold free_node, deref. rewrite Hcell. cbn [bind].
  unfold store_node. cbn [_nodes set_c_heap].
  rewrite (rinv_table_len _ _ _ _ _ Hr).
  destruct (Nat.ltb_spec (Z.to_nat k) (Z.to_nat max)) as [_ | ?]; [| lia].
  eexists. split; [reflexivity |].
  split; simpl.
  - apply (rinv_max _ _ _ _ _ Hr).
  - apply (rinv_cur _ _ _ _ _ Hr).
  - apply (rinv_num _ _ _ _ _ Hr).
  - rewrite length_insert. apply (rinv_table_len _ _ _ _ _ Hr).
  - intros i Hi. destruct (decide (i = Z.to_nat k)) as [-> | Hne].
    + rewrite list_lookup_insert_eq
        by (rewrite (rinv_table_len _ _ _ _ _ Hr); lia).
      destruct (Nat.ltb_spec (Z.to_nat k) (Z.to_nat (k + 1))); [reflexivity | lia].
    + rewrite list_lookup_insert_ne by auto.
      rewrite (rinv_table _ _ _ _ _ Hr) by exact Hi.
      destruct (Nat.ltb_spec i (Z.to_nat k)),
               (Nat.ltb_spec i (Z.to_nat (k + 1))); try reflexivity; lia.
  - intros q. replace (Z.to_nat (k + 1)) with (S (Z.to_nat k)) by lia.
    assert (Hnotin : p ∉ drop (S (Z.to_nat k)) ps).
    { assert (Hnd' : NoDup (drop (Z.to_nat k) ps)).
      { rewrite <- (take_drop (Z.to_nat k) ps) in Hnd.
        apply NoDup_app in Hnd as (_ & _ & H). exact H. }
      rewrite Hdrop in Hnd'. apply NoDup_cons in Hnd' as [H _]. exact H. }
    destruct (decide (q = p)) as [-> | Hne].
    + rewrite lookup_delete_eq. split; [intros [x Hx]; discriminate | tauto].
    + rewrite lookup_delete_ne by auto.
      rewrite (rinv_heap _ _ _ _ _ Hr q), Hdrop.
      rewrite elem_of_cons. tauto.
Qed.

(** The loop of [reset] over the entries [0 .. n-1], all of them published. *)
Lemma reset_loop es ps a (n : Z) :
  segments_inv LENGTH max es ps a ->
  0 <= n <= max -> n <= Zlen ps ->
  exists a',
    for_each (seqZ 0 n) (fun hi a =>
      let! node := load_node Elem hi a in
      let! a := free_node Elem node a in
      store_node Elem hi None a) a = Ok a' /\
    reset_inv max ps a n a'.
Proof.
  intros Hs Hn Hlen.
  apply (for_each_invariant (fun k a' => reset_inv max ps a k a')).
  - lia.
  - apply (reset_inv_start es). exact Hs.
  - intros k a' Hk Hr.
    apply (reset_step ps a k a' (inv_nodup _ _ _ _ _ Hs) Hr); lia.
Qed.

Lemma reset_unfold es ps a :
  log_inv LENGTH max es ps a -> Zlen es <= max * LENGTH ->
  reset a =
  let! a' := for_each (seqZ 0 (Zlen es / LENGTH + 1)) (fun hi a =>
      let! node := load_node Elem hi a in
      let! a := free_node Elem node a in
      store_node Elem hi None a) a in
  Ok (set_cur_pos Elem 0 (set_elements_num Elem 0 a')).
Proof.
  intros Hinv Hcap.
  destruct (inv_cursor_range es ps a Hinv Hcap) as (Hhi & Hlo & Hcur).
  unfold reset, for_upto.
  rewrite int64_uint64 by exact Hcur.
  rewrite (inv_cur _ _ _ _ _ Hinv), node_index_pack by lia. reflexivity.
Qed.

(** With the last segment in use, [reset] releases every segment and
    leaves the log as the constructor makes it. *)
Lemma reset_partial es ps a :
  log_inv LENGTH max es ps a -> Zlen es <= max * LENGTH ->
  Zlen es mod LENGTH <> 0 ->
  reset a = Ok (Array_new max).
Proof.
  intros Hinv Hcap Hmod.
  pose proof (inv_segments _ _ _ _ _ Hinv) as Hs.
  destruct (inv_cursor_range es ps a Hinv Hcap) as (Hhi & Hlo & Hcur).
  assert (HM : 0 <= Zlen es) by (unfold Zlen; lia).
  assert (Hlen : Zlen ps = Zlen es / LENGTH + 1).
  { rewrite (inv_ps_len _ _ _ _ _ Hinv). apply segments_for_partial; lia. }
  assert (Hlt : Zlen es / LENGTH < max).
  { apply position_bound; [lia | lia |].
    destruct (Z.eq_dec (Zlen es) (max * LENGTH)) as [E | E]; [| lia].
    rewrite E, Z.mod_mul in Hmod by lia. lia. }
  rewrite (reset_unfold es ps a Hinv Hcap).
  destruct (reset_loop es ps a (Zlen es / LENGTH + 1) Hs ltac:(lia) ltac:(lia))
    as (a' & -> & Hr).
  cbn [bind]. f_equal.
  destruct a' as [m c t n h]. destruct Hr as [Hm _ _ Htl Ht Hh].
  simpl in *. unfold Array_new, set_cur_pos, set_elements_num. simpl.
  f_equal.
  - rewrite Hm. apply (inv_max _ _ _ _ _ Hinv).
  - apply list_eq. intros i.
    destruct (Nat.lt_ge_cases i (Z.to_nat max)) as [Hi | Hi].
    + rewrite Ht by exact Hi. rewrite lookup_replicate_2 by exact Hi.
      destruct (Nat.ltb_spec i (Z.to_nat (Zlen es / LENGTH + 1))); [reflexivity |].
      rewrite lookup_ge_None_2; [reflexivity |]. unfold Zlen in *. lia.
    + rewrite lookup_ge_None_2 by lia.
      rewrite lookup_ge_None_2; [reflexivity |]. rewrite length_replicate. lia.
  - apply map_empty. intros p. apply eq_None_not_Some. rewrite Hh.
    rewrite drop_ge by (unfold Zlen in *; lia). apply not_elem_of_nil.
Qed.

(** With the last segment full (or none in use), [reset] passes the NULL
    entry after it to [free_node]. *)
Lemma reset_null es ps a :
  log_inv LENGTH max es ps a -> Zlen es < max * LENGTH ->
  Zlen es mod LENGTH = 0 ->
  reset a = Fault NullDereference.
Proof.
  intros Hinv Hcap Hmod.
  pose proof (inv_segments _ _ _ _ _ Hinv) as Hs.
  destruct (inv_cursor_range es ps a Hinv ltac:(lia)) as (Hhi & Hlo & Hcur).
  assert (HM : 0 <= Zlen es) by (unfold Zlen; lia).
  assert (Hlen : Zlen ps = Zlen es / LENGTH).
  { rewrite (inv_ps_len _ _ _ _ _ Hinv). apply segments_for_full; lia. }
  assert (Hlt : Zlen es / LENGTH < max).
  { apply position_bound; [lia | lia | exact Hcap]. }
  rewrite (reset_unfold es ps a Hinv ltac:(lia)).
  rewrite seqZ_app by lia. rewrite for_each_app.
  destruct (reset_loop es ps a (Zlen es / LENGTH) Hs ltac:(lia) ltac:(lia))
    as (a' & -> & Hr).
  cbn [bind]. rewrite seqZ_cons by lia. cbn [for_each bind]. rewrite Z.add_0_l.
  unfold load_node. rewrite (rinv_table _ _ _ _ _ Hr) by lia.
  rewrite Nat.ltb_irrefl.
  rewrite (lookup_ge_None_2 ps) by (unfold Zlen in *; lia).
  reflexivity.
Qed.

(** On a full log [reset] reads the table one entry past its end. *)
Lemma reset_full es ps a :
  log_inv LENGTH max es ps a -> Zlen es = max * LENGTH ->
  reset a = Fault (TableOutOfBounds max).
Proof.
  intros Hinv Hfull.
  pose proof (inv_segments _ _ _ _ _ Hinv) as Hs.
  assert (Hd : Zlen es / LENGTH = max) by (rewrite Hfull; apply Z.div_mul; lia).
  assert (Hm : Zlen es mod LENGTH = 0) by (rewrite Hfull; apply Z.mod_mul; lia).
  assert (HM : 0 <= Zlen es) by (unfold Zlen; lia).
  assert (Hlen : Zlen ps = max).
  { rewrite (inv_ps_len _ _ _ _ _ Hinv), segments_for_full; lia. }
  rewrite (reset_unfold es ps a Hinv ltac:(lia)). rewrite Hd.
  rewrite seqZ_app by lia. rewrite for_each_app.
  destruct (reset_loop es ps a max Hs ltac:(lia) ltac:(lia)) as (a' & -> & Hr).
  cbn [bind]. rewrite seqZ_cons by lia. cbn [for_each bind]. rewrite Z.add_0_l.
  unfold load_node. rewrite lookup_ge_None_2; [reflexivity |].
  rewrite (rinv_table_len _ _ _ _ _ Hr). lia.
Qed.

(** *** Reachable states *)

Lemma run_operation_inv (op : operation Elem) es ps a a' :
  log_inv LENGTH max es ps a -> Zlen es <= max * LENGTH ->
  run_operation ASSERT LENGTH op a = Ok a' ->
  exists es' ps', log_inv LENGTH max es' ps' a' /\ Zlen es' <= max * LENGTH.
Proof.
  intros Hinv Hcap Hrun.
  destruct op as [e | | | |]; simpl in Hrun.
  - destruct (Z.eq_dec (Zlen es) (max * LENGTH)) as [Hfull | Hroom].
    + destruct (add_full es ps a e Hinv Hfull) as [f Hf]. congruence.
    + destruct (add_step es ps a e Hinv ltac:(lia))
        as (a1 & ps1 & E1 & Hinv1 & _).
      assert (a' = a1) by congruence. subst a1.
      exists (es ++ [e]), ps1. split; [exact Hinv1 |].
      unfold Zlen in *. rewrite length_app. simpl. lia.
  - injection Hrun as <-. eauto.
  - destruct (iterate_elements _ _ _ _ a); simpl in Hrun; [| discriminate].
    injection Hrun as <-. eauto.
  - destruct (iterate_nodes _ _ _ _ a); simpl in Hrun; [| discriminate].
    injection Hrun as <-. eauto.
  - destruct (Z.eq_dec (Zlen es mod LENGTH) 0) as [Hmod | Hmod].
    + destruct (Z.eq_dec (Zlen es) (max * LENGTH)) as [Hfull | Hroom].
      * rewrite (reset_full es ps a Hinv Hfull) in Hrun. discriminate.
      * rewrite (reset_null es ps a Hinv ltac:(lia) Hmod) in Hrun. discriminate.
    + rewrite (reset_partial es ps a Hinv Hcap Hmod) in Hrun.
      injection Hrun as <-. exists [], []. split; [apply inv_new |].
      unfold Zlen. simpl. lia.
Qed.

(** Every reachable state represents some sequence of elements that fits
    the capacity. *)
Lemma reachable_inv a :
  reachable ASSERT LENGTH max a ->
  exists es ps, log_inv LENGTH max es ps a /\ Zlen es <= max * LENGTH.
Proof.
  intros [ops Hops].
  assert (G : forall ops a0 es ps,
    log_inv LENGTH max es ps a0 -> Zlen es <= max * LENGTH ->
    run_operations ASSERT LENGTH ops a0 = Ok a ->
    exists es' ps', log_inv LENGTH max es' ps' a /\ Zlen es' <= max * LENGTH).
  { clear ops Hops. induction ops as [| op ops IH]; intros a0 es ps Hinv Hcap Hrun.
    - simpl in Hrun. injection Hrun as <-. eauto.
    - simpl in Hrun.
      destruct (run_operation ASSERT LENGTH op a0) as [a1 | f] eqn:E1;
        simpl in Hrun; [| discriminate].
      destruct (run_operation_inv op es ps a0 a1 Hinv Hcap E1)
        as (es1 & ps1 & Hinv1 & Hcap1).
      apply (IH a1 es1 ps1 Hinv1 Hcap1 Hrun). }
  apply (G ops (Array_new max) [] [] inv_new); [| exact Hops].
  unfold Zlen. simpl. lia.
Qed.

(** The elements of a log are where the invariant says. *)
Lemma inv_element es ps a (k : Z) :
  log_inv LENGTH max es ps a -> Zlen es <= max * LENGTH ->
  0 <= k < Zlen es ->
  exists e p node,
    es !! Z.to_nat k = Some e /\
    _nodes a !! Z.to_nat (k / LENGTH) = Some (Some p) /\
    c_heap a !! p = Some node /\
    _oop_offsets node !! Z.to_nat (k mod LENGTH) = Some (Some e).
Proof.
  intros Hinv Hcap Hk.
  pose proof (inv_segments _ _ _ _ _ Hinv) as Hs.
  pose proof (Z.div_mod k LENGTH ltac:(lia)) as D.
  pose proof (Z.mod_pos_bound k LENGTH ltac:(lia)) as B.
  assert (Hq : 0 <= k / LENGTH) by (apply Z.div_pos; lia).
  destruct (lookup_lt_is_Some_2 es (Z.to_nat k) ltac:(unfold Zlen in Hk; lia))
    as [e He].
  destruct (segment_published es ps (k / LENGTH) (k mod LENGTH)
              (inv_ps_len _ _ _ _ _ Hinv) Hq ltac:(lia) ltac:(lia)) as [p Hp].
  destruct (inv_cells _ _ _ _ _ Hs _ p Hp) as (node & Hn & _ & Hslots).
  exists e, p, node. split; [exact He |]. split; [| split; [exact Hn |]].
  - assert (Hin : k / LENGTH < max) by (apply position_bound; lia).
    rewrite (inv_table _ _ _ _ _ Hs) by lia. rewrite Hp. reflexivity.
  - rewrite (Hslots (Z.to_nat (k mod LENGTH))) by lia.
    replace (Z.to_nat (k / LENGTH) * Z.to_nat LENGTH + Z.to_nat (k mod LENGTH))%nat
      with (Z.to_nat k).
    2:{ rewrite <- Z2Nat.inj_mul, <- Z2Nat.inj_add by lia. f_equal. lia. }
    rewrite He. reflexivity.
Qed.

End LogInvariant.

(** ** The log: insertion and replay *)

Lemma fold_left_snoc {A : Type} (l acc : list A) :
  fold_left (fun v e => v ++ [e]) l acc = acc ++ l.
Proof.
  revert acc. induction l as [| x l IH]; intros acc; simpl.
  - symmetry. apply app_nil_r.
  - rewrite IH, <- app_assoc. reflexivity.
Qed.

(** What the invariant gives for a log that is not full. *)
Lemma log_inv_holds (ASSERT : bool) (LENGTH : Z) (Elem : Type)
    (max : Z) (es : list Elem) (ps : list ptr) (a : Array Elem) :
  0 < LENGTH < 2 ^ 32 -> 0 <= max < 2 ^ 32 ->
  log_inv LENGTH max es ps a -> Zlen es < max * LENGTH ->
  log_holds ASSERT LENGTH a es.
Proof.
  intros HL Hmax Hinv Hcap.
  destruct (inv_cursor_range LENGTH Elem max HL Hmax es ps a Hinv ltac:(lia))
    as (Hhi & Hlo & Hcur).
  unfold log_holds.
  split; [apply (inv_num _ _ _ _ _ Hinv) |].
  rewrite (inv_cur _ _ _ _ _ Hinv).
  split; [apply node_index_pack; lia |].
  split; [apply elem_index_pack; lia |].
  split; [intros k Hk; apply (inv_element LENGTH Elem max HL Hmax es ps a k Hinv); lia |].
  split.
  - unfold replay.
    rewrite (iterate_elements_inv ASSERT LENGTH Elem max HL Hmax _ es ps a [] Hinv Hcap).
    rewrite fold_left_snoc. reflexivity.
  - intros V visit v.
    apply (iterate_elements_inv ASSERT LENGTH Elem max HL Hmax visit es ps a v Hinv Hcap).
Qed.

(** One thread: after the [add]s of [es], fewer than the log has slots, the
    log holds [es] in the order of insertion. *)
Lemma add_all_holds (ASSERT : bool) (LENGTH : Z) (Elem : Type)
    (max : Z) (es : list Elem) :
  0 < LENGTH < 2 ^ 32 -> 0 <= max < 2 ^ 32 ->
  Zlen es < max * LENGTH ->
  exists a,
    add_all ASSERT LENGTH es (Array_new max) = Ok a /\
    log_holds ASSERT LENGTH a es.
Proof.
  intros HL Hmax Hcap.
  destruct (add_all_new ASSERT LENGTH Elem max HL Hmax es ltac:(lia))
    as (a & ps & Hrun & Hinv).
  exists a. split; [exact Hrun |].
  apply (log_inv_holds ASSERT LENGTH Elem max es ps a HL Hmax Hinv Hcap).
Qed.

Lemma log_inv_table (LENGTH : Z) (Elem : Type)
    (max : Z) (es : list Elem) (ps : list ptr) (a : Array Elem) :
  log_inv LENGTH max es ps a ->
  table_holds a (segments_for LENGTH (Zlen es)).
Proof.
  intros Hinv i Hi. rewrite (inv_max _ _ _ _ _ Hinv) in Hi.
  pose proof (inv_segments _ _ _ _ _ Hinv) as Hs.
  rewrite (inv_table _ _ _ _ _ Hs) by lia.
  rewrite <- (inv_ps_len _ _ _ _ _ Hinv). unfold Zlen.
  destruct (Z.ltb_spec i (Z.of_nat (length ps))) as [Hlt | Hge].
  - destruct (lookup_lt_is_Some_2 ps (Z.to_nat i) ltac:(lia)) as [p Hp].
    exists p. rewrite Hp. reflexivity.
  - rewrite lookup_ge_None_2 by lia. reflexivity.
Qed.

(** One thread: a table entry goes from NULL to non-NULL only in the [add]
    that reserved slot 0 of its segment; the other [add]s leave the table
    alone. After [M] completed [add]s exactly the first [ceil(M / LENGTH)]
    entries are non-NULL. *)
Lemma table_after_add_all (ASSERT : bool) (LENGTH : Z) (Elem : Type)
    (max : Z) (es : list Elem) :
  0 < LENGTH < 2 ^ 32 -> 0 <= max < 2 ^ 32 ->
  Zlen es <= max * LENGTH ->
  exists a,
    add_all ASSERT LENGTH es (Array_new max) = Ok a /\
    table_holds a (segments_for LENGTH (Zlen es)) /\
    (forall e, Zlen es < max * LENGTH ->
       exists a',
         add ASSERT LENGTH e a = Ok a' /\
         (Zlen es mod LENGTH = 0 ->
            _nodes a !! Z.to_nat (Zlen es / LENGTH) = Some None /\
            exists p, _nodes a' = <[Z.to_nat (Zlen es / LENGTH) := Some p]> (_nodes a)) /\
         (Zlen es mod LENGTH <> 0 -> _nodes a' = _nodes a)).
Proof.
  intros HL Hmax Hcap.
  destruct (add_all_new ASSERT LENGTH Elem max HL Hmax es Hcap)
    as (a & ps & Hrun & Hinv).
  exists a. split; [exact Hrun |]. split.
  - apply (log_inv_table LENGTH Elem max es ps a Hinv).
  - intros e Hroom.
    destruct (add_step ASSERT LENGTH Elem max HL Hmax es ps a e Hinv Hroom)
      as (a' & ps' & Hadd & _ & _ & _ & Hzero & Hnonzero).
    exists a'. split; [exact Hadd |]. split; assumption.
Qed.

(** C2 as stated fails in two places. At exactly [max segments * LENGTH]
    elements the traversal reads the table entry after the last one: here
    with one segment of four slots. And the counter is a [uint]: after
    [2^32] elements (three segments of [2^31] slots) it is back at 0. *)
Lemma replay_of_full_log_and_counter_wrap :
  (exists a,
     Zlen [1; 2; 3; 4] <= 1 * 4 /\
     add_all true 4 [1; 2; 3; 4] (Array_new 1) = Ok a /\
     replay true 4 a = Fault (TableOutOfBounds 1)) /\
  (exists a,
     Zlen [1; 2; 3; 4] <= 1 * 4 /\
     add_all false 4 [1; 2; 3; 4] (Array_new 1) = Ok a /\
     replay false 4 a = Fault (TableOutOfBounds 1)) /\
  (let es := replicate (Z.to_nat (2 ^ 32)) 0 in
   exists a,
     Zlen es = 2 ^ 32 /\ Zlen es <= 3 * 2 ^ 31 /\
     add_all false (2 ^ 31) es (Array_new 3) = Ok a /\
     objs_num a = 0).
Proof.
  split; [| split].
  - eexists. split; [vm_compute; discriminate |].
    split; [vm_compute; reflexivity |]. vm_compute. reflexivity.
  - eexists. split; [vm_compute; discriminate |].
    split; [vm_compute; reflexivity |]. vm_compute. reflexivity.
  - intros es.
    assert (Hlen : Zlen es = 2 ^ 32).
    { unfold es, Zlen. rewrite length_replicate. apply Z2Nat.id. lia. }
    destruct (add_all_new false (2 ^ 31) Z 3 ltac:(lia) ltac:(lia) es)
      as (a & ps & Hrun & Hinv).
    { rewrite Hlen. lia. }
    exists a. split; [exact Hlen |]. split; [rewrite Hlen; lia |].
    split; [exact Hrun |].
    unfold objs_num. rewrite (inv_num _ _ _ _ _ Hinv), Hlen.
    apply Z.mod_same. lia.
Qed.

(** ** The log: the boundaries of [reset] and of the traversals *)

(** C6 fails on the code: [reset] of a log whose last segment is full, or
    that holds nothing at all, passes the NULL table entry at the cursor's
    segment index to [free_node], which dereferences it; so does the
    destructor. *)
Theorem reset_after_full_segment_faults (ASSERT : bool) (LENGTH : Z)
    (Elem : Type) (max : Z) (es : list Elem) :
  0 < LENGTH < 2 ^ 32 -> 0 <= max < 2 ^ 32 ->
  Zlen es < max * LENGTH -> Zlen es mod LENGTH = 0 ->
  exists a,
    add_all ASSERT LENGTH es (Array_new max) = Ok a /\
    reset a = Fault NullDereference /\
    Array_delete Elem a = Fault NullDereference.
Proof.
  intros HL Hmax Hcap Hmod.
  destruct (add_all_new ASSERT LENGTH Elem max HL Hmax es ltac:(lia))
    as (a & ps & Hrun & Hinv).
  exists a. split; [exact Hrun |].
  pose proof (reset_null LENGTH Elem max HL Hmax es ps a Hinv Hcap Hmod) as Hr.
  split; [exact Hr |]. unfold Array_delete. rewrite Hr. reflexivity.
Qed.

(** Witness of [reset_after_full_segment_faults]: a log just constructed. *)
Lemma reset_after_full_segment_faults_witness :
  exists a : Array Z,
    add_all true 256 [] (Array_new 1) = Ok a /\
    reset a = Fault NullDereference /\
    Array_delete Z a = Fault NullDereference.
Proof.
  apply (reset_after_full_segment_faults true 256 Z 1 []);
    [lia | lia | vm_compute; reflexivity | reflexivity].
Defined.

(** Where [reset] does work: with the last segment partly filled it
    releases every segment and leaves exactly the log that the constructor
    makes, so whatever follows behaves as on a fresh log. *)
Lemma reset_restores_fresh_log (ASSERT : bool) (LENGTH : Z)
    (Elem : Type) (max : Z) (es : list Elem) :
  0 < LENGTH < 2 ^ 32 -> 0 <= max < 2 ^ 32 ->
  Zlen es <= max * LENGTH -> Zlen es mod LENGTH <> 0 ->
  exists a,
    add_all ASSERT LENGTH es (Array_new max) = Ok a /\
    reset a = Ok (Array_new max) /\
    c_heap (Array_new (Elem := Elem) max) = ∅.
Proof.
  intros HL Hmax Hcap Hmod.
  destruct (add_all_new ASSERT LENGTH Elem max HL Hmax es Hcap)
    as (a & ps & Hrun & Hinv).
  exists a. split; [exact Hrun |]. split; [| reflexivity].
  apply (reset_partial LENGTH Elem max HL Hmax es ps a Hinv Hcap Hmod).
Qed.

(** C7 fails on the code: with exactly [max segments * LENGTH] elements in
    the log, a precondition the claim admits, [iterate_elements] and
    [reset] both read [_nodes[max segments]], one entry past the table. *)
Theorem full_log_reads_past_table (ASSERT : bool) (LENGTH : Z)
    (Elem : Type) (max : Z) (es : list Elem) :
  0 < LENGTH < 2 ^ 32 -> 0 <= max < 2 ^ 32 ->
  Zlen es = max * LENGTH ->
  exists a,
    add_all ASSERT LENGTH es (Array_new max) = Ok a /\
    replay ASSERT LENGTH a = Fault (TableOutOfBounds max) /\
    reset a = Fault (TableOutOfBounds max).
Proof.
  intros HL Hmax Hfull.
  destruct (add_all_new ASSERT LENGTH Elem max HL Hmax es ltac:(lia))
    as (a & ps & Hrun & Hinv).
  exists a. split; [exact Hrun |]. split.
  - apply (iterate_elements_full ASSERT LENGTH Elem max HL Hmax _ es ps a [] Hinv Hfull).
  - apply (reset_full LENGTH Elem max HL Hmax es ps a Hinv Hfull).
Qed.

(** Witness of [full_log_reads_past_table]: one segment of four slots,
    four elements. *)
Lemma full_log_reads_past_table_witness :
  exists a,
    add_all true 4 [1; 2; 3; 4] (Array_new 1) = Ok a /\
    replay true 4 a = Fault (TableOutOfBounds 1) /\
    reset a = Fault (TableOutOfBounds 1).
Proof.
  apply (full_log_reads_past_table true 4 Z 1 [1; 2; 3; 4]);
    [lia | lia | reflexivity].
Defined.

(** Below the capacity every table access of the three operations is
    inside the table: [add] and the traversal complete, and [reset]
    completes or stops in [free_node]. *)
Lemma table_accesses_below_capacity (ASSERT : bool) (LENGTH : Z)
    (Elem : Type) (max : Z) (es : list Elem) (e : Elem) :
  0 < LENGTH < 2 ^ 32 -> 0 <= max < 2 ^ 32 ->
  Zlen es < max * LENGTH ->
  exists a,
    add_all ASSERT LENGTH es (Array_new max) = Ok a /\
    (exists a', add ASSERT LENGTH e a = Ok a') /\
    replay ASSERT LENGTH a = Ok es /\
    (reset a = Ok (Array_new max) \/ reset a = Fault NullDereference).
Proof.
  intros HL Hmax Hcap.
  destruct (add_all_new ASSERT LENGTH Elem max HL Hmax es ltac:(lia))
    as (a & ps & Hrun & Hinv).
  exists a. split; [exact Hrun |]. split; [| split].
  - destruct (add_step ASSERT LENGTH Elem max HL Hmax es ps a e Hinv Hcap)
      as (a' & _ & Hadd & _). eauto.
  - unfold replay.
    rewrite (iterate_elements_inv ASSERT LENGTH Elem max HL Hmax _ es ps a [] Hinv Hcap).
    rewrite fold_left_snoc. reflexivity.
  - destruct (Z.eq_dec (Zlen es mod LENGTH) 0) as [Hmod | Hmod].
    + right. apply (reset_null LENGTH Elem max HL Hmax es ps a Hinv Hcap Hmod).
    + left. apply (reset_partial LENGTH Elem max HL Hmax es ps a Hinv ltac:(lia) Hmod).
Qed.

(** C10: [reset] (and with it the destructor) passes to [free_node] every
    table entry from index 0 through the cursor's segment index, unchecked.
    After [M] completed [add]s all of these entries are non-NULL, and
    [reset] gets through, if and only if [M] is at least 1 and not a
    multiple of [LENGTH]; otherwise [free_node] is handed the NULL entry at
    the cursor's segment index. *)
Theorem reset_frees_through_cursor_segment (ASSERT : bool) (LENGTH : Z)
    (Elem : Type) (max : Z) (es : list Elem) :
  0 < LENGTH < 2 ^ 32 -> 0 <= max < 2 ^ 32 ->
  Zlen es <= max * LENGTH ->
  exists a,
    add_all ASSERT LENGTH es (Array_new max) = Ok a /\
    node_index (_cur_pos a) = Zlen es / LENGTH /\
    reset a =
      (let! a' := for_upto (Zlen es / LENGTH) (fun hi a =>
           let! node := load_node Elem hi a in
           let! a := free_node Elem node a in
           store_node Elem hi None a) a in
       Ok (set_cur_pos Elem 0 (set_elements_num Elem 0 a'))) /\
    ((forall i, 0 <= i <= Zlen es / LENGTH ->
        exists p, _nodes a !! Z.to_nat i = Some (Some p))
     <-> 1 <= Zlen es /\ Zlen es mod LENGTH <> 0) /\
    ((exists a', reset a = Ok a')
     <-> 1 <= Zlen es /\ Zlen es mod LENGTH <> 0) /\
    ((exists h, Array_delete Elem a = Ok h)
     <-> 1 <= Zlen es /\ Zlen es mod LENGTH <> 0) /\
    (Zlen es mod LENGTH = 0 -> Zlen es < max * LENGTH ->
       _nodes a !! Z.to_nat (Zlen es / LENGTH) = Some None /\
       reset a = Fault NullDereference).
Proof.
  intros HL Hmax Hcap.
  destruct (add_all_new ASSERT LENGTH Elem max HL Hmax es Hcap)
    as (a & ps & Hrun & Hinv).
  pose proof (inv_segments _ _ _ _ _ Hinv) as Hs.
  destruct (inv_cursor_range LENGTH Elem max HL Hmax es ps a Hinv Hcap)
    as (Hhi & Hlo & Hcur).
  assert (HM : 0 <= Zlen es) by (unfold Zlen; lia).
  assert (Hzero : Zlen es mod LENGTH = 0 -> ~ exists a', reset a = Ok a').
  { intros Hmod [a' Ha'].
    destruct (Z.eq_dec (Zlen es) (max * LENGTH)) as [Hfull | Hroom].
    - rewrite (reset_full LENGTH Elem max HL Hmax es ps a Hinv Hfull) in Ha'.
      discriminate.
    - rewrite (reset_null LENGTH Elem max HL Hmax es ps a Hinv ltac:(lia) Hmod) in Ha'.
      discriminate. }
  assert (Hpos : Zlen es mod LENGTH <> 0 -> 1 <= Zlen es).
  { intros Hmod. destruct (Z.eq_dec (Zlen es) 0) as [E | E]; [| lia].
    rewrite E, Z.mod_0_l in Hmod by lia. lia. }
  exists a. split; [exact Hrun |].
  split. { rewrite (inv_cur _ _ _ _ _ Hinv). apply node_index_pack; lia. }
  split. { apply (reset_unfold LENGTH Elem max HL Hmax es ps a Hinv Hcap). }
  split; [| split; [| split]].
  - split.
    + intros Hall. destruct (Hall (Zlen es / LENGTH) ltac:(lia)) as [p Hp].
      destruct (Z.eq_dec (Zlen es mod LENGTH) 0) as [Hmod | Hmod]; [| auto].
      exfalso.
      destruct (Z_lt_ge_dec (Zlen es / LENGTH) max) as [Hin | Hout].
      * rewrite (inv_table _ _ _ _ _ Hs) in Hp by lia.
        rewrite lookup_ge_None_2 in Hp; [discriminate |].
        pose proof (inv_ps_len _ _ _ _ _ Hinv) as Hlen.
        rewrite segments_for_full in Hlen by lia. unfold Zlen in *. lia.
      * rewrite lookup_ge_None_2 in Hp; [discriminate |].
        rewrite (inv_table_len _ _ _ _ _ Hs). lia.
    + intros [_ Hmod] i Hi.
      pose proof (inv_ps_len _ _ _ _ _ Hinv) as Hlen.
      rewrite segments_for_partial in Hlen by lia.
      assert (Hlt : Zlen es / LENGTH < max).
      { apply position_bound; [lia | lia |].
        destruct (Z.eq_dec (Zlen es) (max * LENGTH)) as [E | E]; [| lia].
        rewrite E, Z.mod_mul in Hmod by lia. lia. }
      rewrite (inv_table _ _ _ _ _ Hs) by lia.
      destruct (lookup_lt_is_Some_2 ps (Z.to_nat i)
                  ltac:(unfold Zlen in *; lia)) as [p Hp].
      exists p. rewrite Hp. reflexivity.
  - split.
    + intros Hok.
      destruct (Z.eq_dec (Zlen es mod LENGTH) 0) as [Hmod | Hmod]; [| auto].
      exfalso. apply (Hzero Hmod Hok).
    + intros [_ Hmod]. exists (Array_new max).
      apply (reset_partial LENGTH Elem max HL Hmax es ps a Hinv Hcap Hmod).
  - unfold Array_delete. split.
    + intros [h Hh].
      destruct (Z.eq_dec (Zlen es mod LENGTH) 0) as [Hmod | Hmod]; [| auto].
      exfalso. apply (Hzero Hmod).
      destruct (reset a) as [a' | f]; [eauto | discriminate].
    + intros [_ Hmod].
      rewrite (reset_partial LENGTH Elem max HL Hmax es ps a Hinv Hcap Hmod).
      simpl. eauto.
  - intros Hmod Hroom. split.
    + assert (Hlt : Zlen es / LENGTH < max).
      { apply position_bound; [lia | lia | exact Hroom]. }
      rewrite (inv_table _ _ _ _ _ Hs) by lia.
      pose proof (inv_ps_len _ _ _ _ _ Hinv) as Hlen.
      rewrite segments_for_full in Hlen by lia.
      rewrite lookup_ge_None_2 by (unfold Zlen in *; lia). reflexivity.
    + apply (reset_null LENGTH Elem max HL Hmax es ps a Hinv Hroom Hmod).
Qed.

(** Witness of [reset_frees_through_cursor_segment]: one full segment. *)
Lemma reset_frees_through_cursor_segment_witness :
  exists a,
    add_all true 4 [1; 2; 3; 4] (Array_new 2) = Ok a /\
    node_index (_cur_pos a) = Zlen [1; 2; 3; 4] / 4 /\
    reset a =
      (let! a' := for_upto (Zlen [1; 2; 3; 4] / 4) (fun hi a =>
           let! node := load_node Z hi a in
           let! a := free_node Z node a in
           store_node Z hi None a) a in
       Ok (set_cur_pos Z 0 (set_elements_num Z 0 a'))) /\
    ((forall i, 0 <= i <= Zlen [1; 2; 3; 4] / 4 ->
        exists p, _nodes a !! Z.to_nat i = Some (Some p))
     <-> 1 <= Zlen [1; 2; 3; 4] /\ Zlen [1; 2; 3; 4] mod 4 <> 0) /\
    ((exists a', reset a = Ok a')
     <-> 1 <= Zlen [1; 2; 3; 4] /\ Zlen [1; 2; 3; 4] mod 4 <> 0) /\
    ((exists h, Array_delete Z a = Ok h)
     <-> 1 <= Zlen [1; 2; 3; 4] /\ Zlen [1; 2; 3; 4] mod 4 <> 0) /\
    (Zlen [1; 2; 3; 4] mod 4 = 0 -> Zlen [1; 2; 3; 4] < 2 * 4 ->
       _nodes a !! Z.to_nat (Zlen [1; 2; 3; 4] / 4) = Some None /\
       reset a = Fault NullDereference).
Proof.
  apply (reset_frees_through_cursor_segment true 4 Z 2 [1; 2; 3; 4]);
    [lia | lia | vm_compute; discriminate].
Defined.

(** ** The cursor over a lifetime *)

(** One thread: the successor of a valid cursor is the next larger valid
    cursor; an [add] that completes replaces the cursor by its successor;
    and no operation other than [reset] lowers the cursor of a reachable
    log. *)
Lemma cursor_across_operations (ASSERT : bool) (LENGTH : Z) (Elem : Type)
    (max : Z) (a a' : Array Elem) (op : operation Elem) (n : Z) :
  0 < LENGTH < 2 ^ 32 -> 0 <= max < 2 ^ 32 ->
  reachable ASSERT LENGTH max a ->
  op <> OpReset ->
  run_operation ASSERT LENGTH op a = Ok a' ->
  valid_cursor LENGTH n ->
  _cur_pos a <= _cur_pos a' /\
  (forall e, op = OpAdd e ->
     valid_cursor LENGTH (_cur_pos a) /\
     next ASSERT LENGTH (_cur_pos a) = Ok (_cur_pos a') /\
     _cur_pos a < _cur_pos a') /\
  (exists n', next ASSERT LENGTH n = Ok n' /\ n < n' /\
     forall m, valid_cursor LENGTH m -> n < m -> n' <= m).
Proof.
  intros HL Hmax Hreach Hop Hrun Hn.
  split; [| split].
  3:{ destruct (next_increasing ASSERT LENGTH ltac:(lia) n Hn)
        as (n' & E & Hlt & Hleast).
      exists n'. split; [exact E |]. split; [lia | exact Hleast]. }
  all: destruct (reachable_inv ASSERT LENGTH Elem max HL Hmax a Hreach)
         as (es & ps & Hinv & Hcap).
  all: destruct op as [e | | | |]; simpl in Hrun; try congruence.
  - destruct (Z.eq_dec (Zlen es) (max * LENGTH)) as [Hfull | Hroom].
    + destruct (add_full ASSERT LENGTH Elem max HL Hmax es ps a e Hinv Hfull)
        as [f Hf]. congruence.
    + destruct (add_step ASSERT LENGTH Elem max HL Hmax es ps a e Hinv ltac:(lia))
        as (a1 & ps1 & E1 & _ & _ & Hlt & _).
      assert (a' = a1) by congruence. subst a1. lia.
  - injection Hrun as <-. lia.
  - destruct (iterate_elements _ _ _ _ a); simpl in Hrun; [| discriminate].
    injection Hrun as <-. lia.
  - destruct (iterate_nodes _ _ _ _ a); simpl in Hrun; [| discriminate].
    injection Hrun as <-. lia.
  - intros e' _.
    destruct (Z.eq_dec (Zlen es) (max * LENGTH)) as [Hfull | Hroom].
    + destruct (add_full ASSERT LENGTH Elem max HL Hmax es ps a e Hinv Hfull)
        as [f Hf]. congruence.
    + destruct (add_step ASSERT LENGTH Elem max HL Hmax es ps a e Hinv ltac:(lia))
        as (a1 & ps1 & E1 & _ & Hnext & Hlt & _).
      assert (a' = a1) by congruence. subst a1.
      split; [| split; assumption].
      destruct (inv_cursor_range LENGTH Elem max HL Hmax es ps a Hinv Hcap)
        as (Hhi & Hlo & Hcur).
      assert (Hlt' : Zlen es / LENGTH < max).
      { apply position_bound; [lia | unfold Zlen; lia | lia]. }
      split; [exact Hcur |].
      rewrite (inv_cur _ _ _ _ _ Hinv).
      rewrite low_pack, node_index_pack by lia. lia.
Qed.

(** ** The tracker: addresses and offsets *)

Lemma pointer_delta_in_region obj t :
  0 <= _bottom t -> in_region obj t ->
  pointer_delta obj (_bottom t) = offset_of obj t.
Proof.
  intros Hb (Hobj & _ & _). unfold pointer_delta, offset_of, uint64.
  rewrite Z.mod_small by lia. reflexivity.
Qed.

Lemma offset_of_range obj t w :
  0 <= w <= 32 -> offset_mask t = Z.ones w ->
  0 <= _bottom t -> in_region obj t ->
  0 <= offset_of obj t < 2 ^ w /\ 2 ^ w <= 2 ^ 32.
Proof.
  intros Hw Hmask Hb (Hobj & _ & Hfit). unfold offset_of.
  rewrite Hmask, Z.ones_equiv in Hfit.
  split; [split |].
  - apply Z.div_pos; [lia | unfold HeapWordSize; lia].
  - lia.
  - apply Z.pow_le_mono_r; lia.
Qed.

Lemma cast_from_oop_addr_in_region ASSERT obj t w :
  0 <= w <= 32 -> offset_mask t = Z.ones w ->
  0 <= _bottom t -> in_region obj t ->
  cast_from_oop_addr ASSERT obj t = Ok (offset_of obj t).
Proof.
  intros Hw Hmask Hb Hin.
  destruct (offset_of_range obj t w Hw Hmask Hb Hin) as [Hoff Hpow].
  unfold cast_from_oop_addr.
  rewrite (pointer_delta_in_region obj t Hb Hin).
  destruct Hin as (_ & _ & Hfit). fold (offset_of obj t) in Hfit.
  rewrite assert_true by (apply Z.geb_le; exact Hfit). cbn [bind].
  rewrite Hmask, Z.land_ones by lia.
  rewrite Z.mod_small by lia.
  unfold uint32. rewrite Z.mod_small by lia. reflexivity.
Qed.

Lemma cast_from_offset_in_region obj t :
  0 <= _bottom t -> in_region obj t ->
  cast_from_offset (offset_of obj t) t = obj.
Proof.
  intros Hb (Hobj & Halign & _). unfold cast_from_offset, offset_of, uint64.
  pose proof (Z.div_mod (obj - _bottom t) HeapWordSize) as D.
  unfold HeapWordSize in *.
  replace (_bottom t + (obj - _bottom t) / 8 * 8) with obj by lia.
  apply Z.mod_small. lia.
Qed.

(** C5: for an object of the region, word-aligned and with a word-distance
    from the base of at most the offset mask (a bit-width mask of at most
    32 bits), the stored offset is that distance exactly, and converting
    it back gives the address. *)
Theorem cast_roundtrip (ASSERT : bool) (t : G1EvacuationFailureObjsInHR)
    (w obj : Z) :
  0 <= w <= 32 -> offset_mask t = Z.ones w ->
  0 <= _bottom t -> in_region obj t ->
  exists offset,
    cast_from_oop_addr ASSERT obj t = Ok offset /\
    offset = (obj - _bottom t) / HeapWordSize /\
    offset = pointer_delta obj (_bottom t) /\
    cast_from_offset offset t = obj.
Proof.
  intros Hw Hmask Hb Hin. exists (offset_of obj t).
  split; [apply (cast_from_oop_addr_in_region ASSERT obj t w); assumption |].
  split; [reflexivity |].
  split; [symmetry; apply pointer_delta_in_region; assumption |].
  apply cast_from_offset_in_region; assumption.
Qed.

(** Witness of [cast_roundtrip]: the object 5000 words above the base
    [0x10000] of a region with 20-bit offsets. *)
Lemma cast_roundtrip_witness :
  exists offset,
    cast_from_oop_addr true (0x10000 + 8 * 5000) (Tracker_new 20 16 0 0x10000)
      = Ok offset /\
    offset = (0x10000 + 8 * 5000 - _bottom (Tracker_new 20 16 0 0x10000))
               / HeapWordSize /\
    offset = pointer_delta (0x10000 + 8 * 5000)
               (_bottom (Tracker_new 20 16 0 0x10000)) /\
    cast_from_offset offset (Tracker_new 20 16 0 0x10000) = 0x10000 + 8 * 5000.
Proof.
  apply (cast_roundtrip true (Tracker_new 20 16 0 0x10000) 20 (0x10000 + 8 * 5000)).
  - lia.
  - reflexivity.
  - vm_compute. discriminate.
  - vm_compute. repeat split; congruence.
Defined.

(** C8: in a debug build [record] of an object whose offset
    exceeds the mask stops in the assert; in a product build the assert is
    compiled out and the offset is masked without notice. For an object
    whose offset is within the mask the masking step changes nothing, in
    either build. *)
Theorem offset_overflow_caught_in_debug_build (t : G1EvacuationFailureObjsInHR)
    (w obj : Z) :
  0 <= w <= 32 -> offset_mask t = Z.ones w ->
  let offset := pointer_delta obj (_bottom t) in
  (offset_mask t < offset ->
     cast_from_oop_addr true obj t = Fault AssertionFailed /\
     record true obj t = Fault AssertionFailed /\
     cast_from_oop_addr false obj t = Ok (uint32 (Z.land offset (offset_mask t)))) /\
  (offset <= offset_mask t ->
     Z.land offset (offset_mask t) = offset /\
     forall ASSERT, cast_from_oop_addr ASSERT obj t = Ok offset).
Proof.
  intros Hw Hmask offset.
  assert (Hoff : 0 <= offset).
  { unfold offset, pointer_delta, uint64.
    apply Z.div_pos; [| unfold HeapWordSize; lia].
    apply Z.mod_pos_bound. lia. }
  split.
  - intros Hover.
    assert (Hc : cast_from_oop_addr true obj t = Fault AssertionFailed).
    { unfold cast_from_oop_addr, assert. fold offset.
      destruct (Z.geb_spec (offset_mask t) offset) as [? | _]; [lia |].
      reflexivity. }
    split; [exact Hc |]. split.
    + unfold record. rewrite Hc. reflexivity.
    + unfold cast_from_oop_addr, assert. reflexivity.
  - intros Hfit.
    assert (Hpow : 2 ^ w <= 2 ^ 32) by (apply Z.pow_le_mono_r; lia).
    assert (Hland : Z.land offset (offset_mask t) = offset).
    { rewrite Hmask, Z.land_ones by lia. apply Z.mod_small.
      rewrite Hmask, Z.ones_equiv in Hfit. lia. }
    split; [exact Hland |].
    intros ASSERT. unfold cast_from_oop_addr. fold offset.
    rewrite assert_true by (apply Z.geb_le; exact Hfit). cbn [bind].
    rewrite Hland. unfold uint32. rewrite Z.mod_small; [reflexivity |].
    rewrite Hmask, Z.ones_equiv in Hfit. lia.
Qed.

(** Witness of [offset_overflow_caught_in_debug_build]: 16-bit offsets. *)
Lemma offset_overflow_caught_in_debug_build_witness :
  let t := Tracker_new 16 4 0 0 in
  let offset := pointer_delta 0x80028 (_bottom t) in
  (offset_mask t < offset ->
     cast_from_oop_addr true 0x80028 t = Fault AssertionFailed /\
     record true 0x80028 t = Fault AssertionFailed /\
     cast_from_oop_addr false 0x80028 t = Ok (uint32 (Z.land offset (offset_mask t)))) /\
  (offset <= offset_mask t ->
     Z.land offset (offset_mask t) = offset /\
     forall ASSERT, cast_from_oop_addr ASSERT 0x80028 t = Ok offset).
Proof.
  apply (offset_overflow_caught_in_debug_build (Tracker_new 16 4 0 0) 16 0x80028);
    [lia | reflexivity].
Defined.

(** C8 as stated fails in a product build: with 16-bit offsets the object
    [0x10005] words above the base is recorded, without any failure, as
    offset 5, the offset of the object 5 words above the base. *)
Lemma record_truncates_in_product_build :
  let t := Tracker_new 16 4 0 0 in
  offset_mask t = 0xFFFF /\
  pointer_delta 0x80028 (_bottom t) = 0x10005 /\
  cast_from_oop_addr false 0x80028 t = Ok 5 /\
  cast_from_oop_addr false 0x28 t = Ok 5 /\
  Z.land 0x10005 (offset_mask t) <> 0x10005 /\
  exists t', record false 0x80028 t = Ok t' /\
    replay false NODE_LENGTH (_nodes_array t') = Ok [5].
Proof.
  cbv zeta.
  split; [reflexivity |]. split; [reflexivity |].
  split; [reflexivity |]. split; [reflexivity |].
  split; [vm_compute; discriminate |].
  eexists. split; [vm_compute; reflexivity |]. vm_compute. reflexivity.
Qed.

(** ** The tracker: replay in ascending order *)

Lemma insert_offset_elem x l y :
  y ∈ insert_offset x l <-> y = x \/ y ∈ l.
Proof.
  induction l as [| z l IH]; simpl.
  - rewrite list_elem_of_singleton, elem_of_nil. tauto.
  - destruct (Z.ltb_spec x z) as [Hlt | Hge].
    + rewrite elem_of_cons. tauto.
    + destruct (Z.eqb_spec x z) as [-> | Hne].
      * rewrite elem_of_cons. tauto.
      * rewrite !elem_of_cons, IH. tauto.
Qed.

Lemma insert_offset_sorted x l :
  StronglySorted Z.lt l -> StronglySorted Z.lt (insert_offset x l).
Proof.
  induction l as [| z l IH]; intros Hs; simpl.
  - constructor; constructor.
  - apply StronglySorted_inv in Hs as [Hl Hz].
    destruct (Z.ltb_spec x z) as [Hlt | Hge].
    + constructor; [constructor; assumption |].
      constructor; [exact Hlt |].
      apply Forall_impl with (P := fun y => z < y); [exact Hz | intros; lia].
    + destruct (Z.eqb_spec x z) as [-> | Hne].
      * constructor; assumption.
      * constructor; [apply IH; exact Hl |].
        apply Forall_forall. intros y Hy.
        apply insert_offset_elem in Hy as [-> | Hy]; [lia |].
        rewrite Forall_forall in Hz. apply Hz. exact Hy.
Qed.

Lemma normalize_elem l y : y ∈ normalize l <-> y ∈ l.
Proof.
  induction l as [| x l IH]; simpl; [tauto |].
  rewrite insert_offset_elem, elem_of_cons, IH. tauto.
Qed.

Lemma normalize_sorted l : StronglySorted Z.lt (normalize l).
Proof.
  induction l as [| x l IH]; simpl; [constructor |].
  apply insert_offset_sorted. exact IH.
Qed.

Lemma StronglySorted_lt_NoDup (l : list Z) : StronglySorted Z.lt l -> NoDup l.
Proof.
  induction 1 as [| x l Hl IH Hx]; constructor; [| exact IH].
  intros Hin. rewrite Forall_forall in Hx. specialize (Hx x Hin). lia.
Qed.

Lemma elem_of_map {A B : Type} (f : A -> B) (l : list A) (y : B) :
  y ∈ map f l <-> exists x, y = f x /\ x ∈ l.
Proof.
  induction l as [| a l IH]; simpl.
  - rewrite elem_of_nil. split; [tauto |]. intros (x & _ & Hx).
    apply elem_of_nil in Hx. exact Hx.
  - rewrite elem_of_cons, IH. split.
    + intros [-> | (x & -> & Hx)].
      * exists a. split; [reflexivity | apply list_elem_of_here].
      * exists x. split; [reflexivity | apply elem_of_cons; auto].
    + intros (x & -> & Hx). apply elem_of_cons in Hx as [-> | Hx]; eauto.
Qed.

(** A map that is increasing on the members of an ascending list keeps it
    ascending. *)
Lemma StronglySorted_map_increasing (f : Z -> Z) (l : list Z) :
  (forall x y, x ∈ l -> y ∈ l -> x < y -> f x < f y) ->
  StronglySorted Z.lt l -> StronglySorted Z.lt (map f l).
Proof.
  intros Hf Hs. induction Hs as [| x l Hl IH Hx]; simpl; constructor.
  - apply IH. intros a b Ha Hb. apply Hf; apply elem_of_cons; auto.
  - apply Forall_forall. intros y Hy.
    apply elem_of_map in Hy as (z & -> & Hz).
    apply Hf; [apply list_elem_of_here | apply elem_of_cons; auto |].
    rewrite Forall_forall in Hx. apply Hx. exact Hz.
Qed.

Lemma fold_left_map_snoc {A B V : Type} (f : A -> B) (g : B -> V -> V)
    (l : list A) (v : V) :
  fold_left (fun v x => g (f x) v) l v = fold_left (fun v y => g y v) (map f l) v.
Proof. revert v. induction l as [| x l IH]; intros v; simpl; [| rewrite IH]; reflexivity. Qed.

(** [record] of objects of the region is [add] of their offsets. *)
Lemma record_all_add_all ASSERT w objs : forall t,
  0 <= w <= 32 -> offset_mask t = Z.ones w -> 0 <= _bottom t ->
  (forall obj, obj ∈ objs -> in_region obj t) ->
  record_all ASSERT objs t =
  let! a := add_all ASSERT NODE_LENGTH (map (fun obj => offset_of obj t) objs)
              (_nodes_array t) in
  Ok (set_nodes_array a t).
Proof.
  induction objs as [| obj objs IH]; intros t Hw Hmask Hb Hin.
  - simpl. destruct t. reflexivity.
  - simpl. unfold record at 1.
    rewrite (cast_from_oop_addr_in_region ASSERT obj t w Hw Hmask Hb)
      by (apply Hin, list_elem_of_here).
    cbn [bind].
    destruct (add ASSERT NODE_LENGTH (offset_of obj t) (_nodes_array t))
      as [a | f]; cbn [bind]; [| reflexivity].
    rewrite (IH (set_nodes_array a t) Hw Hmask Hb).
    + reflexivity.
    + intros o Ho. apply (Hin o). apply elem_of_cons. auto.
Qed.

Lemma map_outcome_Ok {A B : Type} (f : A -> outcome B) (g : A -> B) (l : list A) :
  (forall x, x ∈ l -> f x = Ok (g x)) ->
  map_outcome f l = Ok (map g l).
Proof.
  induction l as [| x l IH]; intros Hf; simpl; [reflexivity |].
  rewrite (Hf x) by apply list_elem_of_here. cbn [bind].
  rewrite IH; [reflexivity |].
  intros y Hy. apply Hf. apply elem_of_cons. auto.
Qed.

(** The worker threads that record objects of the region are the threads
    of [add] with the offsets of these objects. *)
Lemma start_recording_in_region ASSERT w (objss : list (list Z)) t :
  0 <= w <= 32 -> offset_mask t = Z.ones w -> 0 <= _bottom t ->
  (forall obj, obj ∈ concat objss -> in_region obj t) ->
  start_recording ASSERT objss t =
  Ok (mkConfig
        (map (mkThread AtLoad) (map (map (fun obj => offset_of obj t)) objss))
        (_nodes_array t)).
Proof.
  intros Hw Hmask Hb Hin. unfold start_recording.
  rewrite (map_outcome_Ok _ (map (fun obj => offset_of obj t))); [reflexivity |].
  intros objs Hobjs. apply map_outcome_Ok.
  intros obj Hobj.
  apply (cast_from_oop_addr_in_region ASSERT obj t w Hw Hmask Hb).
  apply Hin. apply list_elem_of_In, in_concat.
  exists objs. split; apply list_elem_of_In; assumption.
Qed.

(** [iterate] on a log whose replay yields the offsets of objects of the
    region, in whatever order and however often each: the closure is called
    on the distinct objects, in ascending address order. *)
Lemma iterate_of_replay ASSERT (t : G1EvacuationFailureObjsInHR)
    (offsets : list Z) (objs : list Z) :
  0 <= _bottom t ->
  (forall obj, obj ∈ objs -> in_region obj t) ->
  replay ASSERT NODE_LENGTH (_nodes_array t) = Ok offsets ->
  (forall offset,
     offset ∈ offsets <-> offset ∈ map (fun obj => offset_of obj t) objs) ->
  exists visited,
    visited_objects ASSERT t = Ok visited /\
    StronglySorted Z.lt visited /\
    NoDup visited /\
    (forall obj, obj ∈ visited <-> obj ∈ objs) /\
    (forall (V : Type) (do_object : Z -> V -> V) (v : V),
       iterate ASSERT do_object v t =
       Ok (fold_left (fun v obj => do_object obj v) visited v)).
Proof.
  intros Hb Hin Hreplay Hsame.
  set (visited := map (fun offset => cast_from_offset offset t) (normalize offsets)).
  assert (Hit : forall (V : Type) (do_object : Z -> V -> V) (v : V),
            iterate ASSERT do_object v t =
            Ok (fold_left (fun v obj => do_object obj v) visited v)).
  { intros V do_object v. unfold iterate. rewrite Hreplay. cbn [bind]. f_equal.
    unfold visited.
    apply (fold_left_map_snoc (fun offset => cast_from_offset offset t) do_object). }
  (* every normalised offset is the offset of a recorded object *)
  assert (Hback : forall offset, offset ∈ normalize offsets ->
            exists obj, obj ∈ objs /\ offset = offset_of obj t /\
                        cast_from_offset offset t = obj).
  { intros offset Ho. apply (proj1 (normalize_elem _ _)) in Ho.
    apply (proj1 (Hsame offset)) in Ho.
    apply elem_of_map in Ho as (obj & -> & Hobj).
    exists obj. split; [exact Hobj |]. split; [reflexivity |].
    apply (cast_from_offset_in_region obj t Hb (Hin obj Hobj)). }
  exists visited.
  split. { unfold visited_objects. rewrite Hit. f_equal. apply fold_left_snoc. }
  assert (Hsorted : StronglySorted Z.lt visited).
  { apply StronglySorted_map_increasing; [| apply normalize_sorted].
    intros x y Hx Hy Hlt.
    destruct (Hback x Hx) as (ox & Hox & -> & ->).
    destruct (Hback y Hy) as (oy & Hoy & -> & ->).
    destruct (Hin ox Hox) as (Hrx & Hax & _).
    destruct (Hin oy Hoy) as (Hry & Hay & _).
    unfold offset_of, HeapWordSize in *.
    pose proof (Z.div_mod (ox - _bottom t) 8). pose proof (Z.div_mod (oy - _bottom t) 8).
    lia. }
  split; [exact Hsorted |].
  split; [apply StronglySorted_lt_NoDup; exact Hsorted |].
  split; [| exact Hit].
  intros obj. unfold visited. split.
  - intros Hv. apply elem_of_map in Hv as (offset & -> & Ho).
    destruct (Hback offset Ho) as (o & Hobj & _ & ->). exact Hobj.
  - intros Hobj.
    rewrite <- (cast_from_offset_in_region obj t Hb (Hin obj Hobj)).
    apply elem_of_map. exists (offset_of obj t). split; [reflexivity |].
    apply normalize_elem. apply Hsame.
    apply elem_of_map. exists obj. split; [reflexivity | exact Hobj].
Qed.

(** The replay of the spec's example: offsets 5, 5000, 12, and 5 recorded
    twice. *)
Example iterate_example :
  let base := 0x10000 in
  (let! t := record_all true [base + 8 * 5; base + 8 * 5000; base + 8 * 12;
                              base + 8 * 5]
               (Tracker_new 20 16 0 base) in
   visited_objects true t)
  = Ok [base + 8 * 5; base + 8 * 12; base + 8 * 5000].
Proof. vm_compute. reflexivity. Qed.

(** ** Concurrent runs of [add] *)

Lemma slot_view_insert {Elem : Type} (log : list (entry Elem)) (r r' : nat) en :
  (r < length log)%nat ->
  slot_view (<[r := en]> log) r' =
  if decide (r' = r)
  then (if is_written (e_fate en) then Some (e_elem en) else None)
  else slot_view log r'.
Proof.
  intros Hr. unfold slot_view. destruct (decide (r' = r)) as [-> | Hne].
  - rewrite list_lookup_insert_eq by exact Hr. reflexivity.
  - rewrite list_lookup_insert_ne by auto. reflexivity.
Qed.

Lemma slot_view_snoc {Elem : Type} (log : list (entry Elem)) (r' : nat) en :
  is_written (e_fate en) = false ->
  slot_view (log ++ [en]) r' = slot_view log r'.
Proof.
  intros Hw. unfold slot_view. rewrite lookup_snoc.
  destruct (decide (r' = length log)) as [-> | Hne]; [| reflexivity].
  rewrite Hw, lookup_ge_None_2 by lia. reflexivity.
Qed.

Lemma seg_published_insert LENGTH {Elem : Type} (log : list (entry Elem))
    (r i : nat) en en' :
  log !! r = Some en ->
  is_published (e_fate en') = is_published (e_fate en) ->
  seg_published LENGTH (<[r := en']> log) i = seg_published LENGTH log i.
Proof.
  intros Hr Hp. unfold seg_published.
  destruct (decide ((i * Z.to_nat LENGTH)%nat = r)) as [E | Hne].
  - rewrite E, list_lookup_insert_eq by (apply lookup_lt_Some in Hr; exact Hr).
    rewrite Hr. exact Hp.
  - rewrite list_lookup_insert_ne by auto. reflexivity.
Qed.

Lemma seg_published_snoc LENGTH {Elem : Type} (log : list (entry Elem))
    (i : nat) en :
  is_published (e_fate en) = false \/ (length log mod Z.to_nat LENGTH <> 0)%nat ->
  0 < LENGTH ->
  seg_published LENGTH (log ++ [en]) i = seg_published LENGTH log i.
Proof.
  intros Hcase HL. unfold seg_published. rewrite lookup_snoc.
  destruct (decide ((i * Z.to_nat LENGTH)%nat = length log)) as [E | Hne];
    [| reflexivity].
  rewrite E, (lookup_ge_None_2 log) by lia.
  destruct Hcase as [Hp | Hmod]; [exact Hp |].
  exfalso. apply Hmod. rewrite <- E. apply Nat.Div0.mod_mul.
Qed.

Lemma completed_count_insert {Elem : Type} (log : list (entry Elem)) (r : nat) en en' :
  log !! r = Some en ->
  Zlen (filter (fun en => is_completed (e_fate en) = true) (<[r := en']> log)) =
  Zlen (filter (fun en => is_completed (e_fate en) = true) log)
  + (if is_completed (e_fate en') then 1 else 0)
  - (if is_completed (e_fate en) then 1 else 0).
Proof.
  intros Hr.
  rewrite <- (take_drop_middle log r en Hr) at 2.
  rewrite insert_take_drop by (apply lookup_lt_Some in Hr; exact Hr).
  unfold Zlen. rewrite !filter_app, !filter_cons, !length_app.
  destruct (is_completed (e_fate en')), (is_completed (e_fate en));
    repeat (destruct (decide _) as [? | ?]; try congruence); simpl; lia.
Qed.

Lemma completed_count_snoc {Elem : Type} (log : list (entry Elem)) en :
  is_completed (e_fate en) = false ->
  filter (fun en => is_completed (e_fate en) = true) (log ++ [en]) =
  filter (fun en => is_completed (e_fate en) = true) log.
Proof.
  intros Hc. rewrite filter_app, filter_cons, filter_nil.
  destruct (decide _) as [? | _]; [congruence | apply app_nil_r].
Qed.

(** Replacing one thread changes the elements still without a reservation
    in one place. *)
Lemma pending_insert {Elem : Type} (ts : list (thread Elem)) tid th th' :
  ts !! tid = Some th ->
  exists l1 l2,
    concat (map pending ts) = l1 ++ pending th ++ l2 /\
    concat (map pending (<[tid := th']> ts)) = l1 ++ pending th' ++ l2.
Proof.
  intros Hth.
  exists (concat (map pending (take tid ts))), (concat (map pending (drop (S tid) ts))).
  split.
  - rewrite <- (take_drop_middle ts tid th Hth) at 1.
    rewrite map_app, concat_app. simpl. reflexivity.
  - rewrite insert_take_drop by (apply lookup_lt_Some in Hth; exact Hth).
    rewrite map_app, concat_app. simpl. reflexivity.
Qed.

Section Ownership.

Variable LENGTH : Z.
Variable Elem : Type.
Hypothesis LENGTH_pos : 0 < LENGTH.

Implicit Types (log : list (entry Elem)) (ts : list (thread Elem))
  (th : thread Elem).

#[local] Abbreviation owner_ok log ts :=
  (forall (r : nat) en tid st, log !! r = Some en ->
     e_fate en = InFlight tid st ->
     exists th, ts !! tid = Some th /\
       claim_of th = Some (Z.of_nat r / LENGTH, Z.of_nat r mod LENGTH, st) /\
       head (todo th) = Some (e_elem en)).

#[local] Abbreviation claim_ok log ts :=
  (forall tid th hi lo st, ts !! tid = Some th ->
     claim_of th = Some (hi, lo, st) ->
     exists (r : nat) en, hi = Z.of_nat r / LENGTH /\ lo = Z.of_nat r mod LENGTH /\
       log !! r = Some en /\ e_fate en = InFlight tid st /\
       head (todo th) = Some (e_elem en)).

Lemma position_eq (r r' : nat) :
  Z.of_nat r / LENGTH = Z.of_nat r' / LENGTH ->
  Z.of_nat r mod LENGTH = Z.of_nat r' mod LENGTH -> r = r'.
Proof.
  intros Hd Hm.
  pose proof (Z.div_mod (Z.of_nat r) LENGTH ltac:(lia)).
  pose proof (Z.div_mod (Z.of_nat r') LENGTH ltac:(lia)). nia.
Qed.

(** A thread without a reservation moves on without one. *)
Lemma own_idle log ts tid th th' :
  owner_ok log ts -> claim_ok log ts ->
  ts !! tid = Some th -> claim_of th = None -> claim_of th' = None ->
  owner_ok log (<[tid := th']> ts) /\ claim_ok log (<[tid := th']> ts).
Proof.
  intros Ho Hc Hth Hn Hn'. split.
  - intros r en tid0 st Hr Hf.
    destruct (Ho r en tid0 st Hr Hf) as (th0 & Hth0 & Hcl & Hhd).
    assert (tid0 <> tid) by (intros ->; congruence).
    exists th0. rewrite list_lookup_insert_ne by auto. auto.
  - intros tid0 th0 hi lo st Hth0 Hcl.
    destruct (decide (tid0 = tid)) as [-> | Hne].
    + rewrite list_lookup_insert_eq in Hth0
        by (apply lookup_lt_Some in Hth; exact Hth).
      congruence.
    + rewrite list_lookup_insert_ne in Hth0 by auto.
      apply (Hc tid0 th0 hi lo st Hth0 Hcl).
Qed.

(** A thread wins the reservation after the last one. *)
Lemma own_reserve log ts tid th th' e st :
  owner_ok log ts -> claim_ok log ts ->
  ts !! tid = Some th -> claim_of th = None ->
  claim_of th' = Some (Zlen log / LENGTH, Zlen log mod LENGTH, st) ->
  head (todo th') = Some e ->
  owner_ok (log ++ [mkEntry e (InFlight tid st)]) (<[tid := th']> ts) /\
  claim_ok (log ++ [mkEntry e (InFlight tid st)]) (<[tid := th']> ts).
Proof.
  intros Ho Hc Hth Hn Hcl' Hhd'.
  pose proof (lookup_lt_Some _ _ _ Hth) as Hlt. unfold Zlen in *. split.
  - intros r en tid0 st0 Hr Hf. rewrite lookup_snoc in Hr.
    destruct (decide (r = length log)) as [-> | Hne].
    + injection Hr as <-. simpl in Hf. injection Hf as <- <-.
      exists th'. rewrite list_lookup_insert_eq by exact Hlt. auto.
    + destruct (Ho r en tid0 st0 Hr Hf) as (th0 & Hth0 & Hcl & Hhd).
      assert (tid0 <> tid) by (intros ->; congruence).
      exists th0. rewrite list_lookup_insert_ne by auto. auto.
  - intros tid0 th0 hi lo st0 Hth0 Hcl.
    destruct (decide (tid0 = tid)) as [-> | Hne].
    + rewrite list_lookup_insert_eq in Hth0 by exact Hlt.
      injection Hth0 as <-. rewrite Hcl' in Hcl. injection Hcl as <- <- <-.
      exists (length log), (mkEntry e (InFlight tid st)).
      rewrite lookup_snoc. destruct (decide _) as [_ | ?]; [| congruence].
      auto.
    + rewrite list_lookup_insert_ne in Hth0 by auto.
      destruct (Hc tid0 th0 hi lo st0 Hth0 Hcl) as (r & en & ? & ? & Hr & ? & ?).
      exists r, en. rewrite lookup_app_l by (apply lookup_lt_Some in Hr; exact Hr).
      auto.
Qed.

(** A thread takes its reservation to the fate [f]: a later stage with the
    same locals, or completion with the locals gone. *)
Lemma own_advance log ts tid th th' (r : nat) en st f :
  owner_ok log ts -> claim_ok log ts ->
  ts !! tid = Some th ->
  log !! r = Some en -> e_fate en = InFlight tid st ->
  match f with
  | InFlight tid' st' =>
      tid' = tid /\
      claim_of th' = Some (Z.of_nat r / LENGTH, Z.of_nat r mod LENGTH, st') /\
      head (todo th') = Some (e_elem en)
  | Completed => claim_of th' = None
  end ->
  owner_ok (<[r := mkEntry (e_elem en) f]> log) (<[tid := th']> ts) /\
  claim_ok (<[r := mkEntry (e_elem en) f]> log) (<[tid := th']> ts).
Proof.
  intros Ho Hc Hth Hr Hf Hnew.
  pose proof (lookup_lt_Some _ _ _ Hth) as Hlt.
  pose proof (lookup_lt_Some _ _ _ Hr) as Hrlt.
  destruct (Ho r en tid st Hr Hf) as (th0 & Hth0 & Hcl & Hhd).
  assert (th0 = th) by congruence. subst th0.
  (* the thread holds no other reservation *)
  assert (Honly : forall r' en' st', log !! r' = Some en' ->
            e_fate en' = InFlight tid st' -> r' = r).
  { intros r' en' st' Hr' Hf'.
    destruct (Ho r' en' tid st' Hr' Hf') as (th0 & Hth0' & Hcl' & _).
    assert (th0 = th) by congruence. subst th0.
    rewrite Hcl in Hcl'. injection Hcl' as Hd Hm _.
    symmetry. apply position_eq; assumption. }
  split.
  - intros r' en' tid0 st0 Hr' Hf'.
    destruct (decide (r' = r)) as [-> | Hne].
    + rewrite list_lookup_insert_eq in Hr' by exact Hrlt.
      injection Hr' as <-. simpl in Hf'. subst f.
      destruct Hnew as (-> & Hcl' & Hhd').
      exists th'. rewrite list_lookup_insert_eq by exact Hlt. auto.
    + rewrite list_lookup_insert_ne in Hr' by auto.
      destruct (Ho r' en' tid0 st0 Hr' Hf') as (th0 & Hth0' & Hcl' & Hhd').
      assert (tid0 <> tid).
      { intros ->. apply Hne. apply (Honly r' en' st0 Hr' Hf'). }
      exists th0. rewrite list_lookup_insert_ne by auto. auto.
  - intros tid0 th0 hi lo st0 Hth0' Hcl'.
    destruct (decide (tid0 = tid)) as [-> | Hne].
    + rewrite list_lookup_insert_eq in Hth0' by exact Hlt.
      injection Hth0' as <-.
      destruct f as [tid' st' |]; [| congruence].
      destruct Hnew as (-> & Hcl2 & Hhd2).
      rewrite Hcl2 in Hcl'. injection Hcl' as <- <- <-.
      exists r, (mkEntry (e_elem en) (InFlight tid st')).
      rewrite list_lookup_insert_eq by exact Hrlt. auto.
    + rewrite list_lookup_insert_ne in Hth0' by auto.
      destruct (Hc tid0 th0 hi lo st0 Hth0' Hcl') as (r' & en' & ? & ? & Hr' & Hf' & ?).
      assert (r' <> r).
      { intros ->. rewrite Hr in Hr'. injection Hr' as <-. congruence. }
      exists r', en'. rewrite list_lookup_insert_ne by auto. auto.
Qed.

End Ownership.

Section ConcurrentInvariant.

Variable ASSERT : bool.
Variable LENGTH : Z.
Variable Elem : Type.
Variable max : Z.
Variable all : list Elem.
Hypothesis LENGTH_range : 0 < LENGTH < 2 ^ 32.
Hypothesis max_range : 0 <= max < 2 ^ 32.
Hypothesis capacity : Zlen all <= max * LENGTH.

#[local] Set Default Proof Using "LENGTH_range max_range capacity".

Implicit Types (log : list (entry Elem)) (ts : list (thread Elem))
  (th : thread Elem) (c : config Elem) (a : Array Elem).

Lemma start_inv (todos : list (list Elem)) :
  concat todos = all ->
  conc_inv LENGTH max all [] (start max todos).
Proof.
  intros Hall. split; simpl.
  - reflexivity.
  - unfold Zlen. simpl. rewrite Z.div_0_l, Z.mod_0_l by lia. reflexivity.
  - reflexivity.
  - rewrite map_map, (map_ext _ (fun l => l)), map_id, Hall; [reflexivity |].
    intros l. unfold pending, claim_of. simpl. destruct l; reflexivity.
  - apply length_replicate.
  - intros i Hi. unfold seg_published. simpl.
    apply lookup_replicate_2. exact Hi.
  - intros i i' p Hp. apply lookup_replicate in Hp as [? _]. discriminate.
  - intros p [x Hx]. rewrite lookup_empty in Hx. discriminate.
  - intros i p Hp. apply lookup_replicate in Hp as [? _]. discriminate.
  - intros r en Hr. discriminate.
  - intros r en tid Hr. discriminate.
  - intros r en tid st Hr. discriminate.
  - intros tid th hi lo st Hth Hcl.
    rewrite list_lookup_fmap in Hth.
    destruct (todos !! tid) as [l |]; simpl in Hth; [| discriminate].
    injection Hth as <-. unfold claim_of in Hcl. simpl in Hcl.
    destruct l; discriminate.
  - intros tid th pos Hth Hpc.
    rewrite list_lookup_fmap in Hth.
    destruct (todos !! tid) as [l |]; simpl in Hth; [| discriminate].
    injection Hth as <-. discriminate.
  - intros tid th hi lo q Hth Hpc.
    rewrite list_lookup_fmap in Hth.
    destruct (todos !! tid) as [l |]; simpl in Hth; [| discriminate].
    injection Hth as <-. discriminate.
Qed.

Lemma inv_log_bound log c :
  conc_inv LENGTH max all log c -> Zlen log <= Zlen all.
Proof.
  intros Hinv. pose proof (ci_perm _ _ _ _ _ Hinv) as Hp.
  apply Permutation_length in Hp.
  unfold Zlen. rewrite length_app, length_map in Hp. lia.
Qed.

(** While a thread has an element without a reservation the log has room. *)
Lemma inv_log_room log c tid th :
  conc_inv LENGTH max all log c ->
  threads c !! tid = Some th -> claim_of th = None -> todo th <> [] ->
  Zlen log < Zlen all.
Proof.
  intros Hinv Hth Hcl Htodo. pose proof (ci_perm _ _ _ _ _ Hinv) as Hp.
  apply Permutation_length in Hp.
  destruct (pending_insert (threads c) tid th th Hth) as (l1 & l2 & E & _).
  rewrite E in Hp. unfold pending in Hp at 1. rewrite Hcl in Hp.
  unfold Zlen. rewrite !length_app, length_map in Hp.
  destruct (todo th); [congruence |]. simpl in Hp. lia.
Qed.

Lemma pending_same ts tid th th' :
  ts !! tid = Some th -> pending th' = pending th ->
  map pending (<[tid := th']> ts) = map pending ts.
Proof.
  intros Hth Hp.
  apply list_eq. intros i. rewrite !list_lookup_fmap.
  destruct (decide (i = tid)) as [-> | Hne].
  - rewrite list_lookup_insert_eq by (apply lookup_lt_Some in Hth; exact Hth).
    rewrite Hth. simpl. congruence.
  - rewrite list_lookup_insert_ne by auto. reflexivity.
Qed.

(** A reservation of the log is inside the table and inside its segment. *)
Lemma inv_position log c (r : nat) :
  conc_inv LENGTH max all log c -> (r < length log)%nat ->
  0 <= Z.of_nat r / LENGTH < max /\ 0 <= Z.of_nat r mod LENGTH < LENGTH.
Proof.
  intros Hinv Hr. pose proof (inv_log_bound log c Hinv) as Hb.
  unfold Zlen in *. split.
  - split; [apply Z.div_pos; lia | apply position_bound; lia].
  - apply Z.mod_pos_bound. lia.
Qed.

Lemma position_nat (r : nat) :
  Z.to_nat (Z.of_nat r / LENGTH) = (r / Z.to_nat LENGTH)%nat /\
  Z.to_nat (Z.of_nat r mod LENGTH) = (r mod Z.to_nat LENGTH)%nat.
Proof.
  rewrite <- (Z2Nat.id LENGTH) at 1 3 by lia.
  rewrite <- Nat2Z.inj_div, <- Nat2Z.inj_mod, !Nat2Z.id. auto.
Qed.

(** The fields of the invariant that a step leaves as they are. *)
Ltac inv_field H :=
  first
    [ exact (ci_max _ _ _ _ _ H) | exact (ci_cur _ _ _ _ _ H)
    | exact (ci_num _ _ _ _ _ H) | exact (ci_perm _ _ _ _ _ H)
    | exact (ci_table_len _ _ _ _ _ H) | exact (ci_table _ _ _ _ _ H)
    | exact (ci_inj _ _ _ _ _ H) | exact (ci_dom _ _ _ _ _ H)
    | exact (ci_cells _ _ _ _ _ H) | exact (ci_written _ _ _ _ _ H)
    | exact (ci_slot0 _ _ _ _ _ H) ].

Lemma claim_of_idle th pos :
  pc th = AtLoad \/ pc th = AtCmpxchg pos -> claim_of th = None.
Proof.
  intros Hpc. unfold claim_of. destruct (todo th); [reflexivity |].
  destruct Hpc as [-> | ->]; reflexivity.
Qed.

(** The fields about threads, when thread [tid] moves between two places
    that hold no reservation and the log does not change. *)
Lemma idle_move log c tid th th' :
  conc_inv LENGTH max all log c ->
  threads c !! tid = Some th ->
  claim_of th = None -> claim_of th' = None -> todo th' = todo th ->
  (forall pos, pc th' = AtCmpxchg pos -> todo th' <> [] ->
     exists r : Z, 0 <= r <= Zlen log /\ pos = pack (r / LENGTH) (r mod LENGTH)) ->
  (forall hi lo q, pc th' <> AtWrite hi lo q) ->
  conc_inv LENGTH max all log (mkConfig (<[tid := th']> (threads c)) (shared c)).
Proof.
  intros Hinv Hth Hcl Hcl' Htodo Hstale Hnode.
  pose proof (lookup_lt_Some _ _ _ Hth) as Hlt.
  destruct (own_idle LENGTH Elem log (threads c) tid th th'
              (ci_owner _ _ _ _ _ Hinv) (ci_claim _ _ _ _ _ Hinv) Hth Hcl Hcl')
    as [Ho Hc].
  split; simpl; try inv_field Hinv.
  - rewrite (pending_same (threads c) tid th th' Hth).
    + apply (ci_perm _ _ _ _ _ Hinv).
    + unfold pending. rewrite Hcl, Hcl'. exact Htodo.
  - exact Ho.
  - exact Hc.
  - intros tid0 th0 pos Hth0 Hpc Hne.
    destruct (decide (tid0 = tid)) as [-> | Hd].
    + rewrite list_lookup_insert_eq in Hth0 by exact Hlt.
      injection Hth0 as <-. apply Hstale; assumption.
    + rewrite list_lookup_insert_ne in Hth0 by auto.
      apply (ci_stale _ _ _ _ _ Hinv tid0 th0 pos Hth0 Hpc Hne).
  - intros tid0 th0 hi lo q Hth0 Hpc Hne.
    destruct (decide (tid0 = tid)) as [-> | Hd].
    + rewrite list_lookup_insert_eq in Hth0 by exact Hlt.
      injection Hth0 as <-. exfalso. apply (Hnode hi lo q Hpc).
    + rewrite list_lookup_insert_ne in Hth0 by auto.
      apply (ci_node _ _ _ _ _ Hinv tid0 th0 hi lo q Hth0 Hpc Hne).
Qed.

(** [pos = Atomic::load(&_cur_pos)] *)
Lemma step_load log c tid th elem rest :
  conc_inv LENGTH max all log c ->
  threads c !! tid = Some th -> todo th = elem :: rest -> pc th = AtLoad ->
  let th' := mkThread (AtCmpxchg (_cur_pos (shared c))) (todo th) in
  let c' := mkConfig (<[tid := th']> (threads c)) (shared c) in
  schedule_step ASSERT LENGTH tid c = Ok c' /\
  conc_inv LENGTH max all log c'.
Proof.
  intros Hinv Hth Htodo Hpc th' c'. split.
  - subst c' th'. unfold schedule_step. rewrite Hth. unfold thread_step.
    rewrite Htodo, Hpc. reflexivity.
  - apply (idle_move log c tid th th' Hinv Hth).
    + apply (claim_of_idle th 0). auto.
    + apply (claim_of_idle th' (_cur_pos (shared c))). right. reflexivity.
    + reflexivity.
    + intros pos Hpos _. simpl in Hpos. injection Hpos as <-.
      exists (Zlen log). split; [unfold Zlen; lia |].
      apply (ci_cur _ _ _ _ _ Hinv).
    + intros hi lo q. simpl. discriminate.
Qed.

(** The cursor a thread read earlier is a reservation that has room. *)
Lemma stale_next log c tid th pos elem rest :
  conc_inv LENGTH max all log c ->
  threads c !! tid = Some th -> todo th = elem :: rest -> pc th = AtCmpxchg pos ->
  exists r : Z, 0 <= r <= Zlen log /\ Zlen log < max * LENGTH /\
    pos = pack (r / LENGTH) (r mod LENGTH) /\
    next ASSERT LENGTH pos =
    Ok (if r mod LENGTH + 1 =? LENGTH then pack (r / LENGTH + 1) 0
        else pack (r / LENGTH) (r mod LENGTH + 1)).
Proof.
  intros Hinv Hth Htodo Hpc.
  assert (Hne : todo th <> []) by (rewrite Htodo; discriminate).
  pose proof (inv_log_room log c tid th Hinv Hth
                (claim_of_idle th pos (or_intror Hpc)) Hne) as Hroom.
  destruct (ci_stale _ _ _ _ _ Hinv tid th pos Hth Hpc Hne) as (r & Hr & ->).
  exists r. split; [exact Hr |]. split; [lia |]. split; [reflexivity |].
  apply next_pack; [lia | |].
  - split; [apply Z.div_pos; lia |].
    assert (r / LENGTH < max) by (apply position_bound; lia). lia.
  - apply Z.mod_pos_bound. lia.
Qed.

(** [Atomic::cmpxchg] finds another cursor than the one read: again. *)
Lemma step_cmpxchg_lost log c tid th pos elem rest :
  conc_inv LENGTH max all log c ->
  threads c !! tid = Some th -> todo th = elem :: rest -> pc th = AtCmpxchg pos ->
  _cur_pos (shared c) <> pos ->
  let th' := mkThread AtLoad (todo th) in
  let c' := mkConfig (<[tid := th']> (threads c)) (shared c) in
  schedule_step ASSERT LENGTH tid c = Ok c' /\
  conc_inv LENGTH max all log c'.
Proof.
  intros Hinv Hth Htodo Hpc Hlost th' c'. split.
  - destruct (stale_next log c tid th pos elem rest Hinv Hth Htodo Hpc)
      as (r & _ & _ & _ & Hnext).
    subst c' th'. unfold schedule_step. rewrite Hth. unfold thread_step.
    rewrite Htodo, Hpc, Hnext. cbn [bind]. unfold cmpxchg_cur_pos.
    destruct (Z.eqb_spec (_cur_pos (shared c)) pos) as [? | _]; [contradiction |].
    reflexivity.
  - apply (idle_move log c tid th th' Hinv Hth).
    + apply (claim_of_idle th pos). auto.
    + apply (claim_of_idle th' 0). left. reflexivity.
    + reflexivity.
    + intros p Hp. discriminate.
    + intros hi lo q. simpl. discriminate.
Qed.

(** Lookups among the threads after thread [tid] has moved. *)
Ltac other_thread Hlt Hth0 tid0 tid :=
  destruct (decide (tid0 = tid)) as [-> | ?];
  [ rewrite list_lookup_insert_eq in Hth0 by exact Hlt; injection Hth0 as <-
  | rewrite list_lookup_insert_ne in Hth0 by auto ].

(** [Atomic::cmpxchg] finds the cursor that was read: the reservation is
    made, the cursor moves to its successor. *)
Lemma step_cmpxchg_won log c tid th elem rest :
  conc_inv LENGTH max all log c ->
  threads c !! tid = Some th -> todo th = elem :: rest ->
  pc th = AtCmpxchg (_cur_pos (shared c)) ->
  let hi := Zlen log / LENGTH in
  let lo := Zlen log mod LENGTH in
  let th' := mkThread (if lo =? 0 then AtCreate hi lo else AtPoll hi lo) (todo th) in
  let en := mkEntry elem (InFlight tid (if lo =? 0 then Unpublished else Reserved)) in
  exists a',
    schedule_step ASSERT LENGTH tid c =
      Ok (mkConfig (<[tid := th']> (threads c)) a') /\
    conc_inv LENGTH max all (log ++ [en]) (mkConfig (<[tid := th']> (threads c)) a') /\
    next ASSERT LENGTH (_cur_pos (shared c)) = Ok (_cur_pos a') /\
    _cur_pos (shared c) < _cur_pos a' /\
    _nodes a' = _nodes (shared c).
Proof.
  intros Hinv Hth Htodo Hpc hi lo th' en.
  pose proof (lookup_lt_Some _ _ _ Hth) as Hlt.
  assert (Hne : todo th <> []) by (rewrite Htodo; discriminate).
  assert (Hidle : claim_of th = None) by (apply (claim_of_idle th _ (or_intror Hpc))).
  pose proof (inv_log_room log c tid th Hinv Hth Hidle Hne) as Hroom.
  assert (HR : 0 <= Zlen log) by (unfold Zlen; lia).
  assert (Hlo : 0 <= lo < LENGTH) by (apply Z.mod_pos_bound; lia).
  assert (Hhi : 0 <= hi < max).
  { split; [apply Z.div_pos; lia | apply position_bound; lia]. }
  set (next_pos := if lo + 1 =? LENGTH then pack (hi + 1) 0 else pack hi (lo + 1)).
  assert (Hnext : next ASSERT LENGTH (_cur_pos (shared c)) = Ok next_pos).
  { rewrite (ci_cur _ _ _ _ _ Hinv). apply next_pack; lia. }
  assert (Hnext' : next_pos = pack ((Zlen log + 1) / LENGTH) ((Zlen log + 1) mod LENGTH)).
  { unfold next_pos. destruct (lo + 1 =? LENGTH) eqn:E.
    - apply Z.eqb_eq in E.
      destruct (succ_position_wrap LENGTH (Zlen log) ltac:(lia) HR E) as [-> ->].
      reflexivity.
    - apply Z.eqb_neq in E.
      destruct (succ_position_same LENGTH (Zlen log) ltac:(lia) HR E) as [-> ->].
      reflexivity. }
  assert (Hgrow : _cur_pos (shared c) < next_pos).
  { rewrite (ci_cur _ _ _ _ _ Hinv). fold hi lo. unfold next_pos, pack.
    destruct (lo + 1 =? LENGTH) eqn:E; [| lia]. apply Z.eqb_eq in E. lia. }
  assert (Hlen' : Zlen (log ++ [en]) = Zlen log + 1).
  { unfold Zlen. rewrite length_app. simpl. lia. }
  assert (Hclaim' : claim_of th' =
            Some (hi, lo, if lo =? 0 then Unpublished else Reserved)).
  { unfold claim_of, th'. simpl. rewrite Htodo. destruct (lo =? 0); reflexivity. }
  assert (Hunwritten : is_written (e_fate en) = false).
  { unfold en. simpl. destruct (lo =? 0); reflexivity. }
  assert (Hseg : forall i, seg_published LENGTH (log ++ [en]) i = seg_published LENGTH log i).
  { intros i. apply seg_published_snoc; [| lia].
    unfold en. simpl. destruct (Z.eqb_spec lo 0) as [E | E]; [left; reflexivity |].
    right. destruct (position_nat (length log)) as [_ Hm].
    unfold lo, Zlen in E, Hlo. lia. }
  exists (set_cur_pos Elem next_pos (shared c)).
  split; [| split; [| split; [| split]]].
  - subst th'. unfold schedule_step. rewrite Hth. unfold thread_step.
    rewrite Htodo, Hpc, Hnext. cbn [bind]. unfold cmpxchg_cur_pos.
    rewrite Z.eqb_refl. rewrite (ci_cur _ _ _ _ _ Hinv). fold hi lo.
    rewrite node_index_pack by lia.
    rewrite (elem_index_pack ASSERT LENGTH ltac:(lia) hi lo) by lia.
    reflexivity.
  - destruct (own_reserve LENGTH Elem log (threads c) tid th th' elem
                (if lo =? 0 then Unpublished else Reserved)
                (ci_owner _ _ _ _ _ Hinv) (ci_claim _ _ _ _ _ Hinv) Hth Hidle Hclaim')
      as [Ho Hc].
    { unfold th'. simpl. rewrite Htodo. reflexivity. }
    split; simpl; try inv_field Hinv.
    + rewrite Hlen'. exact Hnext'.
    + rewrite completed_count_snoc by (unfold en; reflexivity).
      apply (ci_num _ _ _ _ _ Hinv).
    + destruct (pending_insert (threads c) tid th th' Hth) as (l1 & l2 & E1 & E2).
      pose proof (ci_perm _ _ _ _ _ Hinv) as Hp. rewrite E1 in Hp. rewrite E2.
      unfold pending in Hp at 1. rewrite Hidle, Htodo in Hp.
      unfold pending at 1. rewrite Hclaim'. unfold th'. simpl. rewrite Htodo. simpl.
      rewrite map_app, <- app_assoc. simpl.
      etransitivity; [| exact Hp].
      apply Permutation_app_head. apply Permutation_middle.
    + intros i Hi. rewrite Hseg. apply (ci_table _ _ _ _ _ Hinv i Hi).
    + intros i p Hp.
      destruct (ci_cells _ _ _ _ _ Hinv i p Hp) as (node & Hn & Hl & Hs).
      exists node. split; [exact Hn |]. split; [exact Hl |].
      intros j Hj. rewrite slot_view_snoc by exact Hunwritten. apply Hs. exact Hj.
    + intros r en0 Hr Hw. rewrite Hseg. rewrite lookup_snoc in Hr.
      destruct (decide (r = length log)) as [-> | Hd].
      * injection Hr as <-. congruence.
      * apply (ci_written _ _ _ _ _ Hinv r en0 Hr Hw).
    + intros r en0 tid0 Hr Hf. rewrite lookup_snoc in Hr.
      destruct (decide (r = length log)) as [-> | Hd].
      * injection Hr as <-. unfold en in Hf. simpl in Hf.
        destruct (Z.eqb_spec lo 0) as [E | E]; [| discriminate].
        destruct (position_nat (length log)) as [_ Hm].
        unfold lo, Zlen in E, Hlo. lia.
      * apply (ci_slot0 _ _ _ _ _ Hinv r en0 tid0 Hr Hf).
    + exact Ho.
    + exact Hc.
    + intros tid0 th0 pos Hth0 Hpc0 Hne0.
      other_thread Hlt Hth0 tid0 tid.
      * exfalso. unfold th' in Hpc0. simpl in Hpc0.
        destruct (lo =? 0); discriminate.
      * destruct (ci_stale _ _ _ _ _ Hinv tid0 th0 pos Hth0 Hpc0 Hne0) as (r & Hr & E).
        exists r. split; [lia | exact E].
    + intros tid0 th0 hi0 lo0 q Hth0 Hpc0 Hne0.
      other_thread Hlt Hth0 tid0 tid.
      * exfalso. unfold th' in Hpc0. simpl in Hpc0.
        destruct (lo =? 0); discriminate.
      * apply (ci_node _ _ _ _ _ Hinv tid0 th0 hi0 lo0 q Hth0 Hpc0 Hne0).
  - exact Hnext.
  - exact Hgrow.
  - reflexivity.
Qed.

Lemma map_elem_insert log (r : nat) en f :
  log !! r = Some en ->
  map e_elem (<[r := mkEntry (e_elem en) f]> log) = map e_elem log.
Proof.
  intros Hr. apply list_eq. intros i. rewrite !list_lookup_fmap.
  destruct (decide (i = r)) as [-> | Hne].
  - rewrite list_lookup_insert_eq by (apply lookup_lt_Some in Hr; exact Hr).
    rewrite Hr. reflexivity.
  - rewrite list_lookup_insert_ne by auto. reflexivity.
Qed.

(** The reservation a thread holds, with what the invariant says of it. *)
Lemma claim_entry log c tid th hi lo st elem rest :
  conc_inv LENGTH max all log c ->
  threads c !! tid = Some th -> todo th = elem :: rest ->
  claim_of th = Some (hi, lo, st) ->
  exists (r : nat) en,
    log !! r = Some en /\ e_fate en = InFlight tid st /\ e_elem en = elem /\
    hi = Z.of_nat r / LENGTH /\ lo = Z.of_nat r mod LENGTH /\
    0 <= hi < max /\ 0 <= lo < LENGTH /\
    Z.to_nat hi = (r / Z.to_nat LENGTH)%nat /\
    r = (Z.to_nat hi * Z.to_nat LENGTH + Z.to_nat lo)%nat.
Proof.
  intros Hinv Hth Htodo Hcl.
  destruct (ci_claim _ _ _ _ _ Hinv tid th hi lo st Hth Hcl)
    as (r & en & -> & -> & Hr & Hf & Hhd).
  rewrite Htodo in Hhd. simpl in Hhd. injection Hhd as Hel.
  pose proof (lookup_lt_Some _ _ _ Hr) as Hrlt.
  destruct (inv_position log c r Hinv Hrlt) as [Hhi Hlo].
  destruct (position_nat r) as [Hd Hm].
  exists r, en. repeat (split; [first [assumption | reflexivity | lia | auto] |]).
  pose proof (position_split LENGTH (Z.of_nat r) ltac:(lia) ltac:(lia)) as Hs.
  rewrite Nat2Z.id in Hs. exact Hs.
Qed.

(** The fields about threads, when thread [tid] takes its reservation [r]
    to the fate [f] and the table keeps the entries it has. *)
Lemma advance_threads log c tid th th' (r : nat) en st f a' :
  conc_inv LENGTH max all log c ->
  threads c !! tid = Some th ->
  log !! r = Some en -> e_fate en = InFlight tid st ->
  match f with
  | InFlight tid' st' =>
      tid' = tid /\
      claim_of th' = Some (Z.of_nat r / LENGTH, Z.of_nat r mod LENGTH, st') /\
      head (todo th') = Some (e_elem en)
  | Completed => claim_of th' = None
  end ->
  pending th' = pending th ->
  (forall pos, pc th' <> AtCmpxchg pos) ->
  (forall hi lo q, pc th' = AtWrite hi lo q ->
     _nodes a' !! Z.to_nat hi = Some (Some q)) ->
  (forall (i : nat) q, _nodes (shared c) !! i = Some (Some q) ->
     _nodes a' !! i = Some (Some q)) ->
  let log' := <[r := mkEntry (e_elem en) f]> log in
  let c' := mkConfig (<[tid := th']> (threads c)) a' in
  Permutation (map e_elem log' ++ concat (map pending (threads c'))) all /\
  (forall (r : nat) en tid st, log' !! r = Some en ->
     e_fate en = InFlight tid st ->
     exists th, threads c' !! tid = Some th /\
       claim_of th = Some (Z.of_nat r / LENGTH, Z.of_nat r mod LENGTH, st) /\
       head (todo th) = Some (e_elem en)) /\
  (forall tid th hi lo st, threads c' !! tid = Some th ->
     claim_of th = Some (hi, lo, st) ->
     exists (r : nat) en, hi = Z.of_nat r / LENGTH /\ lo = Z.of_nat r mod LENGTH /\
       log' !! r = Some en /\ e_fate en = InFlight tid st /\
       head (todo th) = Some (e_elem en)) /\
  (forall tid th pos, threads c' !! tid = Some th ->
     pc th = AtCmpxchg pos -> todo th <> [] ->
     exists r : Z, 0 <= r <= Zlen log' /\ pos = pack (r / LENGTH) (r mod LENGTH)) /\
  (forall tid th hi lo q, threads c' !! tid = Some th ->
     pc th = AtWrite hi lo q -> todo th <> [] ->
     _nodes (shared c') !! Z.to_nat hi = Some (Some q)).
Proof.
  intros Hinv Hth Hr Hf Hnew Hpend Hnocas Hnode Hkeep log' c'.
  pose proof (lookup_lt_Some _ _ _ Hth) as Hlt.
  destruct (own_advance LENGTH Elem ltac:(lia) log (threads c) tid th th' r en st f
              (ci_owner _ _ _ _ _ Hinv) (ci_claim _ _ _ _ _ Hinv) Hth Hr Hf Hnew)
    as [Ho Hc].
  split; [| split; [exact Ho | split; [exact Hc | split]]].
  - unfold log', c'. simpl. rewrite (map_elem_insert log r en f Hr).
    rewrite (pending_same (threads c) tid th th' Hth Hpend).
    apply (ci_perm _ _ _ _ _ Hinv).
  - intros tid0 th0 pos Hth0 Hpc0 Hne0. simpl in Hth0.
    other_thread Hlt Hth0 tid0 tid.
    + exfalso. apply (Hnocas pos Hpc0).
    + unfold log', Zlen. rewrite length_insert.
      apply (ci_stale _ _ _ _ _ Hinv tid0 th0 pos Hth0 Hpc0 Hne0).
  - intros tid0 th0 hi lo q Hth0 Hpc0 Hne0. simpl in Hth0. simpl.
    other_thread Hlt Hth0 tid0 tid.
    + apply (Hnode hi lo q Hpc0).
    + apply Hkeep.
      apply (ci_node _ _ _ _ _ Hinv tid0 th0 hi lo q Hth0 Hpc0 Hne0).
Qed.

Lemma slot_view_advance log (r r' : nat) en f :
  log !! r = Some en ->
  is_written f = is_written (e_fate en) ->
  slot_view (<[r := mkEntry (e_elem en) f]> log) r' = slot_view log r'.
Proof.
  intros Hr Hw. rewrite slot_view_insert by (apply lookup_lt_Some in Hr; exact Hr).
  destruct (decide (r' = r)) as [-> | Hne]; [| reflexivity].
  unfold slot_view. rewrite Hr. simpl. rewrite Hw. reflexivity.
Qed.

(** [create_node()] and [Atomic::store(&_nodes[hi], ..)]: the thread that
    reserved slot 0 puts the segment into the table. *)
Lemma step_create log c tid th hi lo elem rest :
  conc_inv LENGTH max all log c ->
  threads c !! tid = Some th -> todo th = elem :: rest ->
  pc th = AtCreate hi lo ->
  let th' := mkThread (AtPoll hi lo) (todo th) in
  exists a' log' p,
    schedule_step ASSERT LENGTH tid c =
      Ok (mkConfig (<[tid := th']> (threads c)) a') /\
    conc_inv LENGTH max all log' (mkConfig (<[tid := th']> (threads c)) a') /\
    lo = 0 /\
    _cur_pos a' = _cur_pos (shared c) /\
    _nodes (shared c) !! Z.to_nat hi = Some None /\
    _nodes a' = <[Z.to_nat hi := Some p]> (_nodes (shared c)).
Proof.
  intros Hinv Hth Htodo Hpc th'.
  pose proof (lookup_lt_Some _ _ _ Hth) as Hlt.
  assert (Hcl : claim_of th = Some (hi, lo, Unpublished)).
  { unfold claim_of. rewrite Htodo, Hpc. reflexivity. }
  destruct (claim_entry log c tid th hi lo Unpublished elem rest Hinv Hth Htodo Hcl)
    as (r & en & Hr & Hf & Hel & Ehi & Elo & Hhi & Hlo & Hh & Hsplit).
  pose proof (lookup_lt_Some _ _ _ Hr) as Hrlt.
  pose proof (ci_slot0 _ _ _ _ _ Hinv r en tid Hr Hf) as Hzero.
  destruct (position_nat r) as [_ Hm].
  assert (Hlo0 : lo = 0) by lia.
  set (h := Z.to_nat hi) in *.
  assert (Hrh : r = (h * Z.to_nat LENGTH)%nat) by lia.
  assert (Hunpub : seg_published LENGTH log h = false).
  { unfold seg_published. rewrite <- Hrh, Hr, Hf. reflexivity. }
  assert (Hnull : _nodes (shared c) !! h = Some None).
  { pose proof (ci_table _ _ _ _ _ Hinv h ltac:(lia)) as Ht.
    rewrite Hunpub in Ht. exact Ht. }
  set (p := fresh (dom (c_heap (shared c)))).
  assert (Hfresh : c_heap (shared c) !! p = None).
  { apply not_elem_of_dom. apply is_fresh. }
  assert (Hnew : forall i, _nodes (shared c) !! i <> Some (Some p)).
  { intros i Hi.
    destruct (ci_cells _ _ _ _ _ Hinv i p Hi) as (node & Hn & _). congruence. }
  set (a' := set_nodes Elem (<[h := Some p]> (_nodes (shared c)))
               (set_c_heap Elem (<[p := Node_new LENGTH Elem]> (c_heap (shared c)))
                  (shared c))).
  set (log' := <[r := mkEntry (e_elem en) (InFlight tid Reserved)]> log).
  assert (Hseg : forall i, seg_published LENGTH log' i =
                   if decide (i = h) then true else seg_published LENGTH log i).
  { intros i. unfold seg_published, log'.
    destruct (decide (i = h)) as [-> | Hne].
    - rewrite <- Hrh, list_lookup_insert_eq by exact Hrlt. reflexivity.
    - rewrite list_lookup_insert_ne; [reflexivity |]. rewrite Hrh. nia. }
  assert (Hview : forall r', slot_view log' r' = slot_view log r').
  { intros r'. apply slot_view_advance; [exact Hr |]. rewrite Hf. reflexivity. }
  destruct (advance_threads log c tid th th' r en Unpublished (InFlight tid Reserved) a'
              Hinv Hth Hr Hf) as (Hperm & Ho & Hc & Hstale & Hnode).
  { split; [reflexivity |]. split.
    - unfold claim_of, th'. simpl. rewrite Htodo, <- Ehi, <- Elo. reflexivity.
    - unfold th'. simpl. rewrite Htodo, Hel. reflexivity. }
  { unfold pending. rewrite Hcl. unfold claim_of, th'. simpl. rewrite Htodo. reflexivity. }
  { intros pos. discriminate. }
  { intros hi0 lo0 q. discriminate. }
  { intros i q Hi. unfold a'. simpl.
    rewrite list_lookup_insert_ne; [exact Hi |]. intros <-. congruence. }
  exists a', log', p.
  split; [| split; [| split; [exact Hlo0 | split; [reflexivity | split; [exact Hnull | reflexivity]]]]].
  - subst th'. unfold schedule_step. rewrite Hth. unfold thread_step.
    rewrite Htodo, Hpc. unfold create_node, store_node. fold p.
    cbn [_nodes set_c_heap]. rewrite (ci_table_len _ _ _ _ _ Hinv). fold h.
    destruct (Nat.ltb_spec h (Z.to_nat max)) as [_ | ?]; [| lia].
    reflexivity.
  - split; try assumption; simpl.
    + apply (ci_max _ _ _ _ _ Hinv).
    + unfold log', Zlen. rewrite length_insert. apply (ci_cur _ _ _ _ _ Hinv).
    + unfold log'. rewrite (completed_count_insert log r en _ Hr), Hf. simpl.
      rewrite Z.add_0_r, Z.sub_0_r. apply (ci_num _ _ _ _ _ Hinv).
    + rewrite length_insert. apply (ci_table_len _ _ _ _ _ Hinv).
    + intros i Hi. rewrite Hseg. destruct (decide (i = h)) as [-> | Hne].
      * exists p. apply list_lookup_insert_eq.
        rewrite (ci_table_len _ _ _ _ _ Hinv). lia.
      * rewrite list_lookup_insert_ne by auto.
        apply (ci_table _ _ _ _ _ Hinv i Hi).
    + intros i i' q Hi Hi'.
      destruct (decide (i = h)) as [-> | Hne], (decide (i' = h)) as [-> | Hne'];
        [reflexivity | | |].
      * rewrite list_lookup_insert_eq in Hi
          by (rewrite (ci_table_len _ _ _ _ _ Hinv); lia).
        rewrite list_lookup_insert_ne in Hi' by auto.
        injection Hi as <-. exfalso. apply (Hnew i' Hi').
      * rewrite list_lookup_insert_eq in Hi'
          by (rewrite (ci_table_len _ _ _ _ _ Hinv); lia).
        rewrite list_lookup_insert_ne in Hi by auto.
        injection Hi' as <-. exfalso. apply (Hnew i Hi).
      * rewrite list_lookup_insert_ne in Hi, Hi' by auto.
        apply (ci_inj _ _ _ _ _ Hinv i i' q Hi Hi').
    + intros q Hq. destruct (decide (q = p)) as [-> | Hne].
      * exists h. apply list_lookup_insert_eq.
        rewrite (ci_table_len _ _ _ _ _ Hinv). lia.
      * rewrite lookup_insert_ne in Hq by auto.
        destruct (ci_dom _ _ _ _ _ Hinv q Hq) as [i Hi].
        exists i. rewrite list_lookup_insert_ne; [exact Hi |].
        intros <-. congruence.
    + intros i q Hi. destruct (decide (i = h)) as [-> | Hne].
      * rewrite list_lookup_insert_eq in Hi
          by (rewrite (ci_table_len _ _ _ _ _ Hinv); lia).
        injection Hi as <-. exists (Node_new LENGTH Elem).
        split; [apply lookup_insert_eq |]. simpl.
        split; [apply length_replicate |].
        intros j Hj. rewrite lookup_replicate_2 by exact Hj.
        rewrite Hview. f_equal. unfold slot_view.
        destruct (log !! (h * Z.to_nat LENGTH + j)%nat) as [en0 |] eqn:E0;
          [| reflexivity].
        destruct (is_written (e_fate en0)) eqn:Hw; [| reflexivity].
        pose proof (ci_written _ _ _ _ _ Hinv _ en0 E0 Hw) as Hpub.
        replace ((h * Z.to_nat LENGTH + j) / Z.to_nat LENGTH)%nat with h in Hpub.
        -- congruence.
        -- apply Nat.div_unique with j; lia.
      * rewrite list_lookup_insert_ne in Hi by auto.
        destruct (ci_cells _ _ _ _ _ Hinv i q Hi) as (node & Hn & Hl & Hs).
        exists node. split.
        { rewrite lookup_insert_ne; [exact Hn |]. intros <-. congruence. }
        split; [exact Hl |]. intros j Hj. rewrite Hview. apply Hs. exact Hj.
    + intros r' en' Hr' Hw. rewrite Hseg.
      destruct (decide _) as [_ | Hne]; [reflexivity |].
      unfold log' in Hr'. destruct (decide (r' = r)) as [-> | Hd].
      * rewrite list_lookup_insert_eq in Hr' by exact Hrlt.
        injection Hr' as <-. discriminate.
      * rewrite list_lookup_insert_ne in Hr' by auto.
        apply (ci_written _ _ _ _ _ Hinv r' en' Hr' Hw).
    + intros r' en' tid' Hr' Hf'.
      unfold log' in Hr'. destruct (decide (r' = r)) as [-> | Hd].
      * rewrite list_lookup_insert_eq in Hr' by exact Hrlt.
        injection Hr' as <-. discriminate.
      * rewrite list_lookup_insert_ne in Hr' by auto.
        apply (ci_slot0 _ _ _ _ _ Hinv r' en' tid' Hr' Hf').
Qed.

Lemma config_eta c : mkConfig (threads c) (shared c) = c.
Proof. destruct c. reflexivity. Qed.

Lemma stutter_inv log c tid th :
  conc_inv LENGTH max all log c -> threads c !! tid = Some th ->
  mkConfig (<[tid := th]> (threads c)) (shared c) = c.
Proof.
  intros _ Hth. rewrite list_insert_id by exact Hth. apply config_eta.
Qed.

(** [node = Atomic::load(&_nodes[hi])]: the thread stays while the entry
    is NULL and goes on with the segment once it is there. *)
Lemma step_poll log c tid th hi lo elem rest :
  conc_inv LENGTH max all log c ->
  threads c !! tid = Some th -> todo th = elem :: rest ->
  pc th = AtPoll hi lo ->
  exists entry_hi,
    _nodes (shared c) !! Z.to_nat hi = Some entry_hi /\
    let th' := match entry_hi with
               | None => th
               | Some q => mkThread (AtWrite hi lo q) (todo th)
               end in
    schedule_step ASSERT LENGTH tid c =
      Ok (mkConfig (<[tid := th']> (threads c)) (shared c)) /\
    conc_inv LENGTH max all log (mkConfig (<[tid := th']> (threads c)) (shared c)).
Proof.
  intros Hinv Hth Htodo Hpc.
  pose proof (lookup_lt_Some _ _ _ Hth) as Hlt.
  assert (Hcl : claim_of th = Some (hi, lo, Reserved)).
  { unfold claim_of. rewrite Htodo, Hpc. reflexivity. }
  destruct (claim_entry log c tid th hi lo Reserved elem rest Hinv Hth Htodo Hcl)
    as (r & en & Hr & Hf & Hel & Ehi & Elo & Hhi & Hlo & Hh & Hsplit).
  destruct (lookup_lt_is_Some_2 (_nodes (shared c)) (Z.to_nat hi)) as [x Hx].
  { rewrite (ci_table_len _ _ _ _ _ Hinv). lia. }
  exists x. split; [exact Hx |]. intros th'. split.
  - subst th'. unfold schedule_step. rewrite Hth. unfold thread_step.
    rewrite Htodo, Hpc. unfold load_node. rewrite Hx. cbn [bind].
    destruct x; reflexivity.
  - destruct x as [q |]; subst th'.
    2:{ rewrite (stutter_inv log c tid th Hinv Hth). exact Hinv. }
    set (th' := mkThread (AtWrite hi lo q) (todo th)).
    assert (Hid : <[r := mkEntry (e_elem en) (InFlight tid Reserved)]> log = log).
    { apply list_insert_id. rewrite Hr. destruct en. simpl in *. congruence. }
    destruct (advance_threads log c tid th th' r en Reserved (InFlight tid Reserved)
                (shared c) Hinv Hth Hr Hf) as (Hperm & Ho & Hc & Hstale & Hnode).
    { split; [reflexivity |]. split.
      - unfold claim_of, th'. simpl. rewrite Htodo, <- Ehi, <- Elo. reflexivity.
      - unfold th'. simpl. rewrite Htodo, Hel. reflexivity. }
    { unfold pending. rewrite Hcl. unfold claim_of, th'. simpl. rewrite Htodo. reflexivity. }
    { intros pos. discriminate. }
    { intros hi0 lo0 q0 E. unfold th' in E. simpl in E. injection E as <- <- <-.
      exact Hx. }
    { auto. }
    rewrite Hid in *.
    split; try assumption; simpl; inv_field Hinv.
Qed.

(** [node->operator[](lo) = elem] *)
Lemma step_write log c tid th hi lo q elem rest :
  conc_inv LENGTH max all log c ->
  threads c !! tid = Some th -> todo th = elem :: rest ->
  pc th = AtWrite hi lo q ->
  let th' := mkThread (AtInc hi lo) (todo th) in
  exists a' log',
    schedule_step ASSERT LENGTH tid c =
      Ok (mkConfig (<[tid := th']> (threads c)) a') /\
    conc_inv LENGTH max all log' (mkConfig (<[tid := th']> (threads c)) a') /\
    _cur_pos a' = _cur_pos (shared c) /\ _nodes a' = _nodes (shared c).
Proof.
  intros Hinv Hth Htodo Hpc th'.
  pose proof (lookup_lt_Some _ _ _ Hth) as Hlt.
  assert (Hne : todo th <> []) by (rewrite Htodo; discriminate).
  assert (Hcl : claim_of th = Some (hi, lo, Reserved)).
  { unfold claim_of. rewrite Htodo, Hpc. reflexivity. }
  destruct (claim_entry log c tid th hi lo Reserved elem rest Hinv Hth Htodo Hcl)
    as (r & en & Hr & Hf & Hel & Ehi & Elo & Hhi & Hlo & Hh & Hsplit).
  pose proof (lookup_lt_Some _ _ _ Hr) as Hrlt.
  pose proof (ci_node _ _ _ _ _ Hinv tid th hi lo q Hth Hpc Hne) as Hq.
  set (h := Z.to_nat hi) in *. set (l := Z.to_nat lo) in *.
  destruct (ci_cells _ _ _ _ _ Hinv h q Hq) as (cell & Hcell & Hclen & Hslots).
  set (cell' := mkNode (<[l := Some elem]> (_oop_offsets cell))).
  set (a' := set_c_heap Elem (<[q := cell']> (c_heap (shared c))) (shared c)).
  set (log' := <[r := mkEntry (e_elem en) (InFlight tid Written)]> log).
  assert (Hseg : forall i, seg_published LENGTH log' i = seg_published LENGTH log i).
  { intros i. apply (seg_published_insert LENGTH log r i en _ Hr).
    rewrite Hf. reflexivity. }
  assert (Hpub : seg_published LENGTH log h = true).
  { pose proof (ci_table _ _ _ _ _ Hinv h ltac:(lia)) as Ht.
    destruct (seg_published LENGTH log h); [reflexivity | congruence]. }
  destruct (advance_threads log c tid th th' r en Reserved (InFlight tid Written) a'
              Hinv Hth Hr Hf) as (Hperm & Ho & Hc & Hstale & Hnode).
  { split; [reflexivity |]. split.
    - unfold claim_of, th'. simpl. rewrite Htodo, <- Ehi, <- Elo. reflexivity.
    - unfold th'. simpl. rewrite Htodo, Hel. reflexivity. }
  { unfold pending. rewrite Hcl. unfold claim_of, th'. simpl. rewrite Htodo. reflexivity. }
  { intros pos. discriminate. }
  { intros hi0 lo0 q0. discriminate. }
  { auto. }
  exists a', log'.
  split; [| split; [| split; reflexivity]].
  - subst th'. unfold schedule_step. rewrite Hth. unfold thread_step.
    rewrite Htodo, Hpc. unfold deref. rewrite Hcell. cbn [bind].
    unfold Node_set. rewrite Hclen. fold l.
    destruct (Nat.ltb_spec l (Z.to_nat LENGTH)) as [_ | ?]; [| lia].
    reflexivity.
  - split; try assumption; simpl; try inv_field Hinv.
    + unfold log', Zlen. rewrite length_insert. apply (ci_cur _ _ _ _ _ Hinv).
    + unfold log'. rewrite (completed_count_insert log r en _ Hr), Hf. simpl.
      rewrite Z.add_0_r, Z.sub_0_r. apply (ci_num _ _ _ _ _ Hinv).
    + intros i Hi. rewrite Hseg. apply (ci_table _ _ _ _ _ Hinv i Hi).
    + intros p Hp. destruct (decide (p = q)) as [-> | Hd].
      * exists h. exact Hq.
      * rewrite lookup_insert_ne in Hp by auto.
        apply (ci_dom _ _ _ _ _ Hinv p Hp).
    + intros i p Hi. destruct (decide (p = q)) as [-> | Hd].
      * assert (i = h) by (apply (ci_inj _ _ _ _ _ Hinv i h q Hi Hq)). subst i.
        exists cell'. split; [apply lookup_insert_eq |]. simpl.
        split; [rewrite length_insert; exact Hclen |].
        intros j Hj. unfold log'.
        rewrite slot_view_insert by exact Hrlt.
        destruct (decide (j = l)) as [-> | Hjl].
        -- rewrite list_lookup_insert_eq by lia.
           destruct (decide _) as [_ | ?]; [| lia]. simpl. congruence.
        -- rewrite list_lookup_insert_ne by auto.
           destruct (decide _) as [? | _]; [lia |]. apply Hslots. exact Hj.
      * rewrite lookup_insert_ne by auto.
        destruct (ci_cells _ _ _ _ _ Hinv i p Hi) as (node & Hn & Hl & Hs).
        exists node. split; [exact Hn |]. split; [exact Hl |].
        intros j Hj. unfold log'.
        rewrite slot_view_insert by exact Hrlt.
        destruct (decide _) as [E | _]; [| apply Hs; exact Hj].
        exfalso. assert (i <> h) by (intros ->; congruence). nia.
    + intros r' en' Hr' Hw. rewrite Hseg.
      unfold log' in Hr'. destruct (decide (r' = r)) as [-> | Hd].
      * rewrite <- Hh. exact Hpub.
      * rewrite list_lookup_insert_ne in Hr' by auto.
        apply (ci_written _ _ _ _ _ Hinv r' en' Hr' Hw).
    + intros r' en' tid' Hr' Hf'.
      unfold log' in Hr'. destruct (decide (r' = r)) as [-> | Hd].
      * rewrite list_lookup_insert_eq in Hr' by exact Hrlt.
        injection Hr' as <-. discriminate.
      * rewrite list_lookup_insert_ne in Hr' by auto.
        apply (ci_slot0 _ _ _ _ _ Hinv r' en' tid' Hr' Hf').
Qed.

(** [Atomic::inc(&_elements_num)]: the [add] is complete. *)
Lemma step_inc log c tid th hi lo elem rest :
  conc_inv LENGTH max all log c ->
  threads c !! tid = Some th -> todo th = elem :: rest ->
  pc th = AtInc hi lo ->
  let th' := mkThread AtLoad rest in
  exists a' log',
    schedule_step ASSERT LENGTH tid c =
      Ok (mkConfig (<[tid := th']> (threads c)) a') /\
    conc_inv LENGTH max all log' (mkConfig (<[tid := th']> (threads c)) a') /\
    _cur_pos a' = _cur_pos (shared c) /\ _nodes a' = _nodes (shared c).
Proof.
  intros Hinv Hth Htodo Hpc th'.
  pose proof (lookup_lt_Some _ _ _ Hth) as Hlt.
  assert (Hcl : claim_of th = Some (hi, lo, Written)).
  { unfold claim_of. rewrite Htodo, Hpc. reflexivity. }
  destruct (claim_entry log c tid th hi lo Written elem rest Hinv Hth Htodo Hcl)
    as (r & en & Hr & Hf & Hel & Ehi & Elo & Hhi & Hlo & Hh & Hsplit).
  pose proof (lookup_lt_Some _ _ _ Hr) as Hrlt.
  set (a' := set_elements_num Elem (uint32 (_elements_num (shared c) + 1)) (shared c)).
  set (log' := <[r := mkEntry (e_elem en) Completed]> log).
  assert (Hseg : forall i, seg_published LENGTH log' i = seg_published LENGTH log i).
  { intros i. apply (seg_published_insert LENGTH log r i en _ Hr).
    rewrite Hf. reflexivity. }
  assert (Hview : forall r', slot_view log' r' = slot_view log r').
  { intros r'. apply slot_view_advance; [exact Hr |]. rewrite Hf. reflexivity. }
  assert (Hcl' : claim_of th' = None) by (apply (claim_of_idle th' 0); auto).
  destruct (advance_threads log c tid th th' r en Written Completed a'
              Hinv Hth Hr Hf Hcl') as (Hperm & Ho & Hc & Hstale & Hnode).
  { unfold pending. rewrite Hcl, Hcl', Htodo. reflexivity. }
  { intros pos. discriminate. }
  { intros hi0 lo0 q0. discriminate. }
  { auto. }
  exists a', log'.
  split; [| split; [| split; reflexivity]].
  - subst th'. unfold schedule_step. rewrite Hth. unfold thread_step.
    rewrite Htodo, Hpc. reflexivity.
  - split; try assumption; simpl; try inv_field Hinv.
    + unfold log', Zlen. rewrite length_insert. apply (ci_cur _ _ _ _ _ Hinv).
    + unfold log'. rewrite (completed_count_insert log r en _ Hr), Hf. simpl.
      rewrite Z.sub_0_r, (ci_num _ _ _ _ _ Hinv).
      unfold uint32. apply Z.add_mod_idemp_l. lia.
    + intros i Hi. rewrite Hseg. apply (ci_table _ _ _ _ _ Hinv i Hi).
    + intros i p Hi.
      destruct (ci_cells _ _ _ _ _ Hinv i p Hi) as (node & Hn & Hl & Hs).
      exists node. split; [exact Hn |]. split; [exact Hl |].
      intros j Hj. rewrite Hview. apply Hs. exact Hj.
    + intros r' en' Hr' Hw. rewrite Hseg.
      unfold log' in Hr'. destruct (decide (r' = r)) as [-> | Hd].
      * apply (ci_written _ _ _ _ _ Hinv r en Hr). rewrite Hf. reflexivity.
      * rewrite list_lookup_insert_ne in Hr' by auto.
        apply (ci_written _ _ _ _ _ Hinv r' en' Hr' Hw).
    + intros r' en' tid' Hr' Hf'.
      unfold log' in Hr'. destruct (decide (r' = r)) as [-> | Hd].
      * rewrite list_lookup_insert_eq in Hr' by exact Hrlt.
        injection Hr' as <-. discriminate.
      * rewrite list_lookup_insert_ne in Hr' by auto.
        apply (ci_slot0 _ _ _ _ _ Hinv r' en' tid' Hr' Hf').
Qed.

(** *** Every step of every thread *)

(** Whatever thread the scheduler picks, its step goes through and keeps
    the invariant; the cursor does not go back; and the table changes only
    in the step of a thread that reserved slot 0, which stores a new
    segment into the NULL entry of its segment. *)
Lemma schedule_step_inv log c tid :
  conc_inv LENGTH max all log c ->
  exists c' log',
    schedule_step ASSERT LENGTH tid c = Ok c' /\
    conc_inv LENGTH max all log' c' /\
    _cur_pos (shared c) <= _cur_pos (shared c') /\
    (_cur_pos (shared c) < _cur_pos (shared c') ->
       next ASSERT LENGTH (_cur_pos (shared c)) = Ok (_cur_pos (shared c'))) /\
    (_nodes (shared c') = _nodes (shared c) \/
     exists th hi p,
       threads c !! tid = Some th /\ todo th <> [] /\ pc th = AtCreate hi 0 /\
       _nodes (shared c) !! Z.to_nat hi = Some None /\
       _nodes (shared c') = <[Z.to_nat hi := Some p]> (_nodes (shared c))).
Proof.
  intros Hinv.
  destruct (threads c !! tid) as [th |] eqn:Hth.
  2:{ exists c, log. unfold schedule_step. rewrite Hth.
      split; [reflexivity |]. split; [exact Hinv |].
      split; [lia |]. split; [lia | auto]. }
  destruct (todo th) as [| elem rest] eqn:Htodo.
  { exists c, log. unfold schedule_step. rewrite Hth. unfold thread_step.
    rewrite Htodo. cbn [bind fst snd].
    rewrite (stutter_inv log c tid th Hinv Hth).
    split; [reflexivity |]. split; [exact Hinv |].
    split; [lia |]. split; [lia | auto]. }
  destruct (pc th) as [| pos | hi lo | hi lo | hi lo q | hi lo] eqn:Hpc.
  - destruct (step_load log c tid th elem rest Hinv Hth Htodo Hpc) as [Hrun Hinv'].
    eexists. exists log. split; [exact Hrun |]. split; [exact Hinv' |].
    simpl. split; [lia |]. split; [lia | auto].
  - destruct (Z.eq_dec (_cur_pos (shared c)) pos) as [E | E].
    + subst pos.
      destruct (step_cmpxchg_won log c tid th elem rest Hinv Hth Htodo Hpc)
        as (a' & Hrun & Hinv' & Hnext & Hlt & Htab).
      eexists. eexists. split; [exact Hrun |]. split; [exact Hinv' |].
      simpl. split; [lia |]. split; [auto | auto].
    + destruct (step_cmpxchg_lost log c tid th pos elem rest Hinv Hth Htodo Hpc E)
        as [Hrun Hinv'].
      eexists. exists log. split; [exact Hrun |]. split; [exact Hinv' |].
      simpl. split; [lia |]. split; [lia | auto].
  - destruct (step_create log c tid th hi lo elem rest Hinv Hth Htodo Hpc)
      as (a' & log' & p & Hrun & Hinv' & Hlo & Hcur & Hnull & Htab).
    eexists. exists log'. split; [exact Hrun |]. split; [exact Hinv' |].
    simpl. rewrite Hcur. split; [lia |]. split; [lia |].
    right. exists th, hi, p. subst lo.
    split; [reflexivity |]. split; [rewrite Htodo; discriminate |].
    split; [exact Hpc |]. split; assumption.
  - destruct (step_poll log c tid th hi lo elem rest Hinv Hth Htodo Hpc)
      as (x & Hx & Hrun & Hinv').
    eexists. exists log. split; [exact Hrun |]. split; [exact Hinv' |].
    simpl. split; [lia |]. split; [lia | auto].
  - destruct (step_write log c tid th hi lo q elem rest Hinv Hth Htodo Hpc)
      as (a' & log' & Hrun & Hinv' & Hcur & Htab).
    eexists. exists log'. split; [exact Hrun |]. split; [exact Hinv' |].
    simpl. rewrite Hcur. split; [lia |]. split; [lia | auto].
  - destruct (step_inc log c tid th hi lo elem rest Hinv Hth Htodo Hpc)
      as (a' & log' & Hrun & Hinv' & Hcur & Htab).
    eexists. exists log'. split; [exact Hrun |]. split; [exact Hinv' |].
    simpl. rewrite Hcur. split; [lia |]. split; [lia | auto].
Qed.

(** No interleaving faults, and all of them keep the invariant. *)
Lemma run_schedule_inv (s : list nat) : forall log c,
  conc_inv LENGTH max all log c ->
  exists c' log',
    run_schedule ASSERT LENGTH s c = Ok c' /\ conc_inv LENGTH max all log' c' /\
    _cur_pos (shared c) <= _cur_pos (shared c').
Proof.
  induction s as [| tid s IH]; intros log c Hinv.
  - exists c, log. split; [reflexivity |]. split; [exact Hinv | lia].
  - destruct (schedule_step_inv log c tid Hinv) as (c1 & log1 & E1 & Hinv1 & Hle & _).
    destruct (IH log1 c1 Hinv1) as (c' & log' & E' & Hinv' & Hle').
    exists c', log'. simpl. rewrite E1. cbn [bind].
    split; [exact E' |]. split; [exact Hinv' | lia].
Qed.

Lemma run_schedule_app (s1 s2 : list nat) c :
  run_schedule ASSERT LENGTH (s1 ++ s2) c =
  let! c' := run_schedule ASSERT LENGTH s1 c in run_schedule ASSERT LENGTH s2 c'.
Proof.
  revert c. induction s1 as [| tid s1 IH]; intros c; simpl; [reflexivity |].
  destruct (schedule_step ASSERT LENGTH tid c); simpl; [apply IH | reflexivity].
Qed.

(** *** When all threads are through *)

Lemma published_prefix (t : list (option ptr)) (n : nat) :
  (forall i, (i < n)%nat -> exists p, t !! i = Some (Some p)) ->
  exists ps : list ptr,
    length ps = n /\ forall i, (i < n)%nat -> t !! i = Some (ps !! i).
Proof.
  induction n as [| n IH]; intros Hall.
  - exists []. split; [reflexivity |]. intros i Hi. lia.
  - destruct IH as (ps & Hlen & Hps); [intros i Hi; apply Hall; lia |].
    destruct (Hall n ltac:(lia)) as [p Hp].
    exists (ps ++ [p]). split; [rewrite length_app; simpl; lia |].
    intros i Hi. rewrite lookup_snoc. destruct (decide (i = length ps)) as [-> | Hne].
    + rewrite Hlen. exact Hp.
    + apply Hps. lia.
Qed.

Lemma filter_all {A : Type} (P : A -> Prop) `{forall x, Decision (P x)} (l : list A) :
  (forall x, x ∈ l -> P x) -> filter P l = l.
Proof.
  induction l as [| x l IH]; intros Hall; [reflexivity |].
  rewrite filter_cons. destruct (decide (P x)) as [_ | Hn].
  - f_equal. apply IH. intros y Hy. apply Hall. apply elem_of_cons. auto.
  - exfalso. apply Hn, Hall. apply list_elem_of_here.
Qed.

Lemma concat_all_nil {A : Type} (l : list (list A)) :
  (forall i x, l !! i = Some x -> x = []) -> concat l = [].
Proof.
  induction l as [| x l IH]; intros Hall; [reflexivity |]. simpl.
  rewrite (Hall 0%nat x eq_refl). simpl. apply IH.
  intros i y Hy. apply (Hall (S i) y Hy).
Qed.

Lemma quiescent_completed log c (r : nat) en :
  conc_inv LENGTH max all log c -> quiescent c ->
  log !! r = Some en -> e_fate en = Completed.
Proof.
  intros Hinv Hq Hr. destruct (e_fate en) as [tid st |] eqn:Hf; [| reflexivity].
  destruct (ci_owner _ _ _ _ _ Hinv r en tid st Hr Hf) as (th & Hth & Hcl & _).
  unfold claim_of in Hcl. rewrite (Hq tid th Hth) in Hcl. discriminate.
Qed.

(** With all threads through, the shared log satisfies the invariant of
    the log with the elements in the order of their reservations, and
    these are the elements that the threads had to add. *)
Lemma quiescent_log_inv log c :
  conc_inv LENGTH max all log c -> quiescent c ->
  exists ps,
    log_inv LENGTH max (map e_elem log) ps (shared c) /\
    Permutation (map e_elem log) all.
Proof.
  intros Hinv Hq.
  pose proof (quiescent_completed log c) as Hcomp.
  assert (Hlen : Zlen (map e_elem log) = Zlen log).
  { unfold Zlen. rewrite length_map. reflexivity. }
  assert (Hperm : Permutation (map e_elem log) all).
  { pose proof (ci_perm _ _ _ _ _ Hinv) as Hp.
    rewrite concat_all_nil, app_nil_r in Hp; [exact Hp |].
    intros i x Hx. rewrite list_lookup_fmap in Hx.
    destruct (threads c !! i) as [th |] eqn:Hth; [| discriminate].
    injection Hx as <-. unfold pending, claim_of.
    rewrite (Hq i th Hth). reflexivity. }
  assert (HR : 0 <= Zlen log <= max * LENGTH).
  { pose proof (inv_log_bound log c Hinv). unfold Zlen in *. lia. }
  set (S := segments_for LENGTH (Zlen log)).
  assert (HS : 0 <= S <= max).
  { unfold S, segments_for. split; [apply Z.div_pos; lia |].
    assert ((Zlen log + LENGTH - 1) / LENGTH < max + 1)
      by (apply Z.div_lt_upper_bound; lia). lia. }
  assert (Hbelow : forall i : nat, Z.of_nat i < S ->
            (i * Z.to_nat LENGTH < length log)%nat).
  { intros i Hi. unfold S, segments_for in Hi.
    pose proof (Z.mul_div_le (Zlen log + LENGTH - 1) LENGTH ltac:(lia)).
    unfold Zlen in *. nia. }
  assert (Habove : forall i : nat, S <= Z.of_nat i ->
            (length log <= i * Z.to_nat LENGTH)%nat).
  { intros i Hi. unfold S, segments_for in Hi.
    pose proof (Z.mod_pos_bound (Zlen log + LENGTH - 1) LENGTH ltac:(lia)).
    pose proof (Z.div_mod (Zlen log + LENGTH - 1) LENGTH ltac:(lia)).
    unfold Zlen in *. nia. }
  assert (Hpub : forall i : nat, seg_published LENGTH log i = (Z.of_nat i <? S)).
  { intros i. unfold seg_published.
    destruct (Z.ltb_spec (Z.of_nat i) S) as [Hi | Hi].
    - destruct (lookup_lt_is_Some_2 log _ (Hbelow i Hi)) as [en Hen].
      rewrite Hen, (Hcomp _ en Hinv Hq Hen). reflexivity.
    - rewrite lookup_ge_None_2 by (apply Habove; exact Hi). reflexivity. }
  destruct (published_prefix (_nodes (shared c)) (Z.to_nat S)) as (ps & Hpslen & Hps).
  { intros i Hi. pose proof (ci_table _ _ _ _ _ Hinv i ltac:(lia)) as Ht.
    rewrite Hpub in Ht. destruct (Z.ltb_spec (Z.of_nat i) S); [exact Ht | lia]. }
  assert (Htable : forall i : nat, (i < Z.to_nat max)%nat ->
            _nodes (shared c) !! i = Some (ps !! i)).
  { intros i Hi. destruct (Nat.lt_ge_cases i (Z.to_nat S)) as [Hlt | Hge].
    - apply Hps. exact Hlt.
    - pose proof (ci_table _ _ _ _ _ Hinv i Hi) as Ht. rewrite Hpub in Ht.
      destruct (Z.ltb_spec (Z.of_nat i) S); [lia |].
      rewrite Ht, lookup_ge_None_2 by lia. reflexivity. }
  assert (Hin : forall (i : nat) p, _nodes (shared c) !! i = Some (Some p) ->
            ps !! i = Some p).
  { intros i p Hi. pose proof (lookup_lt_Some _ _ _ Hi) as Hlt.
    rewrite (ci_table_len _ _ _ _ _ Hinv) in Hlt.
    rewrite (Htable i Hlt) in Hi. congruence. }
  assert (Hout : forall (i : nat) p, ps !! i = Some p ->
            _nodes (shared c) !! i = Some (Some p)).
  { intros i p Hi. pose proof (lookup_lt_Some _ _ _ Hi) as Hlt.
    rewrite Htable by lia. rewrite Hi. reflexivity. }
  exists ps. split; [| exact Hperm].
  split.
  - apply (ci_max _ _ _ _ _ Hinv).
  - rewrite Hlen. apply (ci_cur _ _ _ _ _ Hinv).
  - rewrite Hlen, (ci_num _ _ _ _ _ Hinv). rewrite filter_all; [reflexivity |].
    intros en Hen. apply list_elem_of_lookup in Hen as [r Hr].
    rewrite (Hcomp r en Hinv Hq Hr). reflexivity.
  - rewrite Hlen. fold S. unfold Zlen. lia.
  - split.
    + apply (ci_table_len _ _ _ _ _ Hinv).
    + exact Htable.
    + apply NoDup_alt. intros i j p Hi Hj.
      apply (ci_inj _ _ _ _ _ Hinv i j p); apply Hout; assumption.
    + intros p Hp. destruct (ci_dom _ _ _ _ _ Hinv p Hp) as [i Hi].
      apply list_elem_of_lookup. exists i. apply Hin. exact Hi.
    + intros i p Hi.
      destruct (ci_cells _ _ _ _ _ Hinv i p (Hout i p Hi)) as (node & Hn & Hl & Hs).
      exists node. split; [exact Hn |]. split; [exact Hl |].
      intros j Hj. rewrite (Hs j Hj). f_equal.
      unfold slot_view. rewrite list_lookup_fmap.
      destruct (log !! (i * Z.to_nat LENGTH + j)%nat) as [en |] eqn:Hen;
        [| reflexivity].
      rewrite (Hcomp _ en Hinv Hq Hen). reflexivity.
Qed.

(** *** The adds can always be completed *)

(** There is a way to schedule the threads from [c] on that completes the
    [add] thread [tid] is in, all other threads keeping their work. *)
#[local] Abbreviation finishes c tid rest :=
  (exists s c' log',
     run_schedule ASSERT LENGTH s c = Ok c' /\
     conc_inv LENGTH max all log' c' /\
     map todo (threads c') = <[tid := rest]> (map todo (threads c))).

Lemma todo_same ts tid th th' :
  ts !! tid = Some th -> todo th' = todo th ->
  map todo (<[tid := th']> ts) = map todo ts.
Proof.
  intros Hth Ht. apply list_eq. intros i. rewrite !list_lookup_fmap.
  destruct (decide (i = tid)) as [-> | Hne].
  - rewrite list_lookup_insert_eq by (apply lookup_lt_Some in Hth; exact Hth).
    rewrite Hth. simpl. congruence.
  - rewrite list_lookup_insert_ne by auto. reflexivity.
Qed.

Lemma finish_after c tid rest tid' c1 :
  schedule_step ASSERT LENGTH tid' c = Ok c1 ->
  map todo (threads c1) = map todo (threads c) ->
  finishes c1 tid rest -> finishes c tid rest.
Proof.
  intros Hstep Htodo (s & c' & log' & Hrun & Hinv & Hts).
  exists (tid' :: s), c', log'. simpl. rewrite Hstep. cbn [bind].
  split; [exact Hrun |]. split; [exact Hinv |]. rewrite Hts, Htodo. reflexivity.
Qed.

Lemma finish_inc log c tid th hi lo elem rest :
  conc_inv LENGTH max all log c ->
  threads c !! tid = Some th -> todo th = elem :: rest -> pc th = AtInc hi lo ->
  finishes c tid rest.
Proof.
  intros Hinv Hth Htodo Hpc.
  destruct (step_inc log c tid th hi lo elem rest Hinv Hth Htodo Hpc)
    as (a' & log' & Hrun & Hinv' & _).
  exists [tid]. eexists. exists log'. simpl. rewrite Hrun. cbn [bind].
  split; [reflexivity |]. split; [exact Hinv' |]. simpl.
  apply list_fmap_insert.
Qed.

Lemma finish_write log c tid th hi lo q elem rest :
  conc_inv LENGTH max all log c ->
  threads c !! tid = Some th -> todo th = elem :: rest -> pc th = AtWrite hi lo q ->
  finishes c tid rest.
Proof.
  intros Hinv Hth Htodo Hpc.
  pose proof (lookup_lt_Some _ _ _ Hth) as Hlt.
  destruct (step_write log c tid th hi lo q elem rest Hinv Hth Htodo Hpc)
    as (a' & log' & Hrun & Hinv' & _).
  apply (finish_after c tid rest tid _ Hrun).
  - simpl. apply (todo_same _ tid th); [exact Hth | reflexivity].
  - apply (finish_inc log' _ tid (mkThread (AtInc hi lo) (todo th)) hi lo elem rest Hinv').
    + simpl. apply list_lookup_insert_eq. exact Hlt.
    + exact Htodo.
    + reflexivity.
Qed.

(** A thread that finds its segment missing waits for the thread that
    reserved slot 0 of it, and that thread can take its step. *)
Lemma finish_poll log c tid th hi lo elem rest :
  conc_inv LENGTH max all log c ->
  threads c !! tid = Some th -> todo th = elem :: rest -> pc th = AtPoll hi lo ->
  finishes c tid rest.
Proof.
  intros Hinv Hth Htodo Hpc.
  pose proof (lookup_lt_Some _ _ _ Hth) as Hlt.
  (* with the segment in the table: poll, write, count *)
  assert (Hthere : forall log1 c1 q,
            conc_inv LENGTH max all log1 c1 ->
            threads c1 !! tid = Some th ->
            _nodes (shared c1) !! Z.to_nat hi = Some (Some q) ->
            finishes c1 tid rest).
  { intros log1 c1 q Hinv1 Hth1 Hq.
    pose proof (lookup_lt_Some _ _ _ Hth1) as Hlt1.
    destruct (step_poll log1 c1 tid th hi lo elem rest Hinv1 Hth1 Htodo Hpc)
      as (x & Hx & Hrun & Hinv').
    assert (x = Some q) by congruence. subst x. cbv zeta in Hrun, Hinv'.
    apply (finish_after c1 tid rest tid _ Hrun).
    - simpl. apply (todo_same _ tid th); [exact Hth1 | reflexivity].
    - apply (finish_write log1 _ tid (mkThread (AtWrite hi lo q) (todo th))
               hi lo q elem rest Hinv').
      + simpl. apply list_lookup_insert_eq. exact Hlt1.
      + exact Htodo.
      + reflexivity. }
  assert (Hcl : claim_of th = Some (hi, lo, Reserved)).
  { unfold claim_of. rewrite Htodo, Hpc. reflexivity. }
  destruct (claim_entry log c tid th hi lo Reserved elem rest Hinv Hth Htodo Hcl)
    as (r & en & Hr & Hf & Hel & Ehi & Elo & Hhi & Hlo & Hh & Hsplit).
  pose proof (lookup_lt_Some _ _ _ Hr) as Hrlt.
  set (h := Z.to_nat hi) in *.
  pose proof (ci_table _ _ _ _ _ Hinv h ltac:(lia)) as Ht.
  destruct (seg_published LENGTH log h) eqn:Hpub.
  { destruct Ht as [q Hq]. apply (Hthere log c q Hinv Hth Hq). }
  (* the segment is missing: its slot 0 is reserved and unpublished *)
  unfold seg_published in Hpub.
  destruct (lookup_lt_is_Some_2 log (h * Z.to_nat LENGTH)%nat ltac:(lia)) as [en0 Hen0].
  rewrite Hen0 in Hpub.
  destruct (e_fate en0) as [tid2 st2 |] eqn:Hf0; [| discriminate].
  destruct st2; try discriminate.
  destruct (ci_owner _ _ _ _ _ Hinv _ en0 tid2 Unpublished Hen0 Hf0)
    as (th2 & Hth2 & Hcl2 & Hhd2).
  assert (Hne : tid2 <> tid) by (intros ->; congruence).
  destruct (todo th2) as [| elem2 rest2] eqn:Htodo2; [discriminate |].
  assert (Hpc2 : exists lo2, pc th2 = AtCreate hi lo2).
  { unfold claim_of in Hcl2. rewrite Htodo2 in Hcl2.
    destruct (pc th2); try discriminate.
    injection Hcl2 as E1 E2. eexists. f_equal.
    rewrite E1. rewrite Nat2Z.inj_mul, Z2Nat.id by lia.
    unfold h. rewrite Z2Nat.id by lia. apply Z.div_mul. lia. }
  destruct Hpc2 as [lo2 Hpc2].
  destruct (step_create log c tid2 th2 hi lo2 elem2 rest2 Hinv Hth2 Htodo2 Hpc2)
    as (a1 & log1 & p & Hrun1 & Hinv1 & _ & _ & _ & Htab1).
  apply (finish_after c tid rest tid2 _ Hrun1).
  - simpl. apply (todo_same _ tid2 th2); [exact Hth2 | reflexivity].
  - apply (Hthere log1 _ p Hinv1).
    + simpl. rewrite list_lookup_insert_ne by auto. exact Hth.
    + simpl. rewrite Htab1. apply list_lookup_insert_eq.
      rewrite (ci_table_len _ _ _ _ _ Hinv). lia.
Qed.

Lemma finish_create log c tid th hi lo elem rest :
  conc_inv LENGTH max all log c ->
  threads c !! tid = Some th -> todo th = elem :: rest -> pc th = AtCreate hi lo ->
  finishes c tid rest.
Proof.
  intros Hinv Hth Htodo Hpc.
  pose proof (lookup_lt_Some _ _ _ Hth) as Hlt.
  destruct (step_create log c tid th hi lo elem rest Hinv Hth Htodo Hpc)
    as (a' & log' & p & Hrun & Hinv' & _).
  apply (finish_after c tid rest tid _ Hrun).
  - simpl. apply (todo_same _ tid th); [exact Hth | reflexivity].
  - apply (finish_poll log' _ tid (mkThread (AtPoll hi lo) (todo th)) hi lo elem rest Hinv').
    + simpl. apply list_lookup_insert_eq. exact Hlt.
    + exact Htodo.
    + reflexivity.
Qed.

Lemma finish_cmpxchg_won log c tid th elem rest :
  conc_inv LENGTH max all log c ->
  threads c !! tid = Some th -> todo th = elem :: rest ->
  pc th = AtCmpxchg (_cur_pos (shared c)) ->
  finishes c tid rest.
Proof.
  intros Hinv Hth Htodo Hpc.
  pose proof (lookup_lt_Some _ _ _ Hth) as Hlt.
  destruct (step_cmpxchg_won log c tid th elem rest Hinv Hth Htodo Hpc)
    as (a' & Hrun & Hinv' & _).
  cbv zeta in Hrun, Hinv'.
  apply (finish_after c tid rest tid _ Hrun).
  - simpl. apply (todo_same _ tid th); [exact Hth | reflexivity].
  - destruct (Zlen log mod LENGTH =? 0).
    + eapply (finish_create _ _ tid _ _ _ elem rest Hinv').
      * simpl. apply list_lookup_insert_eq. exact Hlt.
      * exact Htodo.
      * reflexivity.
    + eapply (finish_poll _ _ tid _ _ _ elem rest Hinv').
      * simpl. apply list_lookup_insert_eq. exact Hlt.
      * exact Htodo.
      * reflexivity.
Qed.

Lemma finish_load log c tid th elem rest :
  conc_inv LENGTH max all log c ->
  threads c !! tid = Some th -> todo th = elem :: rest -> pc th = AtLoad ->
  finishes c tid rest.
Proof.
  intros Hinv Hth Htodo Hpc.
  pose proof (lookup_lt_Some _ _ _ Hth) as Hlt.
  destruct (step_load log c tid th elem rest Hinv Hth Htodo Hpc) as [Hrun Hinv'].
  cbv zeta in Hrun, Hinv'.
  apply (finish_after c tid rest tid _ Hrun).
  - simpl. apply (todo_same _ tid th); [exact Hth | reflexivity].
  - eapply (finish_cmpxchg_won log _ tid _ elem rest Hinv').
    + simpl. apply list_lookup_insert_eq. exact Hlt.
    + exact Htodo.
    + reflexivity.
Qed.

(** Wherever a thread is inside [add], its [add] can be completed. *)
Lemma finish_add log c tid th elem rest :
  conc_inv LENGTH max all log c ->
  threads c !! tid = Some th -> todo th = elem :: rest ->
  finishes c tid rest.
Proof.
  intros Hinv Hth Htodo.
  pose proof (lookup_lt_Some _ _ _ Hth) as Hlt.
  destruct (pc th) as [| pos | hi lo | hi lo | hi lo q | hi lo] eqn:Hpc.
  - apply (finish_load log c tid th elem rest Hinv Hth Htodo Hpc).
  - destruct (Z.eq_dec (_cur_pos (shared c)) pos) as [E | E].
    + subst pos. apply (finish_cmpxchg_won log c tid th elem rest Hinv Hth Htodo Hpc).
    + destruct (step_cmpxchg_lost log c tid th pos elem rest Hinv Hth Htodo Hpc E)
        as [Hrun Hinv'].
      cbv zeta in Hrun, Hinv'.
      apply (finish_after c tid rest tid _ Hrun).
      * simpl. apply (todo_same _ tid th); [exact Hth | reflexivity].
      * eapply (finish_load log _ tid _ elem rest Hinv').
        -- simpl. apply list_lookup_insert_eq. exact Hlt.
        -- exact Htodo.
        -- reflexivity.
  - apply (finish_create log c tid th hi lo elem rest Hinv Hth Htodo Hpc).
  - apply (finish_poll log c tid th hi lo elem rest Hinv Hth Htodo Hpc).
  - apply (finish_write log c tid th hi lo q elem rest Hinv Hth Htodo Hpc).
  - apply (finish_inc log c tid th hi lo elem rest Hinv Hth Htodo Hpc).
Qed.

Lemma some_work {A : Type} (l : list (list A)) :
  (forall i x, l !! i = Some x -> x = []) \/
  (exists i e rest, l !! i = Some (e :: rest)).
Proof.
  induction l as [| x l IH].
  - left. intros i y Hy. discriminate.
  - destruct x as [| e rest]; [| right; exists 0%nat, e, rest; reflexivity].
    destruct IH as [Hnone | (i & e & rest & Hi)].
    + left. intros [| i] y Hy; [injection Hy as <-; reflexivity |].
      apply (Hnone i y Hy).
    + right. exists (S i), e, rest. exact Hi.
Qed.

Lemma concat_insert_tail {A : Type} (l : list (list A)) (i : nat) e rest :
  l !! i = Some (e :: rest) ->
  S (length (concat (<[i := rest]> l))) = length (concat l).
Proof.
  intros Hi. rewrite <- (take_drop_middle l i _ Hi) at 2.
  rewrite insert_take_drop by (apply lookup_lt_Some in Hi; exact Hi).
  rewrite !concat_app, !length_app. simpl. rewrite !length_app. simpl. lia.
Qed.

(** From every configuration of a run the threads can be scheduled so that
    all of them complete: no thread waits for ever. *)
Lemma reach_quiescence (n : nat) : forall log c,
  conc_inv LENGTH max all log c ->
  length (concat (map todo (threads c))) = n ->
  exists s c' log',
    run_schedule ASSERT LENGTH s c = Ok c' /\
    conc_inv LENGTH max all log' c' /\ quiescent c'.
Proof.
  induction n as [| n IH]; intros log c Hinv Hn.
  - exists [], c, log. split; [reflexivity |]. split; [exact Hinv |].
    intros tid th Hth.
    destruct (todo th) as [| e rest] eqn:Htodo; [reflexivity |]. exfalso.
    assert (Hi : map todo (threads c) !! tid = Some (e :: rest)).
    { rewrite list_lookup_fmap, Hth. simpl. congruence. }
    pose proof (concat_insert_tail _ tid e rest Hi). lia.
  - destruct (some_work (map todo (threads c))) as [Hnone | (tid & e & rest & Hi)].
    { rewrite (concat_all_nil _ Hnone) in Hn. discriminate. }
    pose proof Hi as Hi'. rewrite list_lookup_fmap in Hi'.
    destruct (threads c !! tid) as [th |] eqn:Hth; [| discriminate].
    injection Hi' as Htodo.
    destruct (finish_add log c tid th e rest Hinv Hth Htodo)
      as (s1 & c1 & log1 & Hrun1 & Hinv1 & Hts1).
    destruct (IH log1 c1 Hinv1) as (s2 & c2 & log2 & Hrun2 & Hinv2 & Hq).
    { rewrite Hts1. pose proof (concat_insert_tail _ tid e rest Hi). lia. }
    exists (s1 ++ s2), c2, log2. rewrite run_schedule_app, Hrun1. cbn [bind].
    auto.
Qed.

End ConcurrentInvariant.



(** ** The log under concurrent insertion *)

(** Any number of threads, any interleaving: no step faults; when all the
    [add]s are complete the log holds the added elements in the order of
    their reservations; and the [add]s can always be completed. *)
Lemma adds_interleaved (ASSERT : bool) (LENGTH : Z) (Elem : Type)
    (max : Z) (todos : list (list Elem)) (s : list nat) :
  0 < LENGTH < 2 ^ 32 -> 0 <= max < 2 ^ 32 ->
  Zlen (concat todos) < max * LENGTH ->
  exists c,
    run_schedule ASSERT LENGTH s (start max todos) = Ok c /\
    (quiescent c ->
       exists es, Permutation es (concat todos) /\
         log_holds ASSERT LENGTH (shared c) es) /\
    (exists s' c',
       run_schedule ASSERT LENGTH s' c = Ok c' /\ quiescent c').
Proof.
  intros HL Hmax Hcap.
  assert (Hcap' : Zlen (concat todos) <= max * LENGTH) by lia.
  pose proof (start_inv LENGTH Elem max (concat todos) HL Hmax Hcap' todos eq_refl)
    as Hstart.
  destruct (run_schedule_inv ASSERT LENGTH Elem max (concat todos) HL Hmax Hcap'
              s [] (start max todos) Hstart) as (c & log & Hrun & Hinv & _).
  exists c. split; [exact Hrun |]. split.
  - intros Hq.
    destruct (quiescent_log_inv LENGTH Elem max (concat todos) HL Hmax Hcap'
                log c Hinv Hq) as (ps & Hlog & Hperm).
    exists (map e_elem log). split; [exact Hperm |].
    apply (log_inv_holds ASSERT LENGTH Elem max _ ps (shared c) HL Hmax Hlog).
    apply Permutation_length in Hperm. unfold Zlen in *. lia.
  - destruct (reach_quiescence ASSERT LENGTH Elem max (concat todos) HL Hmax Hcap'
                _ log c Hinv eq_refl) as (s' & c' & _ & Hrun' & _ & Hq').
    exists s', c'. auto.
Qed.

(** C1: objects of the tracker's region are recorded, in any order and any
    number of times each, fewer of them than the log has slots, by one
    thread or by worker threads in any interleaving; when the recording is
    complete one [iterate] calls the closure on the distinct recorded
    objects, each exactly once, in strictly ascending address order. No
    interleaving of the worker threads faults, and from each of them the
    recording can be completed. *)
Theorem iterate_visits_each_object_once_ascending (ASSERT : bool)
    (w max region_idx bottom : Z) (objss : list (list Z)) (s : list nat) :
  0 <= w <= 32 -> 0 <= max < 2 ^ 32 -> 0 <= bottom ->
  (forall obj, obj ∈ concat objss ->
     in_region obj (Tracker_new w max region_idx bottom)) ->
  Zlen (concat objss) < max * NODE_LENGTH ->
  (exists t visited,
     record_all ASSERT (concat objss) (Tracker_new w max region_idx bottom) = Ok t /\
     visited_objects ASSERT t = Ok visited /\
     StronglySorted Z.lt visited /\
     NoDup visited /\
     (forall obj, obj ∈ visited <-> obj ∈ concat objss) /\
     (forall (V : Type) (do_object : Z -> V -> V) (v : V),
        iterate ASSERT do_object v t =
        Ok (fold_left (fun v obj => do_object obj v) visited v))) /\
  (exists c0 c,
     start_recording ASSERT objss (Tracker_new w max region_idx bottom) = Ok c0 /\
     run_schedule ASSERT NODE_LENGTH s c0 = Ok c /\
     (quiescent c ->
        exists visited,
          visited_objects ASSERT
            (set_nodes_array (shared c) (Tracker_new w max region_idx bottom))
            = Ok visited /\
          StronglySorted Z.lt visited /\
          NoDup visited /\
          (forall obj, obj ∈ visited <-> obj ∈ concat objss)) /\
     (exists s' c',
        run_schedule ASSERT NODE_LENGTH s' c = Ok c' /\ quiescent c')).
Proof.
  intros Hw Hmax Hb Hin Hcap.
  set (t0 := Tracker_new w max region_idx bottom) in *.
  set (todos := map (map (fun obj => offset_of obj t0)) objss).
  assert (HL : 0 < NODE_LENGTH < 2 ^ 32) by (unfold NODE_LENGTH; lia).
  assert (Hoffs : concat todos = map (fun obj => offset_of obj t0) (concat objss)).
  { unfold todos. clear. induction objss as [| objs objss IH]; simpl; [reflexivity |].
    rewrite map_app, IH. reflexivity. }
  assert (Hlen : Zlen (concat todos) = Zlen (concat objss)).
  { rewrite Hoffs. unfold Zlen. rewrite length_map. reflexivity. }
  split.
  - destruct (add_all_holds ASSERT NODE_LENGTH Z max (concat todos) HL Hmax ltac:(lia))
      as (a & Hrun & Hholds).
    destruct Hholds as (_ & _ & _ & _ & Hreplay & _).
    exists (set_nodes_array a t0).
    destruct (iterate_of_replay ASSERT (set_nodes_array a t0) (concat todos)
                (concat objss) Hb Hin Hreplay) as (visited & Hv).
    { intros offset. rewrite Hoffs. reflexivity. }
    exists visited. split; [| exact Hv].
    rewrite (record_all_add_all ASSERT w (concat objss) t0 Hw eq_refl Hb Hin).
    rewrite <- Hoffs. change (_nodes_array t0) with (Array_new (Elem := Z) max).
    rewrite Hrun. reflexivity.
  - destruct (adds_interleaved ASSERT NODE_LENGTH Z max todos s HL Hmax ltac:(lia))
      as (c & Hrun & Hq & Hfin).
    exists (start max todos), c.
    split; [apply (start_recording_in_region ASSERT w objss t0 Hw eq_refl Hb Hin) |].
    split; [exact Hrun |]. split; [| exact Hfin].
    intros Hquiet. destruct (Hq Hquiet) as (es & Hperm & Hholds).
    destruct Hholds as (_ & _ & _ & _ & Hreplay & _).
    destruct (iterate_of_replay ASSERT (set_nodes_array (shared c) t0) es
                (concat objss) Hb Hin Hreplay) as (visited & H1 & H2 & H3 & H4 & _).
    { intros offset.
      change (offset ∈ es <->
              offset ∈ map (fun obj => offset_of obj t0) (concat objss)).
      rewrite <- Hoffs. split; intros Ho.
      - apply list_elem_of_In. apply (Permutation_in _ Hperm).
        apply list_elem_of_In. exact Ho.
      - apply list_elem_of_In. apply (Permutation_in _ (Permutation_sym Hperm)).
        apply list_elem_of_In. exact Ho. }
    exists visited. auto.
Qed.

(** Witness of [iterate_visits_each_object_once_ascending]: two worker
    threads and the objects at word offsets 5, 5000, 12 and 5 again. *)
Lemma iterate_visits_each_object_once_ascending_witness :
  let objss := [[0x10000 + 8 * 5; 0x10000 + 8 * 5000];
                [0x10000 + 8 * 12; 0x10000 + 8 * 5]] in
  let s := [0; 1; 1; 0; 1; 0; 0; 1]%nat in
  (exists t visited,
     record_all true (concat objss) (Tracker_new 20 16 0 0x10000) = Ok t /\
     visited_objects true t = Ok visited /\
     StronglySorted Z.lt visited /\
     NoDup visited /\
     (forall obj, obj ∈ visited <-> obj ∈ concat objss) /\
     (forall (V : Type) (do_object : Z -> V -> V) (v : V),
        iterate true do_object v t =
        Ok (fold_left (fun v obj => do_object obj v) visited v))) /\
  (exists c0 c,
     start_recording true objss (Tracker_new 20 16 0 0x10000) = Ok c0 /\
     run_schedule true NODE_LENGTH s c0 = Ok c /\
     (quiescent c ->
        exists visited,
          visited_objects true
            (set_nodes_array (shared c) (Tracker_new 20 16 0 0x10000))
            = Ok visited /\
          StronglySorted Z.lt visited /\
          NoDup visited /\
          (forall obj, obj ∈ visited <-> obj ∈ concat objss)) /\
     (exists s' c',
        run_schedule true NODE_LENGTH s' c = Ok c' /\ quiescent c')).
Proof.
  apply (iterate_visits_each_object_once_ascending true 20 16 0 0x10000).
  - lia.
  - lia.
  - lia.
  - intros obj Hobj. unfold in_region, HeapWordSize. simpl in Hobj.
    rewrite !elem_of_cons, elem_of_nil in Hobj.
    destruct Hobj as [-> | [-> | [-> | [-> | []]]]];
      vm_compute; repeat split; congruence.
  - vm_compute. reflexivity.
Defined.

(** Two worker threads record the objects of the spec's example, taking
    turns; the replay is the same three objects in ascending order. *)
Example two_workers_recording :
  let base := 0x10000 in
  (let! c0 := start_recording true [[base + 8 * 5; base + 8 * 5000];
                                    [base + 8 * 12; base + 8 * 5]]
                (Tracker_new 20 16 0 base) in
   let! c := run_schedule true NODE_LENGTH (concat (replicate 12 [0; 1]%nat)) c0 in
   visited_objects true (set_nodes_array (shared c) (Tracker_new 20 16 0 base)))
  = Ok [base + 8 * 5; base + 8 * 12; base + 8 * 5000].
Proof. vm_compute. reflexivity. Qed.

(** C2: the elements [e1 .. eM], [M] strictly below
    [max segments * LENGTH], are added, by one thread or by any number of
    threads in any interleaving. When the [add]s are complete the count is
    [M] modulo [2^32] and the log holds the [M] elements, each once, laid
    out segment after segment and slot after slot (in the order of
    insertion when one thread adds them, in the order of the reservations
    otherwise); [iterate_elements] visits exactly these [M] elements in that
    order, the full segments in full and the last up to the cursor's slot.
    No interleaving faults, and from every interleaving the [add]s can be
    completed. *)
Theorem adds_then_replay (ASSERT : bool) (LENGTH : Z) (Elem : Type)
    (max : Z) (todos : list (list Elem)) (s : list nat) :
  0 < LENGTH < 2 ^ 32 -> 0 <= max < 2 ^ 32 ->
  Zlen (concat todos) < max * LENGTH ->
  (exists a,
     add_all ASSERT LENGTH (concat todos) (Array_new max) = Ok a /\
     log_holds ASSERT LENGTH a (concat todos)) /\
  (exists c,
     run_schedule ASSERT LENGTH s (start max todos) = Ok c /\
     (quiescent c ->
        exists es, Permutation es (concat todos) /\
          log_holds ASSERT LENGTH (shared c) es) /\
     (exists s' c',
        run_schedule ASSERT LENGTH s' c = Ok c' /\ quiescent c')).
Proof.
  intros HL Hmax Hcap. split.
  - apply (add_all_holds ASSERT LENGTH Elem max (concat todos) HL Hmax Hcap).
  - apply (adds_interleaved ASSERT LENGTH Elem max todos s HL Hmax Hcap).
Qed.

(** Witness of [adds_then_replay]: three threads with five elements each,
    segments of four slots, the threads taking turns for a while. *)
Lemma adds_then_replay_witness :
  let todos := [[1; 2; 3; 4; 5]; [6; 7; 8; 9; 10]; [11; 12; 13; 14; 15]] in
  let s := [0; 1; 2; 0; 1; 2; 0; 1; 2; 0; 1; 2]%nat in
  (exists a,
     add_all true 4 (concat todos) (Array_new 5) = Ok a /\
     log_holds true 4 a (concat todos)) /\
  (exists c,
     run_schedule true 4 s (start 5 todos) = Ok c /\
     (quiescent c ->
        exists es, Permutation es (concat todos) /\
          log_holds true 4 (shared c) es) /\
     (exists s' c',
        run_schedule true 4 s' c = Ok c' /\ quiescent c')).
Proof.
  apply (adds_then_replay true 4 Z 5); [lia | lia | vm_compute; reflexivity].
Defined.

(** The scenario of three threads with five elements each, the threads
    taking turns until all are through: 15 elements counted, four segments
    in a table of five, and a replay of the 15 elements. *)
Example three_threads_taking_turns :
  let todos := [[1; 2; 3; 4; 5]; [6; 7; 8; 9; 10]; [11; 12; 13; 14; 15]] in
  exists c,
    run_schedule true 4 (concat (replicate 40 [0; 1; 2]%nat)) (start 5 todos) = Ok c /\
    map todo (threads c) = [[]; []; []] /\
    objs_num (shared c) = 15 /\
    map (fun p : option ptr => match p with Some _ => true | None => false end)
      (_nodes (shared c))
      = [true; true; true; true; false] /\
    replay true 4 (shared c) =
      Ok [1; 6; 11; 2; 7; 12; 3; 8; 13; 4; 9; 14; 5; 10; 15].
Proof.
  eexists. split; [vm_compute; reflexivity |].
  split; [vm_compute; reflexivity |]. split; [vm_compute; reflexivity |].
  split; vm_compute; reflexivity.
Qed.

(** C3: a table entry goes from NULL to non-NULL in one place only, the
    step of the [add] that reserved slot 0 of that segment, which allocates
    the segment and stores it into the (NULL) entry; no other step of any
    thread changes the table. After [M] completed [add]s exactly the first
    [ceil(M / LENGTH)] entries are non-NULL and the others are NULL. This
    holds for one thread and for any interleaving of several. *)
Theorem segment_table_after_adds (ASSERT : bool) (LENGTH : Z) (Elem : Type)
    (max : Z) (todos : list (list Elem)) (s : list nat) (tid : nat) :
  0 < LENGTH < 2 ^ 32 -> 0 <= max < 2 ^ 32 ->
  Zlen (concat todos) <= max * LENGTH ->
  let M := Zlen (concat todos) in
  (exists a,
     add_all ASSERT LENGTH (concat todos) (Array_new max) = Ok a /\
     table_holds a (segments_for LENGTH M) /\
     (forall e, M < max * LENGTH ->
        exists a',
          add ASSERT LENGTH e a = Ok a' /\
          (M mod LENGTH = 0 ->
             _nodes a !! Z.to_nat (M / LENGTH) = Some None /\
             exists p, _nodes a' = <[Z.to_nat (M / LENGTH) := Some p]> (_nodes a)) /\
          (M mod LENGTH <> 0 -> _nodes a' = _nodes a))) /\
  (exists c c',
     run_schedule ASSERT LENGTH s (start max todos) = Ok c /\
     schedule_step ASSERT LENGTH tid c = Ok c' /\
     (_nodes (shared c') = _nodes (shared c) \/
      exists th hi p,
        threads c !! tid = Some th /\ todo th <> [] /\ pc th = AtCreate hi 0 /\
        _nodes (shared c) !! Z.to_nat hi = Some None /\
        _nodes (shared c') = <[Z.to_nat hi := Some p]> (_nodes (shared c))) /\
     (quiescent c -> table_holds (shared c) (segments_for LENGTH M))).
Proof.
  intros HL Hmax Hcap M. split.
  - apply (table_after_add_all ASSERT LENGTH Elem max (concat todos) HL Hmax Hcap).
  - pose proof (start_inv LENGTH Elem max (concat todos) HL Hmax Hcap todos eq_refl)
      as Hstart.
    destruct (run_schedule_inv ASSERT LENGTH Elem max (concat todos) HL Hmax Hcap
                s [] (start max todos) Hstart) as (c & log & Hrun & Hinv & _).
    destruct (schedule_step_inv ASSERT LENGTH Elem max (concat todos) HL Hmax Hcap
                log c tid Hinv) as (c' & log' & Hstep & _ & _ & _ & Htab).
    exists c, c'. split; [exact Hrun |]. split; [exact Hstep |].
    split; [exact Htab |].
    intros Hq.
    destruct (quiescent_log_inv LENGTH Elem max (concat todos) HL Hmax Hcap
                log c Hinv Hq) as (ps & Hlog & Hperm).
    pose proof (log_inv_table LENGTH Elem max _ ps (shared c) Hlog) as Ht.
    replace (Zlen (map e_elem log)) with M in Ht; [exact Ht |].
    apply Permutation_length in Hperm. unfold M, Zlen. lia.
Qed.

(** Witness of [segment_table_after_adds]: three threads, 15 elements. *)
Lemma segment_table_after_adds_witness :
  let todos := [[1; 2; 3; 4; 5]; [6; 7; 8; 9; 10]; [11; 12; 13; 14; 15]] in
  let s := [0; 1; 2; 0; 1; 2; 0; 1; 2; 0; 1; 2]%nat in
  let M := Zlen (concat todos) in
  (exists a,
     add_all true 4 (concat todos) (Array_new 5) = Ok a /\
     table_holds a (segments_for 4 M) /\
     (forall e, M < 5 * 4 ->
        exists a',
          add true 4 e a = Ok a' /\
          (M mod 4 = 0 ->
             _nodes a !! Z.to_nat (M / 4) = Some None /\
             exists p, _nodes a' = <[Z.to_nat (M / 4) := Some p]> (_nodes a)) /\
          (M mod 4 <> 0 -> _nodes a' = _nodes a))) /\
  (exists c c',
     run_schedule true 4 s (start 5 todos) = Ok c /\
     schedule_step true 4 0 c = Ok c' /\
     (_nodes (shared c') = _nodes (shared c) \/
      exists th hi p,
        threads c !! 0%nat = Some th /\ todo th <> [] /\ pc th = AtCreate hi 0 /\
        _nodes (shared c) !! Z.to_nat hi = Some None /\
        _nodes (shared c') = <[Z.to_nat hi := Some p]> (_nodes (shared c))) /\
     (quiescent c -> table_holds (shared c) (segments_for 4 M))).
Proof.
  apply (segment_table_after_adds true 4 Z 5); [lia | lia | vm_compute; discriminate].
Defined.

(** C9: the successor function is strictly increasing on valid cursors (it
    yields the next larger one); an [add] that completes replaces the
    cursor by its successor; no operation other than [reset] lowers the
    cursor of a reachable log; and in every interleaving of threads inside
    [add] no step lowers the cursor, the only step that changes it being
    the exchange that replaces it by its successor. *)
Theorem cursor_never_decreases (ASSERT : bool) (LENGTH : Z) (Elem : Type)
    (max : Z) (a a' : Array Elem) (op : operation Elem) (n : Z)
    (todos : list (list Elem)) (s : list nat) (tid : nat) :
  0 < LENGTH < 2 ^ 32 -> 0 <= max < 2 ^ 32 ->
  reachable ASSERT LENGTH max a ->
  op <> OpReset ->
  run_operation ASSERT LENGTH op a = Ok a' ->
  valid_cursor LENGTH n ->
  Zlen (concat todos) <= max * LENGTH ->
  _cur_pos a <= _cur_pos a' /\
  (forall e, op = OpAdd e ->
     valid_cursor LENGTH (_cur_pos a) /\
     next ASSERT LENGTH (_cur_pos a) = Ok (_cur_pos a') /\
     _cur_pos a < _cur_pos a') /\
  (exists n', next ASSERT LENGTH n = Ok n' /\ n < n' /\
     forall m, valid_cursor LENGTH m -> n < m -> n' <= m) /\
  (exists c c',
     run_schedule ASSERT LENGTH s (start max todos) = Ok c /\
     schedule_step ASSERT LENGTH tid c = Ok c' /\
     _cur_pos (shared (start max todos)) <= _cur_pos (shared c) /\
     _cur_pos (shared c) <= _cur_pos (shared c') /\
     (_cur_pos (shared c) < _cur_pos (shared c') ->
        next ASSERT LENGTH (_cur_pos (shared c)) = Ok (_cur_pos (shared c')))).
Proof.
  intros HL Hmax Hreach Hop Hrun Hn Hcap.
  destruct (cursor_across_operations ASSERT LENGTH Elem max a a' op n
              HL Hmax Hreach Hop Hrun Hn) as (H1 & H2 & H3).
  split; [exact H1 |]. split; [exact H2 |]. split; [exact H3 |].
  pose proof (start_inv LENGTH Elem max (concat todos) HL Hmax Hcap todos eq_refl)
    as Hstart.
  destruct (run_schedule_inv ASSERT LENGTH Elem max (concat todos) HL Hmax Hcap
              s [] (start max todos) Hstart) as (c & log & Hrun' & Hinv & Hle).
  destruct (schedule_step_inv ASSERT LENGTH Elem max (concat todos) HL Hmax Hcap
              log c tid Hinv) as (c' & log' & Hstep & _ & Hle' & Hnext & _).
  exists c, c'. auto.
Qed.

(** Witness of [cursor_never_decreases]: the first [add] on a new log, and
    three threads. *)
Lemma cursor_never_decreases_witness :
  let todos := [[1; 2; 3; 4; 5]; [6; 7; 8; 9; 10]; [11; 12; 13; 14; 15]] in
  let s := [0; 1; 2; 0; 1; 2; 0; 1; 2; 0; 1; 2]%nat in
  exists a' : Array Z,
    run_operation true 4 (OpAdd 7) (Array_new 5) = Ok a' /\
    _cur_pos (Array_new (Elem := Z) 5) <= _cur_pos a' /\
    (forall e, OpAdd 7 = OpAdd e ->
       valid_cursor 4 (_cur_pos (Array_new (Elem := Z) 5)) /\
       next true 4 (_cur_pos (Array_new (Elem := Z) 5)) = Ok (_cur_pos a') /\
       _cur_pos (Array_new (Elem := Z) 5) < _cur_pos a') /\
    (exists n', next true 4 0 = Ok n' /\ 0 < n' /\
       forall m, valid_cursor 4 m -> 0 < m -> n' <= m) /\
    (exists c c',
       run_schedule true 4 s (start 5 todos) = Ok c /\
       schedule_step true 4 1 c = Ok c' /\
       _cur_pos (shared (start 5 todos)) <= _cur_pos (shared c) /\
       _cur_pos (shared c) <= _cur_pos (shared c') /\
       (_cur_pos (shared c) < _cur_pos (shared c') ->
          next true 4 (_cur_pos (shared c)) = Ok (_cur_pos (shared c')))).
Proof.
  intros todos s.
  eexists. split; [vm_compute; reflexivity |].
  apply (cursor_never_decreases true 4 Z 5 (Array_new 5) _ (OpAdd 7) 0 todos s 1%nat).
  - lia.
  - lia.
  - exists []. reflexivity.
  - discriminate.
  - vm_compute. reflexivity.
  - vm_compute. repeat split; congruence.
  - vm_compute. discriminate.
Defined.

(** * Further properties of the code *)

(** ** The cursor word *)

(** X1: the two fields of a cursor. For a [uint64_t] [n] the slot field is
    [n mod 2^32] and the segment field [n / 2^32]; the fields put together
    again with [hi | lo], as [next] does, give [n] back; the detour of the
    traversals through a signed [int64_t] loses nothing; and a cursor made
    of the fields [hi] and [lo] reads back as [hi] and [lo]. *)
Theorem cursor_fields (n hi lo : Z) :
  0 <= n < 2 ^ 64 -> 0 <= hi < 2 ^ 32 -> 0 <= lo < 2 ^ 32 ->
  low n = n mod 2 ^ 32 /\
  node_index n = n / 2 ^ 32 /\
  Z.lor (high n) (low n) = n /\
  uint64 (int64 n) = n /\
  node_index (Z.lor (Z.shiftl hi 32) lo) = hi /\
  low (Z.lor (Z.shiftl hi 32) lo) = lo.
Proof.
  intros Hn Hhi Hlo.
  split; [apply low_mod |].
  split; [apply node_index_div; exact Hn |].
  split.
  { unfold high, low. rewrite lor_disjoint_add by apply land_masks_disjoint.
    apply (high_plus_low n Hn). }
  split; [apply int64_uint64; exact Hn |].
  rewrite Z.shiftl_mul_pow2 by lia. rewrite (Z.mul_comm hi).
  rewrite lor_pack by lia.
  split; [apply node_index_pack; lia | apply low_pack; lia].
Qed.

(** Witness of [cursor_fields]: segment 3, slot 255. *)
Lemma cursor_fields_witness :
  low 0x3000000FF = 0x3000000FF mod 2 ^ 32 /\
  node_index 0x3000000FF = 0x3000000FF / 2 ^ 32 /\
  Z.lor (high 0x3000000FF) (low 0x3000000FF) = 0x3000000FF /\
  uint64 (int64 0x3000000FF) = 0x3000000FF /\
  node_index (Z.lor (Z.shiftl 3 32) 255) = 3 /\
  low (Z.lor (Z.shiftl 3 32) 255) = 255.
Proof.
  apply (cursor_fields 0x3000000FF 3 255); lia.
Defined.

(** X2: [next] applied [k] times to the cursor of a new log is the cursor
    of position [k]: segment [k / LENGTH], slot [k mod LENGTH]. None of
    the asserts of [next] fires on the way, as long as the segment index
    stays below [2^32 - 1]. *)
Theorem next_counts_positions (ASSERT : bool) (LENGTH : Z) (k : nat) :
  0 < LENGTH < 2 ^ 32 ->
  Z.of_nat k <= (2 ^ 32 - 1) * LENGTH ->
  next_times ASSERT LENGTH k 0 =
  Ok (pack (Z.of_nat k / LENGTH) (Z.of_nat k mod LENGTH)).
Proof.
  intros HL Hk.
  assert (G : forall k (m : nat),
            Z.of_nat m + Z.of_nat k <= (2 ^ 32 - 1) * LENGTH ->
            next_times ASSERT LENGTH k
              (pack (Z.of_nat m / LENGTH) (Z.of_nat m mod LENGTH)) =
            Ok (pack ((Z.of_nat m + Z.of_nat k) / LENGTH)
                     ((Z.of_nat m + Z.of_nat k) mod LENGTH))).
  { clear k Hk. induction k as [| k IH]; intros m Hm.
    - simpl. rewrite Z.add_0_r. reflexivity.
    - cbn [next_times].
      pose proof (Z.mod_pos_bound (Z.of_nat m) LENGTH ltac:(lia)) as Hlo.
      assert (Hhi : 0 <= Z.of_nat m / LENGTH < 2 ^ 32 - 1).
      { split; [apply Z.div_pos; lia |].
        apply Z.div_lt_upper_bound; lia. }
      rewrite (next_pack ASSERT LENGTH ltac:(lia)) by lia. cbn [bind].
      replace (Z.of_nat m + Z.of_nat (S k)) with (Z.of_nat (S m) + Z.of_nat k) by lia.
      rewrite <- (IH (S m)) by lia. f_equal.
      replace (Z.of_nat (S m)) with (Z.of_nat m + 1) by lia.
      destruct (Z.of_nat m mod LENGTH + 1 =? LENGTH) eqn:E.
      + apply Z.eqb_eq in E.
        destruct (succ_position_wrap LENGTH (Z.of_nat m) ltac:(lia) ltac:(lia) E)
          as [-> ->]. reflexivity.
      + apply Z.eqb_neq in E.
        destruct (succ_position_same LENGTH (Z.of_nat m) ltac:(lia) ltac:(lia) E)
          as [-> ->]. reflexivity. }
  apply (G k 0%nat). lia.
Qed.

(** Witness of [next_counts_positions]: ten reservations, segments of four
    slots. *)
Lemma next_counts_positions_witness :
  next_times true 4 10 0 = Ok (pack (Z.of_nat 10 / 4) (Z.of_nat 10 mod 4)).
Proof.
  apply (next_counts_positions true 4 10); lia.
Defined.

(** ** Nodes *)




(** ** The log: further boundaries *)

(** X5: [add] on a log that holds [max segments * LENGTH] elements (a log
    of no segments included) stores the new segment into
    [_nodes[max segments]], one entry past the table. *)
Theorem add_to_full_log_stores_past_table (ASSERT : bool) (LENGTH : Z)
    (Elem : Type) (max : Z) (es : list Elem) (e : Elem) :
  0 < LENGTH < 2 ^ 32 -> 0 <= max < 2 ^ 32 - 1 ->
  Zlen es = max * LENGTH ->
  exists a,
    add_all ASSERT LENGTH es (Array_new max) = Ok a /\
    add ASSERT LENGTH e a = Fault (TableOutOfBounds max).
Proof.
  intros HL Hmax Hfull.
  assert (Hmax' : 0 <= max < 2 ^ 32) by lia.
  destruct (add_all_new ASSERT LENGTH Elem max HL Hmax' es ltac:(lia))
    as (a & ps & Hrun & Hinv).
  exists a. split; [exact Hrun |].
  pose proof (inv_segments _ _ _ _ _ Hinv) as Hs.
  rewrite (add_unfold ASSERT LENGTH Elem max HL Hmax').
  rewrite (inv_cur _ _ _ _ _ Hinv), Hfull.
  rewrite Z.div_mul, Z.mod_mul by lia.
  rewrite (next_pack ASSERT LENGTH ltac:(lia)) by lia.
  cbn [bind]. unfold add_reserved.
  rewrite node_index_pack by lia.
  rewrite (elem_index_pack ASSERT LENGTH ltac:(lia) max 0) by lia.
  cbn [bind]. rewrite Z.eqb_refl.
  unfold create_node, store_node. cbn [_nodes set_c_heap set_cur_pos].
  rewrite (inv_table_len _ _ _ _ _ Hs), Nat.ltb_irrefl.
  reflexivity.
Qed.

(** Witness of [add_to_full_log_stores_past_table]: a fifth element for a
    log of one segment of four slots. *)
Lemma add_to_full_log_stores_past_table_witness :
  exists a,
    add_all true 4 [1; 2; 3; 4] (Array_new 1) = Ok a /\
    add true 4 5 a = Fault (TableOutOfBounds 1).
Proof.
  apply (add_to_full_log_stores_past_table true 4 Z 1 [1; 2; 3; 4] 5);
    [lia | lia | reflexivity].
Defined.

Lemma segments_for_bound (LENGTH max M : Z) :
  0 < LENGTH -> 0 <= M <= max * LENGTH -> 0 <= segments_for LENGTH M <= max.
Proof.
  intros HL HM. unfold segments_for. split; [apply Z.div_pos; lia |].
  assert ((M + LENGTH - 1) / LENGTH < max + 1); [| lia].
  apply Z.div_lt_upper_bound; lia.
Qed.

(** X6: the segments on the heap after [M] [add]s are exactly
    [ceil(M / LENGTH)], each with a buffer of [LENGTH] slots and each in
    one entry of the table and in no other: nothing is allocated that the
    table does not own. *)
Theorem segments_allocated (ASSERT : bool) (LENGTH : Z)
    (Elem : Type) (max : Z) (es : list Elem) :
  0 < LENGTH < 2 ^ 32 -> 0 <= max < 2 ^ 32 ->
  Zlen es <= max * LENGTH ->
  exists a,
    add_all ASSERT LENGTH es (Array_new max) = Ok a /\
    Z.of_nat (size (c_heap a)) = segments_for LENGTH (Zlen es) /\
    (forall p node, c_heap a !! p = Some node ->
       Zlen (_oop_offsets node) = LENGTH /\
       exists i : nat,
         _nodes a !! i = Some (Some p) /\
         forall i' : nat, _nodes a !! i' = Some (Some p) -> i' = i).
Proof.
  intros HL Hmax Hcap.
  destruct (add_all_new ASSERT LENGTH Elem max HL Hmax es Hcap)
    as (a & ps & Hrun & Hinv).
  exists a. split; [exact Hrun |].
  pose proof (inv_segments _ _ _ _ _ Hinv) as Hs.
  pose proof (inv_ps_len _ _ _ _ _ Hinv) as Hlen.
  assert (HM : 0 <= Zlen es) by (unfold Zlen; lia).
  pose proof (segments_for_bound LENGTH max (Zlen es) ltac:(lia) ltac:(lia)) as Hb.
  assert (Hdom : dom (c_heap a) = list_to_set ps).
  { apply set_eq. intros p. rewrite elem_of_dom, elem_of_list_to_set. split.
    - apply (inv_dom _ _ _ _ _ Hs).
    - apply (inv_live LENGTH Elem max HL Hmax es ps a p Hs). }
  split.
  - rewrite <- size_dom, Hdom.
    rewrite size_list_to_set by apply (inv_nodup _ _ _ _ _ Hs).
    exact Hlen.
  - intros p node Hp.
    assert (Hin : p ∈ ps) by (apply (inv_dom _ _ _ _ _ Hs); eauto).
    apply list_elem_of_lookup in Hin as [i Hi].
    destruct (inv_cells _ _ _ _ _ Hs i p Hi) as (node' & Hn & Hl & _).
    rewrite Hp in Hn. injection Hn as <-.
    split; [unfold Zlen; lia |].
    pose proof (lookup_lt_Some _ _ _ Hi) as Hilt.
    exists i. split.
    + rewrite (inv_table _ _ _ _ _ Hs) by (unfold Zlen in *; lia).
      rewrite Hi. reflexivity.
    + intros i' Hi'.
      pose proof (lookup_lt_Some _ _ _ Hi') as Hlt'.
      rewrite (inv_table_len _ _ _ _ _ Hs) in Hlt'.
      rewrite (inv_table _ _ _ _ _ Hs) in Hi' by exact Hlt'.
      injection Hi' as Hi'.
      apply (NoDup_lookup ps i' i p (inv_nodup _ _ _ _ _ Hs) Hi' Hi).
Qed.

(** Witness of [segments_allocated]: nine elements in segments of four. *)
Lemma segments_allocated_witness :
  exists a,
    add_all true 4 [1; 2; 3; 4; 5; 6; 7; 8; 9] (Array_new 5) = Ok a /\
    Z.of_nat (size (c_heap a)) = segments_for 4 (Zlen [1; 2; 3; 4; 5; 6; 7; 8; 9]) /\
    (forall p node, c_heap a !! p = Some node ->
       Zlen (_oop_offsets node) = 4 /\
       exists i : nat,
         _nodes a !! i = Some (Some p) /\
         forall i' : nat, _nodes a !! i' = Some (Some p) -> i' = i).
Proof.
  apply (segments_allocated true 4 Z 5 [1; 2; 3; 4; 5; 6; 7; 8; 9]);
    [lia | lia | vm_compute; discriminate].
Defined.

(** X7: on every state the log can reach, [reset] with the cursor inside a
    segment (slot index not 0) releases every segment and leaves the very
    state the constructor makes; the destructor then leaves nothing on the
    heap. *)
Theorem reset_releases_everything (ASSERT : bool) (LENGTH : Z)
    (Elem : Type) (max : Z) (a : Array Elem) :
  0 < LENGTH < 2 ^ 32 -> 0 <= max < 2 ^ 32 ->
  reachable ASSERT LENGTH max a ->
  low (_cur_pos a) <> 0 ->
  reset a = Ok (Array_new max) /\
  Array_delete Elem a = Ok ∅.
Proof.
  intros HL Hmax Hreach Hlow.
  destruct (reachable_inv ASSERT LENGTH Elem max HL Hmax a Hreach)
    as (es & ps & Hinv & Hcap).
  destruct (inv_cursor_range LENGTH Elem max HL Hmax es ps a Hinv Hcap)
    as (Hhi & Hlo & _).
  rewrite (inv_cur _ _ _ _ _ Hinv), low_pack in Hlow by lia.
  pose proof (reset_partial LENGTH Elem max HL Hmax es ps a Hinv Hcap Hlow) as Hr.
  split; [exact Hr |]. unfold Array_delete. rewrite Hr. reflexivity.
Qed.

(** Witness of [reset_releases_everything]: a log that was filled, reset
    and filled again. *)
Lemma reset_releases_everything_witness :
  exists a : Array Z,
    run_operations true 4 [OpAdd 1; OpAdd 2; OpReset; OpAdd 3; OpIterateNodes]
      (Array_new 2) = Ok a /\
    reset a = Ok (Array_new 2) /\
    Array_delete Z a = Ok ∅.
Proof.
  eexists. split; [vm_compute; reflexivity |].
  apply (reset_releases_everything true 4 Z 2).
  - lia.
  - lia.
  - exists [OpAdd 1; OpAdd 2; OpReset; OpAdd 3; OpIterateNodes].
    vm_compute. reflexivity.
  - vm_compute. discriminate.
Defined.

Lemma run_operations_app (ASSERT : bool) (LENGTH : Z) (Elem : Type)
    (ops1 ops2 : list (operation Elem)) (a : Array Elem) :
  run_operations ASSERT LENGTH (ops1 ++ ops2) a =
  let! a' := run_operations ASSERT LENGTH ops1 a in
  run_operations ASSERT LENGTH ops2 a'.
Proof.
  revert a. induction ops1 as [| op ops1 IH]; intros a; simpl; [reflexivity |].
  destruct (run_operation ASSERT LENGTH op a); simpl; [apply IH | reflexivity].
Qed.

(** X8: on every state the log can reach, with a segment index below
    [max segments], [add] completes, counts one more (modulo [2^32]) and
    appends its element to what [iterate_elements] shows: the elements
    added before stay where they are, also across earlier [reset]s. *)
Theorem add_appends_to_replay (ASSERT : bool) (LENGTH : Z)
    (Elem : Type) (max : Z) (a : Array Elem) (e : Elem) :
  0 < LENGTH < 2 ^ 32 -> 0 <= max < 2 ^ 32 ->
  reachable ASSERT LENGTH max a ->
  node_index (_cur_pos a) < max ->
  exists es a',
    replay ASSERT LENGTH a = Ok es /\
    add ASSERT LENGTH e a = Ok a' /\
    reachable ASSERT LENGTH max a' /\
    objs_num a' = uint32 (objs_num a + 1) /\
    (node_index (_cur_pos a') < max ->
       replay ASSERT LENGTH a' = Ok (es ++ [e])).
Proof.
  intros HL Hmax Hreach Hroom.
  destruct (reachable_inv ASSERT LENGTH Elem max HL Hmax a Hreach)
    as (es & ps & Hinv & Hcap).
  destruct (inv_cursor_range LENGTH Elem max HL Hmax es ps a Hinv Hcap)
    as (Hhi & Hlo & _).
  assert (HM : 0 <= Zlen es) by (unfold Zlen; lia).
  pose proof (Z.div_mod (Zlen es) LENGTH ltac:(lia)) as D.
  rewrite (inv_cur _ _ _ _ _ Hinv), node_index_pack in Hroom by lia.
  assert (Hlt : Zlen es < max * LENGTH) by nia.
  destruct (add_step ASSERT LENGTH Elem max HL Hmax es ps a e Hinv Hlt)
    as (a' & ps' & Hadd & Hinv' & _).
  assert (Hlen' : Zlen (es ++ [e]) = Zlen es + 1).
  { unfold Zlen. rewrite length_app. simpl. lia. }
  exists es, a'. split.
  { unfold replay.
    rewrite (iterate_elements_inv ASSERT LENGTH Elem max HL Hmax _ es ps a [] Hinv Hlt).
    rewrite fold_left_snoc. reflexivity. }
  split; [exact Hadd |]. split.
  { destruct Hreach as [ops Hops]. exists (ops ++ [OpAdd e]).
    rewrite run_operations_app, Hops. cbn [bind run_operations run_operation].
    rewrite Hadd. reflexivity. }
  split.
  { unfold objs_num, uint32.
    rewrite (inv_num _ _ _ _ _ Hinv'), (inv_num _ _ _ _ _ Hinv), Hlen'.
    rewrite Z.add_mod_idemp_l by lia. reflexivity. }
  intros Hroom'.
  assert (Hcap' : Zlen (es ++ [e]) <= max * LENGTH) by lia.
  destruct (inv_cursor_range LENGTH Elem max HL Hmax _ ps' a' Hinv' Hcap')
    as (Hhi' & Hlo' & _).
  pose proof (Z.div_mod (Zlen (es ++ [e])) LENGTH ltac:(lia)) as D'.
  rewrite (inv_cur _ _ _ _ _ Hinv'), node_index_pack in Hroom' by lia.
  assert (Hlt' : Zlen (es ++ [e]) < max * LENGTH) by nia.
  unfold replay.
  rewrite (iterate_elements_inv ASSERT LENGTH Elem max HL Hmax _ _ ps' a' [] Hinv' Hlt').
  rewrite fold_left_snoc. reflexivity.
Qed.

(** Witness of [add_appends_to_replay]: an [add] after a [reset]. *)
Lemma add_appends_to_replay_witness :
  exists (a : Array Z) es a',
    run_operations true 4 [OpAdd 1; OpAdd 2; OpReset; OpAdd 3] (Array_new 2) = Ok a /\
    replay true 4 a = Ok es /\
    add true 4 9 a = Ok a' /\
    reachable true 4 2 a' /\
    objs_num a' = uint32 (objs_num a + 1) /\
    (node_index (_cur_pos a') < 2 -> replay true 4 a' = Ok (es ++ [9])).
Proof.
  eexists.
  assert (Hrun : run_operations true 4 [OpAdd 1; OpAdd 2; OpReset; OpAdd 3]
                   (Array_new 2) = Ok _) by (vm_compute; reflexivity).
  destruct (add_appends_to_replay true 4 Z 2 _ 9 ltac:(lia) ltac:(lia)
              (ex_intro _ _ Hrun)) as (es & a' & H).
  - vm_compute. reflexivity.
  - exists es, a'. split; [exact Hrun | exact H].
Defined.

(** ** The traversal of the segments *)

Lemma iterate_nodes_loop {Elem V : Type} (a : Array Elem)
    (visit : option ptr -> Z -> V -> V) (nodes : Z -> option ptr)
    (limit : Z -> Z) (l : list Z) : forall v,
  (forall i, i ∈ l -> load_node Elem i a = Ok (nodes i)) ->
  for_each l (fun i v =>
      let! node := load_node Elem i a in
      let limit := limit i in
      Ok (visit node limit v)) v
  = Ok (fold_left (fun v i => visit (nodes i) (limit i) v) l v).
Proof.
  induction l as [| i l IH]; intros v Hload; [reflexivity |].
  cbn [for_each fold_left]. rewrite (Hload i) by apply list_elem_of_here.
  cbn [bind]. apply IH. intros j Hj. apply Hload. apply elem_of_cons. auto.
Qed.

(** [iterate_nodes] on a log that is not full, with the segments [ps]. *)
Lemma iterate_nodes_inv (ASSERT : bool) (LENGTH : Z) (Elem : Type) (max : Z)
    {V : Type} (visit : option ptr -> Z -> V -> V) (es : list Elem)
    (ps : list ptr) (a : Array Elem) (v : V) :
  0 < LENGTH < 2 ^ 32 -> 0 <= max < 2 ^ 32 ->
  log_inv LENGTH max es ps a -> Zlen es < max * LENGTH ->
  iterate_nodes ASSERT LENGTH visit v a =
  Ok (fold_left (fun v i => visit (ps !! Z.to_nat i)
                   (if i =? Zlen es / LENGTH then Zlen es mod LENGTH else LENGTH) v)
        (seqZ 0 (Zlen es / LENGTH + 1)) v).
Proof.
  intros HL Hmax Hinv Hcap.
  destruct (inv_cursor_range LENGTH Elem max HL Hmax es ps a Hinv ltac:(lia))
    as (Hhi & Hlo & Hcur).
  assert (Hlt : Zlen es / LENGTH < max).
  { apply position_bound; [lia | unfold Zlen; lia | exact Hcap]. }
  unfold iterate_nodes.
  rewrite int64_uint64 by exact Hcur.
  rewrite (inv_cur _ _ _ _ _ Hinv).
  rewrite node_index_pack by lia.
  rewrite (elem_index_pack ASSERT LENGTH ltac:(lia)) by lia. cbn [bind].
  unfold for_upto.
  apply (iterate_nodes_loop a visit (fun i => ps !! Z.to_nat i)
           (fun i => if i =? Zlen es / LENGTH then Zlen es mod LENGTH else LENGTH)).
  intros i Hi. apply elem_of_seqZ in Hi.
  apply (load_node_inv LENGTH Elem max HL Hmax es ps a i
           (inv_segments _ _ _ _ _ Hinv)). lia.
Qed.

(** X9: [iterate_nodes] on a log of [M] elements calls the visitor once
    for each table entry from 0 through the cursor's segment index
    [M / LENGTH], in this order, with [LENGTH] as the limit for the
    entries before the last and [M mod LENGTH] for the last. The node it
    passes is NULL in one case only: the last call when [M] is a multiple
    of [LENGTH] (an empty log included), where the limit is 0. *)
Theorem iterate_nodes_shows_segments (ASSERT : bool) (LENGTH : Z)
    (Elem : Type) (max : Z) (es : list Elem) :
  0 < LENGTH < 2 ^ 32 -> 0 <= max < 2 ^ 32 ->
  Zlen es < max * LENGTH ->
  let hi := Zlen es / LENGTH in
  let lo := Zlen es mod LENGTH in
  exists a,
    add_all ASSERT LENGTH es (Array_new max) = Ok a /\
    (forall (V : Type) (visit : option ptr -> Z -> V -> V) (v : V),
       iterate_nodes ASSERT LENGTH visit v a =
       Ok (fold_left (fun v i => visit (_nodes a !!! Z.to_nat i)
                        (if i =? hi then lo else LENGTH) v)
             (seqZ 0 (hi + 1)) v)) /\
    (forall i, 0 <= i <= hi ->
       _nodes a !!! Z.to_nat i = None <-> i = hi /\ lo = 0).
Proof.
  intros HL Hmax Hcap hi lo.
  destruct (add_all_new ASSERT LENGTH Elem max HL Hmax es ltac:(lia))
    as (a & ps & Hrun & Hinv).
  pose proof (inv_segments _ _ _ _ _ Hinv) as Hs.
  destruct (inv_cursor_range LENGTH Elem max HL Hmax es ps a Hinv ltac:(lia))
    as (Hhi & Hlo & _).
  assert (HM : 0 <= Zlen es) by (unfold Zlen; lia).
  assert (Hlt : hi < max).
  { apply position_bound; [lia | exact HM | exact Hcap]. }
  assert (Hentry : forall i, 0 <= i <= hi ->
            _nodes a !!! Z.to_nat i = ps !! Z.to_nat i).
  { intros i Hi. apply list_lookup_total_correct.
    apply (inv_table _ _ _ _ _ Hs). lia. }
  exists a. split; [exact Hrun |]. split.
  - intros V visit v.
    rewrite (iterate_nodes_inv ASSERT LENGTH Elem max visit es ps a v HL Hmax Hinv Hcap).
    fold hi lo. f_equal.
    assert (G : forall l : list Z, (forall i, i ∈ l -> 0 <= i <= hi) -> forall v,
              fold_left (fun v i => visit (ps !! Z.to_nat i)
                           (if i =? hi then lo else LENGTH) v) l v =
              fold_left (fun v i => visit (_nodes a !!! Z.to_nat i)
                           (if i =? hi then lo else LENGTH) v) l v).
    { induction l as [| i l IH]; intros Hl v0; [reflexivity |]. cbn [fold_left].
      rewrite (Hentry i) by (apply Hl, list_elem_of_here).
      apply IH. intros j Hj. apply Hl. apply elem_of_cons. auto. }
    apply G. intros i Hi. apply elem_of_seqZ in Hi. lia.
  - intros i Hi. rewrite (Hentry i Hi).
    pose proof (inv_ps_len _ _ _ _ _ Hinv) as Hlen.
    rewrite lookup_ge_None. subst hi lo.
    destruct (Z.eq_dec (Zlen es mod LENGTH) 0) as [E | E].
    + rewrite (segments_for_full LENGTH (Zlen es)) in Hlen by lia.
      unfold Zlen in Hlen at 1. lia.
    + rewrite (segments_for_partial LENGTH (Zlen es)) in Hlen by lia.
      unfold Zlen in Hlen at 1. lia.
Qed.

(** Witness of [iterate_nodes_shows_segments]: eight elements in segments
    of four. *)
Lemma iterate_nodes_shows_segments_witness :
  let es := [1; 2; 3; 4; 5; 6; 7; 8] in
  let hi := Zlen es / 4 in
  let lo := Zlen es mod 4 in
  exists a,
    add_all true 4 es (Array_new 5) = Ok a /\
    (forall (V : Type) (visit : option ptr -> Z -> V -> V) (v : V),
       iterate_nodes true 4 visit v a =
       Ok (fold_left (fun v i => visit (_nodes a !!! Z.to_nat i)
                        (if i =? hi then lo else 4) v)
             (seqZ 0 (hi + 1)) v)) /\
    (forall i, 0 <= i <= hi ->
       _nodes a !!! Z.to_nat i = None <-> i = hi /\ lo = 0).
Proof.
  apply (iterate_nodes_shows_segments true 4 Z 5 [1; 2; 3; 4; 5; 6; 7; 8]);
    [lia | lia | vm_compute; reflexivity].
Defined.

(** The slots [0 .. l-1] of segment [i]. *)
Lemma read_node_inv (LENGTH : Z) (Elem : Type) (max : Z) (es : list Elem)
    (ps : list ptr) (a : Array Elem) (i l : Z) :
  0 < LENGTH < 2 ^ 32 -> 0 <= max < 2 ^ 32 ->
  segments_inv LENGTH max es ps a ->
  Zlen ps = segments_for LENGTH (Zlen es) ->
  0 <= i -> 0 <= l <= LENGTH -> i * LENGTH + l <= Zlen es ->
  read_node (ps !! Z.to_nat i) l a =
  Ok (take (Z.to_nat l) (drop (Z.to_nat (i * LENGTH)) es)).
Proof.
  intros HL Hmax Hs Hlen Hi Hl Hk. unfold read_node, for_below.
  match goal with |- for_each _ ?body ?init = _ =>
    destruct (for_each_invariant
      (fun j v => v = take (Z.to_nat j) (drop (Z.to_nat (i * LENGTH)) es))
      body l init) as (s' & E & ->)
  end.
  - lia.
  - reflexivity.
  - intros j s Hj ->.
    destruct (segment_published LENGTH Elem max HL Hmax es ps i j Hlen Hi
                ltac:(lia) ltac:(lia)) as [p Hp].
    destruct (inv_cells _ _ _ _ _ Hs _ p Hp) as (cell & Hcell & Hclen & Hslots).
    assert (He : is_Some (es !! (Z.to_nat (i * LENGTH) + Z.to_nat j)%nat)).
    { apply lookup_lt_is_Some_2. unfold Zlen in Hk. lia. }
    destruct He as [e He].
    rewrite Hp. unfold deref. rewrite Hcell. cbn [bind].
    unfold Node_get. rewrite (Hslots (Z.to_nat j)) by lia.
    replace (Z.to_nat i * Z.to_nat LENGTH + Z.to_nat j)%nat
      with (Z.to_nat (i * LENGTH) + Z.to_nat j)%nat.
    2:{ rewrite Z2Nat.inj_mul by lia. reflexivity. }
    rewrite He. cbn [bind]. eexists. split; [reflexivity |].
    replace (Z.to_nat (j + 1)) with (S (Z.to_nat j)) by lia.
    symmetry. apply take_S_r. rewrite lookup_drop. exact He.
  - exact E.
Qed.

(** X10: the two traversals agree. A visitor of [iterate_nodes] that
    copies the first [limit] slots of every node it is shown ends up with
    the elements that [iterate_elements] shows one by one, in the same
    order; the NULL node of the last call is never read, its limit being
    0. *)
Theorem iterate_nodes_agrees_with_iterate_elements (ASSERT : bool)
    (LENGTH : Z) (Elem : Type) (max : Z) (es : list Elem) :
  0 < LENGTH < 2 ^ 32 -> 0 <= max < 2 ^ 32 ->
  Zlen es < max * LENGTH ->
  exists a,
    add_all ASSERT LENGTH es (Array_new max) = Ok a /\
    iterate_nodes ASSERT LENGTH (copy_node a) (Ok []) a = Ok (Ok es) /\
    iterate_elements ASSERT LENGTH (fun e v => v ++ [e]) [] a = Ok es.
Proof.
  intros HL Hmax Hcap.
  destruct (add_all_new ASSERT LENGTH Elem max HL Hmax es ltac:(lia))
    as (a & ps & Hrun & Hinv).
  pose proof (inv_segments _ _ _ _ _ Hinv) as Hs.
  pose proof (inv_ps_len _ _ _ _ _ Hinv) as Hlen.
  destruct (inv_cursor_range LENGTH Elem max HL Hmax es ps a Hinv ltac:(lia))
    as (Hhi & Hlo & _).
  assert (HM : 0 <= Zlen es) by (unfold Zlen; lia).
  pose proof (Z.div_mod (Zlen es) LENGTH ltac:(lia)) as D.
  exists a. split; [exact Hrun |]. split.
  - rewrite (iterate_nodes_inv ASSERT LENGTH Elem max _ es ps a _ HL Hmax Hinv Hcap).
    f_equal.
    set (hi := Zlen es / LENGTH) in *. set (lo := Zlen es mod LENGTH) in *.
    assert (G : forall n : nat, Z.of_nat n <= hi + 1 ->
              fold_left (fun v i => copy_node a (ps !! Z.to_nat i)
                           (if i =? hi then lo else LENGTH) v)
                (seqZ 0 (Z.of_nat n)) (Ok []) =
              Ok (take (Z.to_nat (Z.min (Z.of_nat n * LENGTH) (Zlen es))) es)).
    { induction n as [| n IH]; intros Hn.
      - change (Z.of_nat 0) with 0. rewrite Z.mul_0_l, Z.min_l by lia. reflexivity.
      - rewrite seqZ_S, fold_left_app, IH by lia. cbn [fold_left].
        rewrite Z.add_0_l. unfold copy_node. cbn [bind].
        rewrite (Z.min_l (Z.of_nat n * LENGTH)) by nia.
        rewrite (read_node_inv LENGTH Elem max es ps a (Z.of_nat n) _ HL Hmax Hs Hlen).
        + cbn [bind]. f_equal. rewrite take_take_drop. f_equal.
          destruct (Z.of_nat n =? hi) eqn:En.
          * apply Z.eqb_eq in En. rewrite Z.min_r by lia. lia.
          * apply Z.eqb_neq in En. rewrite Z.min_l by nia. lia.
        + lia.
        + destruct (Z.of_nat n =? hi); lia.
        + destruct (Z.of_nat n =? hi) eqn:En.
          * apply Z.eqb_eq in En. lia.
          * apply Z.eqb_neq in En. nia. }
    replace (hi + 1) with (Z.of_nat (Z.to_nat (hi + 1))) by lia.
    rewrite G by lia. f_equal.
    rewrite Z.min_r by nia. unfold Zlen. rewrite Nat2Z.id. apply firstn_all.
  - rewrite (iterate_elements_inv ASSERT LENGTH Elem max HL Hmax _ es ps a [] Hinv Hcap).
    rewrite fold_left_snoc. reflexivity.
Qed.

(** Witness of [iterate_nodes_agrees_with_iterate_elements]: eight
    elements in segments of four. *)
Lemma iterate_nodes_agrees_with_iterate_elements_witness :
  exists a,
    add_all true 4 [1; 2; 3; 4; 5; 6; 7; 8] (Array_new 5) = Ok a /\
    iterate_nodes true 4 (copy_node a) (Ok []) a = Ok (Ok [1; 2; 3; 4; 5; 6; 7; 8]) /\
    iterate_elements true 4 (fun e v => v ++ [e]) [] a = Ok [1; 2; 3; 4; 5; 6; 7; 8].
Proof.
  apply (iterate_nodes_agrees_with_iterate_elements true 4 Z 5 [1; 2; 3; 4; 5; 6; 7; 8]);
    [lia | lia | vm_compute; reflexivity].
Defined.

(** ** Threads inside [add] *)

(** Every state that threads started on a new log reach satisfies the
    invariant of concurrent runs. *)
Lemma run_schedule_conc_inv (ASSERT : bool) (LENGTH : Z) (Elem : Type)
    (max : Z) (todos : list (list Elem)) (s : list nat) (c : config Elem) :
  0 < LENGTH < 2 ^ 32 -> 0 <= max < 2 ^ 32 ->
  Zlen (concat todos) <= max * LENGTH ->
  run_schedule ASSERT LENGTH s (start max todos) = Ok c ->
  exists log, conc_inv LENGTH max (concat todos) log c.
Proof.
  intros HL Hmax Hcap Hrun.
  pose proof (start_inv LENGTH Elem max (concat todos) HL Hmax Hcap todos eq_refl)
    as Hstart.
  destruct (run_schedule_inv ASSERT LENGTH Elem max (concat todos) HL Hmax Hcap
              s [] (start max todos) Hstart) as (c' & log & Hrun' & Hinv & _).
  rewrite Hrun in Hrun'. injection Hrun' as <-. eauto.
Qed.

(** X11: a slot belongs to one thread. In every state of every
    interleaving, two threads that are past their exchange hold different
    (segment, slot) pairs, and every pair held is inside the table and
    inside a segment. *)
Theorem reservations_are_exclusive (ASSERT : bool) (LENGTH : Z) (Elem : Type)
    (max : Z) (todos : list (list Elem)) (s : list nat) (c : config Elem)
    (tid1 tid2 : nat) (th1 th2 : thread Elem) (hi lo : Z) (st1 st2 : stage) :
  0 < LENGTH < 2 ^ 32 -> 0 <= max < 2 ^ 32 ->
  Zlen (concat todos) <= max * LENGTH ->
  run_schedule ASSERT LENGTH s (start max todos) = Ok c ->
  threads c !! tid1 = Some th1 -> threads c !! tid2 = Some th2 ->
  claim_of th1 = Some (hi, lo, st1) -> claim_of th2 = Some (hi, lo, st2) ->
  tid1 = tid2 /\ 0 <= hi < max /\ 0 <= lo < LENGTH.
Proof.
  intros HL Hmax Hcap Hrun Hth1 Hth2 Hc1 Hc2.
  destruct (run_schedule_conc_inv ASSERT LENGTH Elem max todos s c HL Hmax Hcap Hrun)
    as [log Hinv].
  destruct (ci_claim _ _ _ _ _ Hinv tid1 th1 hi lo st1 Hth1 Hc1)
    as (r1 & en1 & Hhi1 & Hlo1 & Hl1 & Hf1 & _).
  destruct (ci_claim _ _ _ _ _ Hinv tid2 th2 hi lo st2 Hth2 Hc2)
    as (r2 & en2 & Hhi2 & Hlo2 & Hl2 & Hf2 & _).
  assert (r1 = r2) by (apply (position_eq LENGTH ltac:(lia)); congruence).
  subst r2. rewrite Hl1 in Hl2. injection Hl2 as <-.
  rewrite Hf1 in Hf2. injection Hf2 as -> _.
  split; [reflexivity |].
  pose proof (inv_position LENGTH Elem max (concat todos) HL Hmax Hcap log c r1 Hinv
                (lookup_lt_Some _ _ _ Hl1)) as Hpos.
  rewrite Hhi1, Hlo1. exact Hpos.
Qed.

(** Witness of [reservations_are_exclusive]: thread 0 has reserved slot 0
    of segment 0 and thread 1 slot 1. *)
Lemma reservations_are_exclusive_witness :
  exists c,
    run_schedule true 4 [0; 0; 1; 1]%nat (start 5 [[1]; [2]]) = Ok c /\
    threads c !! 0%nat = Some (mkThread (AtCreate 0 0) [1]) /\
    threads c !! 1%nat = Some (mkThread (AtPoll 0 1) [2]) /\
    0%nat = 0%nat /\ 0 <= 0 < 5 /\ 0 <= 0 < 4.
Proof.
  eexists. split; [vm_compute; reflexivity |].
  split; [reflexivity |]. split; [reflexivity |].
  eapply (reservations_are_exclusive true 4 Z 5 [[1]; [2]] [0; 0; 1; 1]%nat _
            0%nat 0%nat (mkThread (AtCreate 0 0) [1]) (mkThread (AtCreate 0 0) [1])
            0 0 Unpublished Unpublished).
  - lia.
  - lia.
  - vm_compute. discriminate.
  - vm_compute. reflexivity.
  - reflexivity.
  - reflexivity.
  - reflexivity.
  - reflexivity.
Defined.

Lemma NoDup_omap_inj {A B : Type} (f : A -> option B) (l : list A) :
  (forall (i j : nat) a b x, l !! i = Some a -> l !! j = Some b ->
     f a = Some x -> f b = Some x -> i = j) ->
  NoDup (omap f l).
Proof.
  induction l as [| a l IH]; intros Hinj; [constructor |].
  assert (Htail : NoDup (omap f l)).
  { apply IH. intros i j a' b' x Hi Hj Ha Hb.
    assert (S i = S j) by (apply (Hinj (S i) (S j) a' b' x); assumption).
    lia. }
  cbn [omap list_omap]. destruct (f a) as [x |] eqn:Hfa; [| exact Htail].
  constructor; [| exact Htail].
  intros Hx. apply list_elem_of_omap in Hx as (b & Hb & Hfb).
  apply list_elem_of_lookup in Hb as [j Hj].
  assert (0%nat = S j) by (apply (Hinj 0%nat (S j) a b x); auto).
  lia.
Qed.

Lemma completed_or_in_flight {Elem : Type} (log : list (entry Elem)) :
  (length (filter (fun en => is_completed (e_fate en) = true) log)
   + length (omap inflight_tid log) = length log)%nat.
Proof.
  induction log as [| en log IH]; [reflexivity |].
  rewrite filter_cons. cbn [omap list_omap]. unfold inflight_tid at 1.
  destruct (e_fate en) as [tid st |]; cbn [is_completed];
    destruct (decide _) as [? | ?]; try congruence; simpl; lia.
Qed.

(** X12: the counter against the cursor. In every state of every
    interleaving the position the cursor encodes is the number of
    reservations made, and [objs_num] is that number less the threads
    that hold a reservation and have not yet incremented the counter: the
    counter never runs ahead of the cursor. *)
Theorem count_lags_cursor_by_threads_in_flight (ASSERT : bool) (LENGTH : Z)
    (Elem : Type) (max : Z) (todos : list (list Elem)) (s : list nat)
    (c : config Elem) :
  0 < LENGTH < 2 ^ 32 -> 0 <= max < 2 ^ 32 ->
  Zlen (concat todos) <= max * LENGTH ->
  Zlen (concat todos) < 2 ^ 32 ->
  run_schedule ASSERT LENGTH s (start max todos) = Ok c ->
  let reserved :=
    node_index (_cur_pos (shared c)) * LENGTH + low (_cur_pos (shared c)) in
  objs_num (shared c) + Zlen (in_flight c) = reserved /\
  reserved <= Zlen (concat todos).
Proof.
  intros HL Hmax Hcap Hsmall Hrun reserved.
  destruct (run_schedule_conc_inv ASSERT LENGTH Elem max todos s c HL Hmax Hcap Hrun)
    as [log Hinv].
  pose proof (inv_log_bound LENGTH Elem max (concat todos) HL Hmax Hcap log c Hinv)
    as Hbound.
  assert (HM : 0 <= Zlen log) by (unfold Zlen; lia).
  assert (Hres : reserved = Zlen log).
  { unfold reserved. rewrite (ci_cur _ _ _ _ _ Hinv).
    pose proof (Z.mod_pos_bound (Zlen log) LENGTH ltac:(lia)) as Hlo.
    assert (0 <= Zlen log / LENGTH <= max).
    { split; [apply Z.div_pos; lia | apply Z.div_le_upper_bound; lia]. }
    rewrite node_index_pack, low_pack by lia.
    pose proof (Z.div_mod (Zlen log) LENGTH ltac:(lia)). lia. }
  split; [| lia]. rewrite Hres.
  assert (Hflight : length (omap inflight_tid log) = length (in_flight c)).
  { apply Permutation_length. apply NoDup_Permutation.
    - apply NoDup_omap_inj. intros i j a b x Hi Hj Ha Hb.
      unfold inflight_tid in Ha, Hb.
      destruct (e_fate a) as [ta sa |] eqn:Hfa; [| discriminate].
      destruct (e_fate b) as [tb sb |] eqn:Hfb; [| discriminate].
      injection Ha as ->. injection Hb as ->.
      destruct (ci_owner _ _ _ _ _ Hinv i a x sa Hi Hfa) as (th & Hth & Hcl & _).
      destruct (ci_owner _ _ _ _ _ Hinv j b x sb Hj Hfb) as (th' & Hth' & Hcl' & _).
      rewrite Hth in Hth'. injection Hth' as <-.
      rewrite Hcl in Hcl'. injection Hcl' as Hd Hm _.
      apply (position_eq LENGTH ltac:(lia) i j Hd Hm).
    - unfold in_flight. apply NoDup_filter, NoDup_seq.
    - intros tid. unfold in_flight.
      rewrite list_elem_of_omap, list_elem_of_filter, elem_of_seq. split.
      + intros (en & Hen & Htid). unfold inflight_tid in Htid.
        destruct (e_fate en) as [t st |] eqn:Hf; [| discriminate].
        injection Htid as ->.
        apply list_elem_of_lookup in Hen as [r Hr].
        destruct (ci_owner _ _ _ _ _ Hinv r en tid st Hr Hf) as (th & Hth & Hcl & _).
        split.
        * rewrite Hth. simpl. rewrite Hcl. eauto.
        * apply lookup_lt_Some in Hth. lia.
      + intros [[cl Hcl] _].
        destruct (threads c !! tid) as [th |] eqn:Hth; [| discriminate].
        simpl in Hcl. destruct cl as [[hi lo] st].
        destruct (ci_claim _ _ _ _ _ Hinv tid th hi lo st Hth Hcl)
          as (r & en & _ & _ & Hr & Hf & _).
        exists en. split; [apply list_elem_of_lookup; eauto |].
        unfold inflight_tid. rewrite Hf. reflexivity. }
  pose proof (completed_or_in_flight log) as Hsum.
  unfold objs_num. rewrite (ci_num _ _ _ _ _ Hinv).
  unfold Zlen in *. rewrite Z.mod_small by lia. lia.
Qed.

(** Witness of [count_lags_cursor_by_threads_in_flight]: three threads
    taking turns for a while. *)
Lemma count_lags_cursor_by_threads_in_flight_witness :
  exists c,
    run_schedule true 4 [0; 1; 2; 0; 1; 2; 0; 1; 2; 0; 0; 0]%nat
      (start 5 [[1; 2]; [3; 4]; [5; 6]]) = Ok c /\
    objs_num (shared c) + Zlen (in_flight c) =
      node_index (_cur_pos (shared c)) * 4 + low (_cur_pos (shared c)) /\
    node_index (_cur_pos (shared c)) * 4 + low (_cur_pos (shared c))
      <= Zlen (concat [[1; 2]; [3; 4]; [5; 6]]).
Proof.
  eexists. split; [vm_compute; reflexivity |].
  apply (count_lags_cursor_by_threads_in_flight true 4 Z 5
           [[1; 2]; [3; 4]; [5; 6]] [0; 1; 2; 0; 1; 2; 0; 1; 2; 0; 0; 0]%nat).
  - lia.
  - lia.
  - vm_compute. discriminate.
  - vm_compute. reflexivity.
  - vm_compute. reflexivity.
Defined.

Lemma pack_position_le (L r M : Z) :
  0 < L < 2 ^ 32 -> 0 <= r <= M ->
  pack (r / L) (r mod L) <= pack (M / L) (M mod L).
Proof.
  intros HL Hr. unfold pack.
  pose proof (Z.div_mod r L ltac:(lia)) as Dr.
  pose proof (Z.div_mod M L ltac:(lia)) as DM.
  pose proof (Z.mod_pos_bound r L ltac:(lia)) as Br.
  pose proof (Z.mod_pos_bound M L ltac:(lia)) as BM.
  assert (Hd : r / L <= M / L) by (apply Z.div_le_mono; lia).
  destruct (Z.eq_dec (r / L) (M / L)) as [E | E]; [rewrite E in *; lia | nia].
Qed.

(** X13: the exchange of the cursor fails only behind the cursor. A
    thread about to exchange holds a cursor value that is at most the
    current one. If it is the current one the exchange succeeds: the
    cursor moves to its successor and the thread holds the (segment, slot)
    pair of the value it read. If not, the thread changes nothing in the
    log and goes back to reading the cursor; so an exchange is lost only
    to a reservation that another thread made after the read. *)
Theorem exchange_fails_only_behind_the_cursor (ASSERT : bool) (LENGTH : Z)
    (Elem : Type) (max : Z) (todos : list (list Elem)) (s : list nat)
    (c : config Elem) (tid : nat) (th : thread Elem) (pos : Z) :
  0 < LENGTH < 2 ^ 32 -> 0 <= max < 2 ^ 32 ->
  Zlen (concat todos) <= max * LENGTH ->
  run_schedule ASSERT LENGTH s (start max todos) = Ok c ->
  threads c !! tid = Some th -> pc th = AtCmpxchg pos -> todo th <> [] ->
  pos <= _cur_pos (shared c) /\
  exists c' th',
    schedule_step ASSERT LENGTH tid c = Ok c' /\
    threads c' !! tid = Some th' /\ todo th' = todo th /\
    (pos = _cur_pos (shared c) ->
       next ASSERT LENGTH pos = Ok (_cur_pos (shared c')) /\
       exists st, claim_of th' = Some (node_index pos, low pos, st)) /\
    (pos <> _cur_pos (shared c) -> shared c' = shared c /\ pc th' = AtLoad).
Proof.
  intros HL Hmax Hcap Hrun Hth Hpc Htodo.
  destruct (run_schedule_conc_inv ASSERT LENGTH Elem max todos s c HL Hmax Hcap Hrun)
    as [log Hinv].
  destruct (todo th) as [| elem rest] eqn:Hwork; [congruence |].
  pose proof (lookup_lt_Some _ _ _ Hth) as Htid.
  destruct (stale_next ASSERT LENGTH Elem max (concat todos) HL Hmax Hcap
              log c tid th pos elem rest Hinv Hth Hwork Hpc)
    as (r & Hr & Hroom & Hpos & _).
  assert (HM : 0 <= Zlen log) by (unfold Zlen; lia).
  split.
  { rewrite Hpos, (ci_cur _ _ _ _ _ Hinv). apply pack_position_le; lia. }
  destruct (Z.eq_dec (_cur_pos (shared c)) pos) as [Heq | Hne].
  - clear Hpos. subst pos.
    destruct (step_cmpxchg_won ASSERT LENGTH Elem max (concat todos) HL Hmax Hcap
                log c tid th elem rest Hinv Hth Hwork Hpc)
      as (a' & Hstep & _ & Hnext & _).
    cbv zeta in Hstep. rewrite Hwork in Hstep.
    eexists _, _. split; [exact Hstep |]. cbn [threads shared].
    split; [apply list_lookup_insert_eq; exact Htid |].
    split; [reflexivity |]. split; [| congruence].
    intros _. split; [exact Hnext |].
    pose proof (Z.mod_pos_bound (Zlen log) LENGTH ltac:(lia)) as Hlo.
    assert (0 <= Zlen log / LENGTH < max).
    { split; [apply Z.div_pos; lia | apply position_bound; lia]. }
    rewrite (ci_cur _ _ _ _ _ Hinv), node_index_pack, low_pack by lia.
    unfold claim_of. cbn [todo pc].
    destruct (Zlen log mod LENGTH =? 0); eauto.
  - destruct (step_cmpxchg_lost ASSERT LENGTH Elem max (concat todos) HL Hmax Hcap
                log c tid th pos elem rest Hinv Hth Hwork Hpc Hne)
      as (Hstep & _).
    cbv zeta in Hstep. rewrite Hwork in Hstep.
    eexists _, _. split; [exact Hstep |]. cbn [threads shared].
    split; [apply list_lookup_insert_eq; exact Htid |].
    split; [reflexivity |]. split; [congruence |].
    intros _. split; reflexivity.
Qed.

(** Witness of [exchange_fails_only_behind_the_cursor]: thread 1 read the
    cursor before thread 0 made its reservation. *)
Lemma exchange_fails_only_behind_the_cursor_witness :
  exists c,
    run_schedule true 4 [0; 1; 0]%nat (start 5 [[1]; [2]]) = Ok c /\
    0 <= _cur_pos (shared c) /\
    exists c' th',
      schedule_step true 4 1 c = Ok c' /\
      threads c' !! 1%nat = Some th' /\ todo th' = [2] /\
      (0 = _cur_pos (shared c) ->
         next true 4 0 = Ok (_cur_pos (shared c')) /\
         exists st, claim_of th' = Some (node_index 0, low 0, st)) /\
      (0 <> _cur_pos (shared c) -> shared c' = shared c /\ pc th' = AtLoad).
Proof.
  eexists. split; [vm_compute; reflexivity |].
  apply (exchange_fails_only_behind_the_cursor true 4 Z 5 [[1]; [2]] [0; 1; 0]%nat
           _ 1%nat (mkThread (AtCmpxchg 0) [2]) 0).
  - lia.
  - lia.
  - vm_compute. discriminate.
  - vm_compute. reflexivity.
  - reflexivity.
  - reflexivity.
  - discriminate.
Defined.

(** X14: the poll of the segment table waits for one thread only. A
    thread that finds the entry of its segment NULL did not reserve slot 0
    of it, and the thread that did is about to create the segment and
    store it: no thread waits for a segment nobody is going to
    publish. *)
Theorem poll_waits_for_the_creator (ASSERT : bool) (LENGTH : Z)
    (Elem : Type) (max : Z) (todos : list (list Elem)) (s : list nat)
    (c : config Elem) (tid : nat) (th : thread Elem) (hi lo : Z) :
  0 < LENGTH < 2 ^ 32 -> 0 <= max < 2 ^ 32 ->
  Zlen (concat todos) <= max * LENGTH ->
  run_schedule ASSERT LENGTH s (start max todos) = Ok c ->
  threads c !! tid = Some th -> pc th = AtPoll hi lo -> todo th <> [] ->
  _nodes (shared c) !! Z.to_nat hi = Some None ->
  lo <> 0 /\
  exists tid' th',
    tid' <> tid /\ threads c !! tid' = Some th' /\
    pc th' = AtCreate hi 0 /\ todo th' <> [].
Proof.
  intros HL Hmax Hcap Hrun Hth Hpc Htodo Hnull.
  destruct (run_schedule_conc_inv ASSERT LENGTH Elem max todos s c HL Hmax Hcap Hrun)
    as [log Hinv].
  destruct (todo th) as [| elem rest] eqn:Hwork; [congruence |].
  assert (Hclaim : claim_of th = Some (hi, lo, Reserved)).
  { unfold claim_of. rewrite Hwork, Hpc. reflexivity. }
  destruct (claim_entry LENGTH Elem max (concat todos) HL Hmax Hcap
              log c tid th hi lo Reserved elem rest Hinv Hth Hwork Hclaim)
    as (r & en & Hr & Hf & _ & Hhi & Hlo & Hhir & Hlor & _ & Hsplit).
  pose proof (ci_table _ _ _ _ _ Hinv (Z.to_nat hi) ltac:(lia)) as Htab.
  destruct (seg_published LENGTH log (Z.to_nat hi)) eqn:Hpub.
  { destruct Htab as [p Hp]. congruence. }
  unfold seg_published in Hpub.
  pose proof (lookup_lt_Some _ _ _ Hr) as Hrlt.
  destruct (log !! (Z.to_nat hi * Z.to_nat LENGTH)%nat) as [en0 |] eqn:Hr0.
  2:{ apply lookup_ge_None in Hr0. lia. }
  destruct (e_fate en0) as [tid' [| |] |] eqn:Hf0; try discriminate.
  destruct (ci_owner _ _ _ _ _ Hinv _ en0 tid' Unpublished Hr0 Hf0)
    as (th' & Hth' & Hcl' & _).
  assert (Hd : Z.of_nat (Z.to_nat hi * Z.to_nat LENGTH) / LENGTH = hi).
  { rewrite Nat2Z.inj_mul, !Z2Nat.id by lia. apply Z.div_mul. lia. }
  assert (Hm : Z.of_nat (Z.to_nat hi * Z.to_nat LENGTH) mod LENGTH = 0).
  { rewrite Nat2Z.inj_mul, !Z2Nat.id by lia. apply Z.mod_mul. lia. }
  rewrite Hd, Hm in Hcl'.
  split.
  - intros ->. replace r with (Z.to_nat hi * Z.to_nat LENGTH)%nat in Hr by lia.
    rewrite Hr0 in Hr. injection Hr as <-. congruence.
  - exists tid', th'.
    assert (Hpc' : pc th' = AtCreate hi 0 /\ todo th' <> []).
    { unfold claim_of in Hcl'. destruct (todo th'); [discriminate |].
      destruct (pc th'); try discriminate. injection Hcl' as -> ->.
      split; [reflexivity | discriminate]. }
    split; [| split; [exact Hth' | exact Hpc']].
    intros ->. rewrite Hth in Hth'. injection Hth' as <-.
    destruct Hpc' as [Hpc' _]. congruence.
Qed.

(** Witness of [poll_waits_for_the_creator]: thread 1 polls for the
    segment that thread 0 has still to create. *)
Lemma poll_waits_for_the_creator_witness :
  exists c,
    run_schedule true 4 [0; 0; 1; 1]%nat (start 5 [[1]; [2]]) = Ok c /\
    1 <> 0 /\
    exists tid' th',
      tid' <> 1%nat /\ threads c !! tid' = Some th' /\
      pc th' = AtCreate 0 0 /\ todo th' <> [].
Proof.
  eexists. split; [vm_compute; reflexivity |].
  apply (poll_waits_for_the_creator true 4 Z 5 [[1]; [2]] [0; 0; 1; 1]%nat
           _ 1%nat (mkThread (AtPoll 0 1) [2]) 0 1).
  - lia.
  - lia.
  - vm_compute. discriminate.
  - vm_compute. reflexivity.
  - reflexivity.
  - reflexivity.
  - discriminate.
  - reflexivity.
Defined.



(** X16: a write never lands on an element. When a thread is about to
    write its element, the node it holds is the one in the table entry of
    its segment, the node is live, and the slot it reserved has not been
    written: no [add] overwrites what another [add] wrote. *)
Theorem write_goes_to_an_empty_slot (ASSERT : bool) (LENGTH : Z)
    (Elem : Type) (max : Z) (todos : list (list Elem)) (s : list nat)
    (c : config Elem) (tid : nat) (th : thread Elem) (hi lo : Z) (q : ptr) :
  0 < LENGTH < 2 ^ 32 -> 0 <= max < 2 ^ 32 ->
  Zlen (concat todos) <= max * LENGTH ->
  run_schedule ASSERT LENGTH s (start max todos) = Ok c ->
  threads c !! tid = Some th -> pc th = AtWrite hi lo q -> todo th <> [] ->
  _nodes (shared c) !! Z.to_nat hi = Some (Some q) /\
  exists node,
    c_heap (shared c) !! q = Some node /\
    _oop_offsets node !! Z.to_nat lo = Some None.
Proof.
  intros HL Hmax Hcap Hrun Hth Hpc Htodo.
  destruct (run_schedule_conc_inv ASSERT LENGTH Elem max todos s c HL Hmax Hcap Hrun)
    as [log Hinv].
  pose proof (ci_node _ _ _ _ _ Hinv tid th hi lo q Hth Hpc Htodo) as Hentry.
  split; [exact Hentry |].
  destruct (todo th) as [| elem rest] eqn:Hwork; [congruence |].
  assert (Hclaim : claim_of th = Some (hi, lo, Reserved)).
  { unfold claim_of. rewrite Hwork, Hpc. reflexivity. }
  destruct (claim_entry LENGTH Elem max (concat todos) HL Hmax Hcap
              log c tid th hi lo Reserved elem rest Hinv Hth Hwork Hclaim)
    as (r & en & Hr & Hf & _ & _ & _ & Hhi & Hlo & _ & Hsplit).
  destruct (ci_cells _ _ _ _ _ Hinv (Z.to_nat hi) q Hentry)
    as (node & Hnode & _ & Hslots).
  exists node. split; [exact Hnode |].
  rewrite (Hslots (Z.to_nat lo)) by lia.
  rewrite <- Hsplit. unfold slot_view. rewrite Hr, Hf. reflexivity.
Qed.

(** Witness of [write_goes_to_an_empty_slot]: thread 1 about to write slot
    1 of the segment that thread 0 has created. *)
Lemma write_goes_to_an_empty_slot_witness :
  exists c q,
    run_schedule true 4 [0; 0; 1; 1; 0; 1]%nat (start 5 [[1]; [2]]) = Ok c /\
    threads c !! 1%nat = Some (mkThread (AtWrite 0 1 q) [2]) /\
    _nodes (shared c) !! Z.to_nat 0 = Some (Some q) /\
    exists node,
      c_heap (shared c) !! q = Some node /\
      _oop_offsets node !! Z.to_nat 1 = Some None.
Proof.
  eexists _, _. split; [vm_compute; reflexivity |].
  split; [vm_compute; reflexivity |].
  eapply (write_goes_to_an_empty_slot true 4 Z 5 [[1]; [2]] [0; 0; 1; 1; 0; 1]%nat
            _ 1%nat _ 0 1 _).
  - lia.
  - lia.
  - vm_compute. discriminate.
  - vm_compute. reflexivity.
  - vm_compute. reflexivity.
  - reflexivity.
  - discriminate.
Defined.

(** ** The tracker: offsets *)

(** X17: [cast_from_offset] keeps the order: of two offsets the greater
    one is the object at the greater address, as long as the address does
    not leave the 64-bit address space. Offsets in ascending order are
    objects in ascending address order, and different offsets are
    different objects. *)
Theorem cast_from_offset_increasing (t : G1EvacuationFailureObjsInHR)
    (o1 o2 : Z) :
  0 <= _bottom t -> 0 <= o1 < o2 ->
  _bottom t + o2 * HeapWordSize < 2 ^ 64 ->
  cast_from_offset o1 t < cast_from_offset o2 t.
Proof.
  intros Hb Ho Hfit. unfold cast_from_offset, uint64, HeapWordSize in *.
  rewrite !Z.mod_small by lia. lia.
Qed.

(** Witness of [cast_from_offset_increasing]: offsets 5 and 12. *)
Lemma cast_from_offset_increasing_witness :
  cast_from_offset 5 (Tracker_new 20 16 0 0x10000)
  < cast_from_offset 12 (Tracker_new 20 16 0 0x10000).
Proof.
  apply cast_from_offset_increasing; vm_compute; try split; congruence.
Defined.

Lemma land_le_r (a m : Z) : 0 <= a -> 0 <= m -> Z.land a m <= m.
Proof.
  intros Ha Hm.
  rewrite <- (Z2N.id a Ha), <- (Z2N.id m Hm) at 1.
  rewrite <- N2Z.inj_land.
  pose proof (N.land_le_r (Z.to_N a) (Z.to_N m)). lia.
Qed.

(** X18: whatever the object, an offset that [cast_from_oop_addr] returns
    is within the offset mask and is a 32-bit value; in a debug build it
    is returned only for an object whose word distance from the base is
    at most the mask. *)
Theorem cast_from_oop_addr_within_mask (ASSERT : bool)
    (t : G1EvacuationFailureObjsInHR) (obj offset : Z) :
  0 <= offset_mask t ->
  cast_from_oop_addr ASSERT obj t = Ok offset ->
  0 <= offset <= offset_mask t /\ offset < 2 ^ 32 /\
  (ASSERT = true -> pointer_delta obj (_bottom t) <= offset_mask t).
Proof.
  intros Hmask Hcast. unfold cast_from_oop_addr in Hcast. cbv zeta in Hcast.
  assert (Hd : 0 <= pointer_delta obj (_bottom t)).
  { unfold pointer_delta, uint64, HeapWordSize.
    apply Z.div_pos; [| lia]. apply Z.mod_pos_bound. lia. }
  pose proof (land_le_r _ _ Hd Hmask) as Hle.
  assert (Hnn : 0 <= Z.land (pointer_delta obj (_bottom t)) (offset_mask t)).
  { apply Z.land_nonneg. auto. }
  unfold assert in Hcast.
  destruct ASSERT; cbn [andb] in Hcast.
  - destruct (Z.geb_spec (offset_mask t) (pointer_delta obj (_bottom t)))
      as [Hge | Hlt]; cbn [negb bind] in Hcast; [| discriminate].
    injection Hcast as <-. unfold uint32.
    pose proof (Z.mod_pos_bound (Z.land (pointer_delta obj (_bottom t)) (offset_mask t))
                  (2 ^ 32) ltac:(lia)).
    pose proof (Z.mod_le (Z.land (pointer_delta obj (_bottom t)) (offset_mask t))
                  (2 ^ 32) Hnn ltac:(lia)).
    split; [lia |]. split; [lia |]. intros _. lia.
  - cbn [bind] in Hcast. injection Hcast as <-. unfold uint32.
    pose proof (Z.mod_pos_bound (Z.land (pointer_delta obj (_bottom t)) (offset_mask t))
                  (2 ^ 32) ltac:(lia)).
    pose proof (Z.mod_le (Z.land (pointer_delta obj (_bottom t)) (offset_mask t))
                  (2 ^ 32) Hnn ltac:(lia)).
    split; [lia |]. split; [lia |]. discriminate.
Qed.

(** Witness of [cast_from_oop_addr_within_mask]: a product build, a mask
    of eight bits and an object 300 words above the base. *)
Lemma cast_from_oop_addr_within_mask_witness :
  0 <= 300 mod 256 <= offset_mask (Tracker_new 8 16 0 0x10000) /\
  300 mod 256 < 2 ^ 32 /\
  (false = true ->
   pointer_delta (0x10000 + 8 * 300) (_bottom (Tracker_new 8 16 0 0x10000))
   <= offset_mask (Tracker_new 8 16 0 0x10000)).
Proof.
  apply (cast_from_oop_addr_within_mask false (Tracker_new 8 16 0 0x10000)
           (0x10000 + 8 * 300) (300 mod 256)).
  - vm_compute. discriminate.
  - vm_compute. reflexivity.
Defined.

(** X19: from an offset to the object and back. For an offset within the
    mask (a bit-width mask of at most 32 bits) whose object does not leave
    the 64-bit address space, [cast_from_offset] yields a word-aligned
    object of the region, and [cast_from_oop_addr] of that object is the
    offset again, in either build. *)
Theorem offset_roundtrip (ASSERT : bool) (t : G1EvacuationFailureObjsInHR)
    (w offset : Z) :
  0 <= w <= 32 -> offset_mask t = Z.ones w -> 0 <= _bottom t ->
  0 <= offset <= offset_mask t ->
  _bottom t + offset * HeapWordSize < 2 ^ 64 ->
  in_region (cast_from_offset offset t) t /\
  cast_from_oop_addr ASSERT (cast_from_offset offset t) t = Ok offset.
Proof.
  intros Hw Hmask Hb Ho Hfit.
  assert (Hobj : cast_from_offset offset t = _bottom t + offset * 8).
  { unfold cast_from_offset, uint64, HeapWordSize in *. apply Z.mod_small. lia. }
  assert (Hoff : offset_of (cast_from_offset offset t) t = offset).
  { unfold offset_of, HeapWordSize. rewrite Hobj.
    replace (_bottom t + offset * 8 - _bottom t) with (offset * 8) by lia.
    apply Z.div_mul. lia. }
  assert (Hin : in_region (cast_from_offset offset t) t).
  { unfold in_region. fold (offset_of (cast_from_offset offset t) t).
    rewrite Hoff. rewrite Hobj. unfold HeapWordSize in *.
    split; [lia |]. split; [| lia].
    replace (_bottom t + offset * 8 - _bottom t) with (offset * 8) by lia.
    apply Z.mod_mul. lia. }
  split; [exact Hin |].
  rewrite (cast_from_oop_addr_in_region ASSERT _ t w Hw Hmask Hb Hin).
  rewrite Hoff. reflexivity.
Qed.

(** Witness of [offset_roundtrip]: offset 5000 under a mask of 20 bits. *)
Lemma offset_roundtrip_witness :
  in_region (cast_from_offset 5000 (Tracker_new 20 16 0 0x10000))
            (Tracker_new 20 16 0 0x10000) /\
  cast_from_oop_addr true (cast_from_offset 5000 (Tracker_new 20 16 0 0x10000))
    (Tracker_new 20 16 0 0x10000) = Ok 5000.
Proof.
  apply (offset_roundtrip true (Tracker_new 20 16 0 0x10000) 20 5000).
  - lia.
  - reflexivity.
  - vm_compute. discriminate.
  - vm_compute. split; discriminate.
  - vm_compute. reflexivity.
Defined.
